(** * iam-role-cloner: a shallow embedding of the clone workflow

    The Go sources embedded here are [cmd/clone.go], [cmd/list.go],
    [cmd/version.go], [internal/aws/client.go] and [internal/logger].  A Go
    [string] is a sequence of bytes, modelled by [string] (one [ascii] per byte); Go maps
    with string keys are [gmap string _]; the AWS account, the file system
    and the clock are an abstract external state; a computation threads it
    together with standard input and leaves the trace of what it printed,
    logged and requested from AWS. *)

From Stdlib Require Import ZArith NArith Ascii String List Lia Bool.
From stdpp Require Import base option list gmap strings pretty sorting.

Local Open Scope string_scope.
Local Open Scope list_scope.
Local Open Scope nat_scope.

(** ** Go byte strings *)

Module GoString.

(** [s[:n]] *)
Fixpoint slice_to (s : string) (n : nat) {struct n} : string :=
  match n, s with
  | S n', String c s' => String c (slice_to s' n')
  | _, _ => ""
  end.

(** [s[n:]] *)
Fixpoint slice_from (s : string) (n : nat) {struct n} : string :=
  match n, s with
  | S n', String _ s' => slice_from s' n'
  | _, _ => s
  end.

Definition byte_val (c : ascii) : N := N_of_ascii c.

(** [lo <= c && c <= hi] on bytes. *)
Definition byte_in (lo hi : N) (c : ascii) : bool :=
  ((lo <=? byte_val c) && (byte_val c <=? hi))%N.

Fixpoint all_bytes (p : ascii → bool) (s : string) : bool :=
  match s with
  | "" => true
  | String c s' => p c && all_bytes p s'
  end.

Fixpoint map_bytes (f : ascii → ascii) (s : string) : string :=
  match s with
  | "" => ""
  | String c s' => String (f c) (map_bytes f s')
  end.

Fixpoint occurs (c : ascii) (s : string) : bool :=
  match s with
  | "" => false
  | String d s' => Ascii.eqb c d || occurs c s'
  end.

End GoString.

(** ** Package [unicode/utf8] *)

Module GoUtf8.
Import GoString.

(** [utf8.RuneSelf]: bytes below it are single-byte runes. *)
Definition RuneSelf : N := 128.

(** The kinds of first byte of the table [first]: ASCII, invalid, or the
  leading byte of a sequence of the given size whose second byte must
  lie in the given accept range. *)
Inductive firstInfo :=
  | fi_as
  | fi_xx
  | fi_seq (size : nat) (lo hi : N).

Definition locb : N := 128.
Definition hicb : N := 191.

Definition first (c : ascii) : firstInfo :=
  let v := byte_val c in
  if (v <? 128)%N then fi_as
  else if (v <? 194)%N then fi_xx
  else if (v <? 224)%N then fi_seq 2 locb hicb
  else if (v =? 224)%N then fi_seq 3 160 hicb
  else if (v <? 237)%N then fi_seq 3 locb hicb
  else if (v =? 237)%N then fi_seq 3 locb 159
  else if (v <? 240)%N then fi_seq 3 locb hicb
  else if (v =? 240)%N then fi_seq 4 144 hicb
  else if (v <? 244)%N then fi_seq 4 locb hicb
  else if (v =? 244)%N then fi_seq 4 locb 143
  else fi_xx.

(** The width returned by [utf8.DecodeRuneInString]: 0 on the empty
  string, 1 on ASCII and on every invalid or short sequence. *)
Definition DecodeRuneInString_width (s : string) : nat :=
  match s with
  | "" => 0
  | String s0 rest =>
    match first s0 with
    | fi_as | fi_xx => 1
    | fi_seq sz lo hi =>
      if String.length s <? sz then 1 else
      match rest with
      | String s1 rest1 =>
        if negb (byte_in lo hi s1) then 1
        else if sz <=? 2 then 2
        else match rest1 with
             | String s2 rest2 =>
               if negb (byte_in locb hicb s2) then 1
               else if sz <=? 3 then 3
               else match rest2 with
                    | String s3 _ =>
                      if negb (byte_in locb hicb s3) then 1 else 4
                    | "" => 1
                    end
             | "" => 1
             end
      | "" => 1
      end
    end
  end.

(** The UTF-8 sequences of [s], as [for _, r := range s] visits them. *)
Fixpoint runes_fuel (fuel : nat) (s : string) : list string :=
  match fuel with
  | 0 => []
  | S fuel' =>
    match s with
    | "" => []
    | _ => let w := DecodeRuneInString_width s in
           slice_to s w :: runes_fuel fuel' (slice_from s w)
    end
  end.

Definition runes (s : string) : list string := runes_fuel (String.length s) s.

Definition RuneCountInString (s : string) : nat := List.length (runes s).

End GoUtf8.

(** ** Package [strings] *)

Module GoStrings.
Import GoString.

(** [strings.HasPrefix]. *)
Fixpoint HasPrefix (s prefix : string) {struct prefix} : bool :=
  match prefix, s with
  | "", _ => true
  | String a p', String b s' => Ascii.eqb a b && HasPrefix s' p'
  | String _ _, "" => false
  end.

(** [strings.HasSuffix]. *)
Definition HasSuffix (s suffix : string) : bool :=
  (String.length suffix <=? String.length s) &&
  String.eqb (slice_from s (String.length s - String.length suffix)) suffix.

(** [strings.TrimSuffix]. *)
Definition TrimSuffix (s suffix : string) : string :=
  if HasSuffix s suffix
  then slice_to s (String.length s - String.length suffix)
  else s.

(** [strings.Index]: the first position at which [substr] occurs; [None]
  is Go's [-1]. *)
Fixpoint Index (s substr : string) : option nat :=
  if HasPrefix s substr then Some 0
  else match s with
       | "" => None
       | String _ s' => S <$> Index s' substr
       end.

(** [strings.Contains]. *)
Definition Contains (s substr : string) : bool :=
  match Index s substr with Some _ => true | None => false end.

(** The loop of [strings.Count] for a non-empty [substr]; every round
  consumes at least one byte, so [String.length s] rounds are enough. *)
Fixpoint countLoop (fuel : nat) (s substr : string) : nat :=
  match fuel with
  | 0 => 0
  | S fuel' =>
    match Index s substr with
    | None => 0
    | Some i =>
      S (countLoop fuel' (slice_from s (i + String.length substr)) substr)
    end
  end.

(** [strings.Count]. *)
Definition Count (s substr : string) : nat :=
  if String.eqb substr "" then GoUtf8.RuneCountInString s + 1
  else countLoop (String.length s) s substr.

(** The replacement loop of [strings.Replace], run [n] times on the not
  yet consumed part [s[start:]]; [i0] tells the first round ([i == 0])
  from the later ones. The result is what the builder receives from
  this point on. *)
Fixpoint replaceLoop (n : nat) (i0 : bool) (s old new : string) : string :=
  match n with
  | 0 => s
  | S n' =>
    let j :=
      if String.eqb old "" then
        Some (if i0 then 0 else GoUtf8.DecodeRuneInString_width s)
      else Index s old in
    match j with
    | Some j =>
      slice_to s j +:+ new +:+
      replaceLoop n' false (slice_from s (j + String.length old)) old new
    | None => s
    end
  end.

(** [strings.ReplaceAll s old new], that is [strings.Replace] with
  [n = -1]. *)
Definition ReplaceAll (s old new : string) : string :=
  if String.eqb old new then s
  else match Count s old with
       | 0 => s
       | m => replaceLoop m true s old new
       end.

(** [strings.Split] for a non-empty separator: the pieces between the
  non-overlapping occurrences of [sep], always at least one piece. *)
Fixpoint splitLoop (fuel : nat) (s sep : string) : list string :=
  match fuel with
  | 0 => [s]
  | S fuel' =>
    match Index s sep with
    | None => [s]
    | Some i =>
      slice_to s i :: splitLoop fuel' (slice_from s (i + String.length sep)) sep
    end
  end.

Definition Split (s sep : string) : list string :=
  if String.eqb sep "" then GoUtf8.runes s
  else splitLoop (String.length s) s sep.

(** The table [asciiSpace]. *)
Definition asciiSpace (c : ascii) : bool :=
  match byte_val c with
  | 9%N | 10%N | 11%N | 12%N | 13%N | 32%N => true
  | _ => false
  end.

Definition isASCII (c : ascii) : bool := (byte_val c <? GoUtf8.RuneSelf)%N.

Definition asciiLower (c : ascii) : ascii :=
  if byte_in 65 90 c then ascii_of_N (byte_val c + 32) else c.

(** The parts of [strings] that consult the Unicode tables, which are not
  embedded: [TrimFunc(s, unicode.IsSpace)],
  [TrimRightFunc(s, unicode.IsSpace)] and [Map(unicode.ToLower, s)]. *)
Class UnicodeTables := {
  TrimFunc_IsSpace : string → string;
  TrimRightFunc_IsSpace : string → string;
  Map_ToLower : string → string;
}.

Section with_tables.
Context `{UnicodeTables}.

(** Second loop of [strings.TrimSpace], on the reversed [s[start:]]:
  [inl kept] is the reversed [s[start:stop]] to return, [inr r] the
  reversed [s[start:stop]] handed to the Unicode-aware trimming when a
  non-ASCII byte is met. *)
Fixpoint trimSpaceRight (rev_s : string) : string + string :=
  match rev_s with
  | "" => inl ""
  | String c r =>
    if negb (isASCII c) then inr rev_s
    else if asciiSpace c then trimSpaceRight r
    else inl rev_s
  end.

(** [strings.TrimSpace]; the recursion is its first loop. *)
Fixpoint TrimSpace (s : string) : string :=
  match s with
  | "" => ""
  | String c s' =>
    if negb (isASCII c) then TrimFunc_IsSpace s
    else if asciiSpace c then TrimSpace s'
    else match trimSpaceRight (String.rev s) with
         | inl kept => String.rev kept
         | inr rest => TrimRightFunc_IsSpace (String.rev rest)
         end
  end.

(** [strings.ToLower]. *)
Definition ToLower (s : string) : string :=
  if all_bytes isASCII s then map_bytes asciiLower s else Map_ToLower s.

End with_tables.

End GoStrings.

(** ** Package [strconv] *)

Module GoStrconv.
Import GoString.

(** [int] is 64 bits wide on every platform the release builds target. *)
Definition intSize : Z := 64.
Definition minInt : Z := - 2 ^ (intSize - 1).
Definition maxInt : Z := 2 ^ (intSize - 1) - 1.

Fixpoint parseDigits (n : Z) (s : string) : option Z :=
  match s with
  | "" => Some n
  | String ch s' =>
    if byte_in 48 57 ch
    then parseDigits (n * 10 + (Z.of_N (byte_val ch) - 48)) s'
    else None
  end.

(** [strconv.Atoi]: an optional sign followed by at least one decimal
  digit, the value within [int]. [None] stands for [err != nil]; the
  callers never look at the error itself. *)
Definition Atoi (s : string) : option Z :=
  match s with
  | "" => None
  | String s0 rest =>
    let neg := Ascii.eqb s0 "-" in
    let digits := if neg || Ascii.eqb s0 "+" then rest else s in
    match digits with
    | "" => None
    | _ =>
      match parseDigits 0 digits with
      | None => None
      | Some n =>
        let v := if neg then (- n)%Z else n in
        if ((minInt <=? v) && (v <=? maxInt))%Z then Some v else None
      end
    end
  end.

End GoStrconv.

(** ** Errors, the external world and the state monad *)

(** A Go [error]: [None] is [nil], [Some msg] an error whose text is [msg]
  (what [%v] prints). *)
Abbreviation error := (option string).

(** A Go result pair [(T, error)]. *)
Inductive result (A : Type) : Type :=
| Ok (a : A)
| Err (msg : string).
Arguments Ok {A} a.
Arguments Err {A} msg.

Definition result_error {A} (r : result A) : error :=
  match r with Ok _ => None | Err e => Some e end.

(** A line feed. *)
Definition nl : string := String (ascii_of_nat 10) "".

(** [types.Role], as far as the gateway reads it. *)
Record Role := {
  role_RoleName : string;
  role_Description : option string;
  role_AssumeRolePolicyDocument : option string;
}.

(** [sts.GetCallerIdentityOutput]. *)
Record CallerIdentity := {
  identity_Account : string;
  identity_Arn : string;
}.

(** The outcomes of the [NextPage] calls of one SDK paginator: a first
  page, which is always requested, and the pages that follow while the
  service hands out a continuation token. The service is taken to end
  every listing after finitely many pages. *)
Record Listing (A : Type) := {
  first_page : result (list A);
  next_pages : list (result (list A));
}.
Arguments first_page {A} _.
Arguments next_pages {A} _.

Definition all_pages {A} (l : Listing A) : list (result (list A)) :=
  first_page l :: next_pages l.

(** The requests sent to AWS. *)
Inductive Request :=
| ReqGetCallerIdentity
| ReqListRoles
| ReqGetRole (roleName : string)
| ReqListAttachedRolePolicies (roleName : string)
| ReqListRolePolicies (roleName : string)
| ReqGetRolePolicy (roleName policyName : string)
| ReqListRoleTags (roleName : string)
| ReqCreateRole (roleName trustPolicy : string) (description : option string)
| ReqAttachRolePolicy (roleName policyArn : string)
| ReqPutRolePolicy (roleName policyName policyDocument : string)
| ReqTagRole (roleName : string) (tags : list (string * string)).

(** The requests that change the account. *)
Definition mutating (r : Request) : bool :=
  match r with
  | ReqCreateRole _ _ _ | ReqAttachRolePolicy _ _
  | ReqPutRolePolicy _ _ _ | ReqTagRole _ _ => true
  | _ => false
  end.

(** One request as it was issued: the profile of the client, the request
  and the error the service answered with, if any. *)
Record Call := {
  call_profile : string;
  call_request : Request;
  call_error : error;
}.

(** What lies outside the program: the AWS accounts behind the profiles,
  the shared configuration, the file system, the clock, and the order in
  which the Go runtime ranges over a map. [E] is the state of all of it;
  every operation may depend on it and change it. *)
Class External (E : Type) := {
  os_OpenFile : string → E → error * E;
  time_Now_Format : string → E → string * E;
  config_LoadDefaultConfig : string → E → error * E;
  sts_GetCallerIdentity : string → E → result CallerIdentity * E;
  iam_ListRoles : string → E → Listing Role * E;
  iam_GetRole : string → string → E → result Role * E;
  iam_ListAttachedRolePolicies : string → string → E → Listing string * E;
  iam_ListRolePolicies : string → string → E → result (list string) * E;
  iam_GetRolePolicy : string → string → string → E → result (option string) * E;
  iam_ListRoleTags : string → string → E → result (list (string * string)) * E;
  iam_CreateRole : string → string → string → option string → E → error * E;
  iam_AttachRolePolicy : string → string → string → E → error * E;
  iam_PutRolePolicy : string → string → string → string → E → error * E;
  iam_TagRole : string → string → list (string * string) → E → error * E;
  map_range : ∀ {A}, gmap string A → E → list (string * A) * E;
  map_range_perm : ∀ A (m : gmap string A) e, (map_range m e).1 ≡ₚ map_to_list m;
}.

(** [net/url] and [encoding/json], which are not embedded. *)
Class Encoding := {
  JSON : Type;
  url_QueryUnescape : string → result string;
  json_Unmarshal : string → result JSON;
  json_MarshalIndent : JSON → string → string → result string;
}.

(** What the program does that can be observed, in the order in which it
  happens: plain text on standard output, a console line of the logger, a
  line appended to the log file, the closing of that file, and the requests
  sent to AWS. Colours and the time stamps the logger puts in front are
  left out. *)
Inductive Level := INFO | SUCCESS | WARNING | ERROR | DEBUG | PROGRESS | HEADER.

Inductive Event :=
| Stdout (text : string)
| Console (level : Level) (message : string)
| LogLine (level : Level) (message : string)
| LogClose
| Called (c : Call).

(** The requests among the events. *)
Definition calls_of (t : list Event) : list Call :=
  omap (λ ev, match ev with Called c => Some c | _ => None end) t.

(** The state a computation reads and changes: the outside world and what
  is left of standard input. *)
Record State (E : Type) := {
  ext : E;
  stdin : string;
}.
Arguments ext {E} _.
Arguments stdin {E} _.

(** A computation returns a value, leaves a state and a trace of events. *)
Definition M (E A : Type) : Type := State E → A * State E * list Event.

Definition value {E A} (r : A * State E * list Event) : A := r.1.1.
Definition final {E A} (r : A * State E * list Event) : State E := r.1.2.
Definition trace {E A} (r : A * State E * list Event) : list Event := r.2.

Global Instance M_ret {E} : MRet (M E) := λ A a s, (a, s, []).
Global Instance M_bind {E} : MBind (M E) := λ A B f m s,
  let '(a, s1, t1) := m s in
  let '(b, s2, t2) := f a s1 in
  (b, s2, t1 ++ t2).

Section primitives.
Context {E : Type}.

Definition emit (ev : Event) : M E unit := λ s, (tt, s, [ev]).

(** An operation on the outside world that is no AWS request. *)
Definition outside {A} (f : E → A * E) : M E A := λ s,
  let '(a, e) := f (ext s) in
  (a, {| ext := e; stdin := stdin s |}, []).

Definition record (c : Call) : M E unit := emit (Called c).

(** An AWS request answered in one round trip. *)
Definition request {A} (profile : string) (req : Request)
    (f : E → A * E) (err : A → error) : M E A :=
  a ← outside f; record (Build_Call profile req (err a));; mret a.

(** [reader.ReadString('\n')] on standard input, its error dropped as the
  callers do: the bytes up to and with the first line feed, or all that
  is left. *)
Definition ReadString_nl : M E string := λ s,
  let line :=
    match GoStrings.Index (stdin s) nl with
    | Some i => GoString.slice_to (stdin s) (S i)
    | None => stdin s
    end in
  (line,
   {| ext := ext s;
      stdin := GoString.slice_from (stdin s) (String.length line) |},
   []).

(** [for _, x := range xs { body }] over a slice. *)
Fixpoint forEach {A} (xs : list A) (body : A → M E unit) : M E unit :=
  match xs with
  | [] => mret tt
  | x :: xs' => body x;; forEach xs' body
  end.

End primitives.

(** ** Package [internal/logger] *)

Module Logger.

Record Logger := {
  verbose : bool;
  logFile : option string;
}.

Section logger.
Context {E : Type} `{External E}.

Definition New (verbose : bool) (logFileName : string) : M E (result Logger) :=
  if String.eqb logFileName "" then
    mret (Ok {| verbose := verbose; logFile := None |})
  else
    err ← outside (os_OpenFile logFileName);
    match err with
    | Some e => mret (Err ("failed to open log file: " +:+ e))
    | None => mret (Ok {| verbose := verbose; logFile := Some logFileName |})
    end.

Definition Close (l : Logger) : M E unit :=
  match logFile l with
  | Some _ => emit LogClose
  | None => mret tt
  end.

Definition writeToFile (l : Logger) (level : Level) (message : string) : M E unit :=
  match logFile l with
  | Some _ => emit (LogLine level message)
  | None => mret tt
  end.

Definition Info (l : Logger) (message : string) : M E unit :=
  emit (Console INFO message);; writeToFile l INFO message.

Definition Success (l : Logger) (message : string) : M E unit :=
  emit (Console SUCCESS message);; writeToFile l SUCCESS message.

Definition Warning (l : Logger) (message : string) : M E unit :=
  emit (Console WARNING message);; writeToFile l WARNING message.

Definition Error (l : Logger) (message : string) : M E unit :=
  emit (Console ERROR message);; writeToFile l ERROR message.

Definition Debug (l : Logger) (message : string) : M E unit :=
  if negb (verbose l) then mret tt
  else emit (Console DEBUG message);; writeToFile l DEBUG message.

Definition Progress (l : Logger) (step total : nat) (message : string) : M E unit :=
  let progressMsg :=
    "[" +:+ pretty step +:+ "/" +:+ pretty total +:+ "] " +:+ message in
  emit (Console PROGRESS progressMsg);; writeToFile l PROGRESS progressMsg.

Definition Header (l : Logger) (title : string) : M E unit :=
  emit (Stdout nl);;
  emit (Stdout ("================================" +:+ nl));;
  emit (Stdout (title +:+ nl));;
  emit (Stdout ("================================" +:+ nl));;
  writeToFile l HEADER title.

Definition Separator (l : Logger) : M E unit :=
  emit (Stdout ("--------------------------------" +:+ nl)).

End logger.

End Logger.

(** ** Package [internal/aws] *)

Module Awsclient.

(** A [Client] is told apart by the profile it was opened with. *)
Record Client := {
  profile : string;
}.

Record RoleInfo := {
  RoleName : string;
  Description : string;
  TrustPolicy : string;
  ManagedPolicies : list string;
  InlinePolicies : gmap string string;
  Tags : gmap string string;
}.

(** [ReplacePatternInJSON] replaces patterns in JSON strings. *)
Definition ReplacePatternInJSON (jsonStr sourcePattern destPattern : string) : string :=
  GoStrings.ReplaceAll jsonStr sourcePattern destPattern.

(** [GenerateNewRoleName] generates new role name with pattern replacement. *)
Definition GenerateNewRoleName (originalName sourcePattern destPattern : string) : string :=
  GoStrings.ReplaceAll originalName sourcePattern destPattern.

Section gateway.
Context {E : Type} `{External E} `{Encoding}.

Definition NewClient (profile : string) : M E (result Client) :=
  err ← outside (config_LoadDefaultConfig profile);
  match err with
  | Some e =>
    mret (Err ("failed to load AWS config for profile " +:+ profile +:+ ": " +:+ e))
  | None => mret (Ok {| profile := profile |})
  end.

Definition ValidateCredentials (c : Client) : M E (result CallerIdentity) :=
  request (profile c) ReqGetCallerIdentity
    (sts_GetCallerIdentity (profile c)) result_error.

(** The body of the paginator loop of [ListRoles], over the outcomes of
  the [NextPage] calls still to come. *)
Fixpoint listRolesPages (c : Client) (prefix : string)
    (pages : list (result (list Role))) (allRoles : list string)
    : M E (result (list string)) :=
  match pages with
  | [] => mret (Ok allRoles)
  | page :: pages' =>
    record (Build_Call (profile c) ReqListRoles (result_error page));;
    match page with
    | Err e => mret (Err ("failed to list roles: " +:+ e))
    | Ok roles =>
      listRolesPages c prefix pages'
        (allRoles ++
         filter (λ roleName,
                   String.eqb prefix "" || GoStrings.HasPrefix roleName prefix = true)
                (role_RoleName <$> roles))
    end
  end.

(** [ListRoles] lists all IAM roles, optionally filtered by prefix. *)
Definition ListRoles (c : Client) (prefix : string) : M E (result (list string)) :=
  listing ← outside (iam_ListRoles (profile c));
  listRolesPages c prefix (all_pages listing) [].

(** [RoleExists] checks if a role exists. *)
Definition RoleExists (c : Client) (roleName : string) : M E bool :=
  r ← request (profile c) (ReqGetRole roleName)
        (iam_GetRole (profile c) roleName) result_error;
  mret (match r with Ok _ => true | Err _ => false end).

(** Helper function to get managed policies. *)
Fixpoint managedPoliciesPages (c : Client) (roleName : string)
    (pages : list (result (list string))) (policies : list string)
    : M E (result (list string)) :=
  match pages with
  | [] => mret (Ok policies)
  | page :: pages' =>
    record (Build_Call (profile c) (ReqListAttachedRolePolicies roleName)
                       (result_error page));;
    match page with
    | Err e => mret (Err e)
    | Ok arns => managedPoliciesPages c roleName pages' (policies ++ arns)
    end
  end.

Definition getManagedPolicies (c : Client) (roleName : string)
    : M E (result (list string)) :=
  listing ← outside (iam_ListAttachedRolePolicies (profile c) roleName);
  managedPoliciesPages c roleName (all_pages listing) [].

(** Helper function to process string policies. *)
Definition processStringPolicy (policyStr : string) : result string :=
  let decoded :=
    match url_QueryUnescape policyStr with
    | Ok d => d
    | Err _ => policyStr
    end in
  match json_Unmarshal decoded with
  | Err e =>
    Err ("invalid JSON after decoding: " +:+ e +:+
         " (original: " +:+ policyStr +:+ ")")
  | Ok temp =>
    match json_MarshalIndent temp "" "  " with
    | Err e => Err ("failed to re-marshal policy: " +:+ e)
    | Ok bytes => Ok bytes
    end
  end.

(** Helper function to properly process AWS policy documents. Both call
  sites pass a [*string], so only that case of the type switch is
  taken. *)
Definition processPolicyDocument (policyDoc : option string) : result string :=
  match policyDoc with
  | None => Err "policy document is nil"
  | Some v => processStringPolicy v
  end.

(** The loop of [getInlinePolicies] over the listed policy names. *)
Fixpoint inlinePoliciesLoop (c : Client) (roleName : string)
    (policyNames : list string) (policies : gmap string string)
    : M E (result (gmap string string)) :=
  match policyNames with
  | [] => mret (Ok policies)
  | policyName :: rest =>
    getOutput ← request (profile c) (ReqGetRolePolicy roleName policyName)
                  (iam_GetRolePolicy (profile c) roleName policyName) result_error;
    match getOutput with
    | Err e => mret (Err e)
    | Ok policyDocument =>
      match processPolicyDocument policyDocument with
      | Err e =>
        mret (Err ("failed to process inline policy " +:+ policyName +:+ ": " +:+ e))
      | Ok policyDoc =>
        inlinePoliciesLoop c roleName rest (<[policyName := policyDoc]> policies)
      end
    end
  end.

(** Helper function to get inline policies. *)
Definition getInlinePolicies (c : Client) (roleName : string)
    : M E (result (gmap string string)) :=
  listOutput ← request (profile c) (ReqListRolePolicies roleName)
                 (iam_ListRolePolicies (profile c) roleName) result_error;
  match listOutput with
  | Err e => mret (Err e)
  | Ok policyNames => inlinePoliciesLoop c roleName policyNames ∅
  end.

(** Helper function to get role tags. *)
Definition getRoleTags (c : Client) (roleName : string)
    : M E (result (gmap string string)) :=
  output ← request (profile c) (ReqListRoleTags roleName)
             (iam_ListRoleTags (profile c) roleName) result_error;
  match output with
  | Err e => mret (Err e)
  | Ok tags =>
    mret (Ok (foldl (λ (m : gmap string string) tag, <[tag.1 := tag.2]> m) ∅ tags))
  end.

(** [GetRoleInfo] retrieves complete information about a role. *)
Definition GetRoleInfo (c : Client) (roleName : string) : M E (result RoleInfo) :=
  roleOutput ← request (profile c) (ReqGetRole roleName)
                 (iam_GetRole (profile c) roleName) result_error;
  match roleOutput with
  | Err e => mret (Err ("failed to get role " +:+ roleName +:+ ": " +:+ e))
  | Ok role =>
    let description :=
      match role_Description role with Some d => d | None => "" end in
    match processPolicyDocument (role_AssumeRolePolicyDocument role) with
    | Err e => mret (Err ("failed to process trust policy: " +:+ e))
    | Ok trustPolicy =>
      managedPolicies ← getManagedPolicies c roleName;
      match managedPolicies with
      | Err e => mret (Err ("failed to get managed policies: " +:+ e))
      | Ok managedPolicies =>
        inlinePolicies ← getInlinePolicies c roleName;
        match inlinePolicies with
        | Err e => mret (Err ("failed to get inline policies: " +:+ e))
        | Ok inlinePolicies =>
          tags ← getRoleTags c roleName;
          match tags with
          | Err e => mret (Err ("failed to get tags: " +:+ e))
          | Ok tags =>
            mret (Ok {| RoleName := role_RoleName role;
                        Description := description;
                        TrustPolicy := trustPolicy;
                        ManagedPolicies := managedPolicies;
                        InlinePolicies := inlinePolicies;
                        Tags := tags |})
          end
        end
      end
    end
  end.

(** [CreateRole] creates a new IAM role. *)
Definition CreateRole (c : Client) (roleName trustPolicy description : string)
    : M E error :=
  let input_Description :=
    if String.eqb description "" then None else Some description in
  err ← request (profile c) (ReqCreateRole roleName trustPolicy input_Description)
          (iam_CreateRole (profile c) roleName trustPolicy input_Description) id;
  match err with
  | Some e => mret (Some ("failed to create role " +:+ roleName +:+ ": " +:+ e))
  | None => mret None
  end.

(** [AttachManagedPolicy] attaches a managed policy to a role. *)
Definition AttachManagedPolicy (c : Client) (roleName policyArn : string)
    : M E error :=
  err ← request (profile c) (ReqAttachRolePolicy roleName policyArn)
          (iam_AttachRolePolicy (profile c) roleName policyArn) id;
  match err with
  | Some e =>
    mret (Some ("failed to attach policy " +:+ policyArn +:+ " to role " +:+
                roleName +:+ ": " +:+ e))
  | None => mret None
  end.

(** [CreateInlinePolicy] creates an inline policy for a role. *)
Definition CreateInlinePolicy (c : Client)
    (roleName policyName policyDocument : string) : M E error :=
  err ← request (profile c) (ReqPutRolePolicy roleName policyName policyDocument)
          (iam_PutRolePolicy (profile c) roleName policyName policyDocument) id;
  match err with
  | Some e =>
    mret (Some ("failed to create inline policy " +:+ policyName +:+
                " for role " +:+ roleName +:+ ": " +:+ e))
  | None => mret None
  end.

(** [TagRole] adds tags to a role. *)
Definition TagRole (c : Client) (roleName : string) (tags : gmap string string)
    : M E error :=
  if decide (size tags = 0) then mret None
  else
    iamTags ← outside (map_range tags);
    err ← request (profile c) (ReqTagRole roleName iamTags)
            (iam_TagRole (profile c) roleName iamTags) id;
    match err with
    | Some e => mret (Some ("failed to tag role " +:+ roleName +:+ ": " +:+ e))
    | None => mret None
    end.

End gateway.

End Awsclient.

(** ** Package [fmt]: the verbs the commands use *)

Module GoFmt.

(** [%v] of a [bool]. *)
Definition fmt_bool (b : bool) : string := if b then "true" else "false".

(** [%.100s]: at most the first [n] runes. *)
Definition fmt_prec (n : nat) (s : string) : string :=
  String.concat "" (take n (GoUtf8.runes s)).

Definition key_le (a b : string * string) : Prop := String.le a.1 b.1.

Global Instance key_le_dec : RelDecision key_le.
Proof. intros a b. unfold key_le. apply _. Defined.

(** [%+v] of a [map[string]string]: the entries in the order of their
  keys. *)
Definition fmt_map (m : gmap string string) : string :=
  "map[" +:+
  String.concat " "
    ((λ kv : string * string, kv.1 +:+ ":" +:+ kv.2) <$>
     merge_sort key_le (map_to_list m)) +:+
  "]".

End GoFmt.

(** ** How a call ends *)

(** A function returns, or the program stops in it with a run-time panic,
  or it never returns. *)
Inductive outcome (A : Type) : Type :=
| Return (a : A)
| Panic (msg : string)
| Diverge.
Arguments Return {A} a.
Arguments Panic {A} msg.
Arguments Diverge {A}.

(** How the process ends once the command ran: by returning from [Run], or
  through [os.Exit]. *)
Inductive ProcessEnd :=
| Returned
| Exited (code : Z).

(** ** Package [cmd]: the clone command *)

Module Cmd.
Import Awsclient.

(** Enhanced configuration struct. *)
Record CloneConfig := {
  SourceProfile : string;
  DestProfile : string;
  SourcePattern : string;
  DestPattern : string;
  Roles : list string;
  Verbose : bool;
  DryRun : bool;
  LogFile : string;
}.

Definition set_SourceProfile (v : string) (c : CloneConfig) : CloneConfig :=
  {| SourceProfile := v; DestProfile := DestProfile c;
     SourcePattern := SourcePattern c; DestPattern := DestPattern c;
     Roles := Roles c; Verbose := Verbose c; DryRun := DryRun c;
     LogFile := LogFile c |}.

Definition set_DestProfile (v : string) (c : CloneConfig) : CloneConfig :=
  {| SourceProfile := SourceProfile c; DestProfile := v;
     SourcePattern := SourcePattern c; DestPattern := DestPattern c;
     Roles := Roles c; Verbose := Verbose c; DryRun := DryRun c;
     LogFile := LogFile c |}.

Definition set_SourcePattern (v : string) (c : CloneConfig) : CloneConfig :=
  {| SourceProfile := SourceProfile c; DestProfile := DestProfile c;
     SourcePattern := v; DestPattern := DestPattern c;
     Roles := Roles c; Verbose := Verbose c; DryRun := DryRun c;
     LogFile := LogFile c |}.

Definition set_DestPattern (v : string) (c : CloneConfig) : CloneConfig :=
  {| SourceProfile := SourceProfile c; DestProfile := DestProfile c;
     SourcePattern := SourcePattern c; DestPattern := v;
     Roles := Roles c; Verbose := Verbose c; DryRun := DryRun c;
     LogFile := LogFile c |}.

Definition set_Roles (v : list string) (c : CloneConfig) : CloneConfig :=
  {| SourceProfile := SourceProfile c; DestProfile := DestProfile c;
     SourcePattern := SourcePattern c; DestPattern := DestPattern c;
     Roles := v; Verbose := Verbose c; DryRun := DryRun c;
     LogFile := LogFile c |}.

(** The loop of [parseRoleSelection] over the comma-separated parts. *)
Section parse.
Context `{GoStrings.UnicodeTables}.

Fixpoint parseParts (parts : list string) (allRoles selectedRoles : list string)
    : result (list string) :=
  match parts with
  | [] => Ok selectedRoles
  | part :: parts' =>
    let part := GoStrings.TrimSpace part in
    if String.eqb part "" then parseParts parts' allRoles selectedRoles
    else
      match GoStrconv.Atoi part with
      | None => Err ("invalid number: " +:+ part)
      | Some index =>
        if ((index <? 1) || (index >? Z.of_nat (length allRoles)))%Z
        then Err ("number out of range: " +:+ pretty index)
        else parseParts parts' allRoles
               (selectedRoles ++ [allRoles !!! Z.to_nat (index - 1)])
      end
  end.

Definition parseRoleSelection (selection : string) (allRoles : list string)
    : result (list string) :=
  parseParts (GoStrings.Split selection ",") allRoles [].

End parse.

(** The value the [Environment] tag receives: "Set environment to
  destination pattern (cleaned)". *)
Definition envValue (destPattern : string) : string :=
  GoStrings.TrimSuffix
    (GoStrings.TrimSuffix (GoStrings.TrimSuffix destPattern "_") "-") ".".

(** The separator characters the specification names. *)
Definition isSeparator (c : ascii) : bool :=
  Ascii.eqb c "_" || Ascii.eqb c "-" || Ascii.eqb c ".".

(** The specification's wording of the same value, "the destination
  pattern with any trailing [_], [-], or [.] stripped": every
  separator at the end is removed, however many there are. It is written
  from the specification, to be compared with [envValue]. *)
Fixpoint spec_stripTrailingSeparators (s : string) : string :=
  match s with
  | "" => ""
  | String c s' =>
    let t := spec_stripTrailingSeparators s' in
    if String.eqb t "" && isSeparator c then "" else String c t
  end.

(** Whether [s] ends in one of the separators. *)
Definition endsInSeparator (s : string) : bool :=
  GoStrings.HasSuffix s "_" || GoStrings.HasSuffix s "-" || GoStrings.HasSuffix s ".".

(** The loop that fills [processedTags] from the tags in the order the
  runtime ranges over them. *)
Definition processTag (config : CloneConfig) (processedTags : gmap string string)
    (kv : string * string) : gmap string string :=
  let '(key, value) := kv in
  if String.eqb key "Environment" then
    <[key := envValue (DestPattern config)]> processedTags
  else
    <[key := ReplacePatternInJSON value (SourcePattern config) (DestPattern config)]>
      processedTags.

Definition processTags (config : CloneConfig) (tags : list (string * string))
    : gmap string string :=
  foldl (processTag config) ∅ tags.

Section clone.
Context {E : Type} `{External E} `{Encoding} `{GoStrings.UnicodeTables}.

(** [fmt.Print], [fmt.Printf] and [fmt.Println], their text already
  formatted. *)
Definition Print (text : string) : M E unit := emit (Stdout text).

(** [for i, x := range xs { body }] over a slice, [i] counted from [i0]. *)
Fixpoint forEachIndexed {A} (i0 : nat) (xs : list A) (body : nat → A → M E unit)
    : M E unit :=
  match xs with
  | [] => mret tt
  | x :: xs' => body i0 x;; forEachIndexed (S i0) xs' body
  end.

(** How many bytes standard input still holds; the program cannot ask, the
  embedding uses it to tell a loop that ends from one that does not. *)
Definition stdin_left : M E nat := λ s, (String.length (stdin s), s, []).

Definition getAndValidateProfiles (config : CloneConfig) (log : Logger.Logger)
    : M E (CloneConfig * error) :=
  Logger.Info log "Step 1: Profile Configuration and Validation";;
  Logger.Separator log;;
  config ← (if String.eqb (SourceProfile config) "" then
              Print "Enter source AWS profile: ";;
              profile ← ReadString_nl;
              mret (set_SourceProfile (GoStrings.TrimSpace profile) config)
            else mret config);
  config ← (if String.eqb (DestProfile config) "" then
              Print "Enter destination AWS profile: ";;
              profile ← ReadString_nl;
              mret (set_DestProfile (GoStrings.TrimSpace profile) config)
            else mret config);
  Logger.Info log ("Validating source profile: " +:+ SourceProfile config);;
  sourceClient ← NewClient (SourceProfile config);
  match sourceClient with
  | Err e => mret (config, Some ("failed to create source client: " +:+ e))
  | Ok sourceClient =>
  sourceIdentity ← ValidateCredentials sourceClient;
  match sourceIdentity with
  | Err e => mret (config, Some ("source profile validation failed: " +:+ e))
  | Ok sourceIdentity =>
  Logger.Success log ("Source profile validated - Account: " +:+
                      identity_Account sourceIdentity);;
  Logger.Debug log ("Source ARN: " +:+ identity_Arn sourceIdentity);;
  Logger.Info log ("Validating destination profile: " +:+ DestProfile config);;
  destClient ← NewClient (DestProfile config);
  match destClient with
  | Err e => mret (config, Some ("failed to create destination client: " +:+ e))
  | Ok destClient =>
  destIdentity ← ValidateCredentials destClient;
  match destIdentity with
  | Err e => mret (config, Some ("destination profile validation failed: " +:+ e))
  | Ok destIdentity =>
  Logger.Success log ("Destination profile validated - Account: " +:+
                      identity_Account destIdentity);;
  Logger.Debug log ("Destination ARN: " +:+ identity_Arn destIdentity);;
  if String.eqb (identity_Account sourceIdentity) (identity_Account destIdentity) then
    Logger.Warning log "Source and destination are the same AWS account";;
    Print "Continue anyway? (y/n): ";;
    confirm ← ReadString_nl;
    if negb (GoStrings.HasPrefix
               (GoStrings.ToLower (GoStrings.TrimSpace confirm)) "y")
    then mret (config, Some "operation cancelled - same account")
    else mret (config, None)
  else mret (config, None)
  end end end end.

Definition getPatternConfiguration (config : CloneConfig) (log : Logger.Logger)
    : M E (CloneConfig * error) :=
  Logger.Info log "Step 2: Pattern Configuration";;
  Logger.Separator log;;
  config ← (if String.eqb (SourcePattern config) "" then
              Print "Enter source pattern (e.g., 'dev_', 'staging-'): ";;
              pattern ← ReadString_nl;
              mret (set_SourcePattern (GoStrings.TrimSpace pattern) config)
            else mret config);
  config ← (if String.eqb (DestPattern config) "" then
              Print "Enter destination pattern (e.g., 'prod_', 'live-'): ";;
              pattern ← ReadString_nl;
              mret (set_DestPattern (GoStrings.TrimSpace pattern) config)
            else mret config);
  Logger.Success log ("Pattern replacement: '" +:+ SourcePattern config +:+
                      "' → '" +:+ DestPattern config +:+ "'");;
  let exampleRole := SourcePattern config +:+ "example_role" in
  let newExampleRole :=
    GenerateNewRoleName exampleRole (SourcePattern config) (DestPattern config) in
  Logger.Info log ("Example transformation: " +:+ exampleRole +:+ " → " +:+
                   newExampleRole);;
  mret (config, None).

(** The loop of [getRolesManually]; [i] is [length roles], an empty answer
  asks again. Once standard input is used up every answer is empty, so
  [fuel], the number of bytes left when the loop starts, bounds the rounds
  of a loop that ends. *)
Fixpoint manualEntryLoop (fuel count : nat) (roles : list string)
    : M E (outcome (list string)) :=
  if count <=? length roles then mret (Return roles)
  else match fuel with
       | 0 => mret Diverge
       | S fuel' =>
         Print ("Enter role name #" +:+ pretty (length roles + 1) +:+ ": ");;
         role ← ReadString_nl;
         let role := GoStrings.TrimSpace role in
         if negb (String.eqb role "")
         then manualEntryLoop fuel' count (roles ++ [role])
         else manualEntryLoop fuel' count roles
       end.

Definition getRolesManually (config : CloneConfig) (log : Logger.Logger)
    : M E (outcome (CloneConfig * error)) :=
  Logger.Info log "Manual role entry mode";;
  Print "How many roles do you want to clone? (1-20): ";;
  countStr ← ReadString_nl;
  let countStr := GoStrings.TrimSpace countStr in
  match GoStrconv.Atoi countStr with
  | None => mret (Return (config, Some ("invalid role count: " +:+ countStr)))
  | Some count =>
    if ((count <? 1) || (count >? 20))%Z
    then mret (Return (config, Some ("invalid role count: " +:+ countStr)))
    else
      fuel ← stdin_left;
      roles ← manualEntryLoop fuel (Z.to_nat count) [];
      match roles with
      | Return roles => mret (Return (set_Roles roles config, None))
      | Panic msg => mret (Panic msg)
      | Diverge => mret Diverge
      end
  end.

(** The spinner shown while the roles are listed is left out. *)
Definition discoverAndSelectRoles (config : CloneConfig) (log : Logger.Logger)
    : M E (outcome (CloneConfig * error)) :=
  Logger.Info log "Step 3: Role Discovery and Selection";;
  Logger.Separator log;;
  sourceClient ← NewClient (SourceProfile config);
  match sourceClient with
  | Err e => mret (Return (config, Some e))
  | Ok sourceClient =>
  Logger.Info log "Discovering roles in source account...";;
  allRoles ← ListRoles sourceClient (SourcePattern config);
  match allRoles with
  | Err e => mret (Return (config, Some ("failed to discover roles: " +:+ e)))
  | Ok allRoles =>
  if length allRoles =? 0 then
    Logger.Warning log ("No roles found with pattern '" +:+ SourcePattern config +:+ "'");;
    getRolesManually config log
  else
    Logger.Success log ("Found " +:+ pretty (length allRoles) +:+
                        " roles with pattern '" +:+ SourcePattern config +:+ "'");;
    Print (nl +:+ "Discovered roles:" +:+ nl);;
    forEachIndexed 0 allRoles (λ i role,
      let newRole :=
        GenerateNewRoleName role (SourcePattern config) (DestPattern config) in
      Print ("  " +:+ pretty (i + 1) +:+ ". " +:+ role +:+ " → " +:+ newRole +:+ nl));;
    Print (nl +:+ "Enter role numbers to clone (e.g., 1,3,5 or 'all'): ");;
    selection ← ReadString_nl;
    let selection := GoStrings.TrimSpace selection in
    if String.eqb (GoStrings.ToLower selection) "all" then
      Logger.Success log ("Selected all " +:+ pretty (length allRoles) +:+ " roles");;
      mret (Return (set_Roles allRoles config, None))
    else
      match parseRoleSelection selection allRoles with
      | Err e => mret (Return (config, Some ("invalid selection: " +:+ e)))
      | Ok selectedRoles =>
        Logger.Success log ("Selected " +:+ pretty (length selectedRoles) +:+ " roles");;
        mret (Return (set_Roles selectedRoles config, None))
      end
  end end.

Definition showSummaryAndConfirm (config : CloneConfig) (log : Logger.Logger)
    : M E bool :=
  Logger.Info log "Step 4: Configuration Summary";;
  Logger.Separator log;;
  Print ("Source Profile:      " +:+ SourceProfile config +:+ nl);;
  Print ("Destination Profile: " +:+ DestProfile config +:+ nl);;
  Print ("Pattern Replacement: '" +:+ SourcePattern config +:+ "' → '" +:+
         DestPattern config +:+ "'" +:+ nl);;
  Print ("Dry Run:            " +:+ GoFmt.fmt_bool (DryRun config) +:+ nl);;
  Print ("Verbose Logging:    " +:+ GoFmt.fmt_bool (Verbose config) +:+ nl);;
  Print ("Log File:           " +:+ LogFile config +:+ nl);;
  Print (nl +:+ "Roles to clone:" +:+ nl);;
  forEachIndexed 0 (Roles config) (λ i role,
    let newRole :=
      GenerateNewRoleName role (SourcePattern config) (DestPattern config) in
    Print ("  " +:+ pretty (i + 1) +:+ ". " +:+ role +:+ " → " +:+ newRole +:+ nl));;
  Print (nl +:+ "Proceed with cloning? (y/n): ");;
  confirm ← ReadString_nl;
  let confirm := GoStrings.ToLower (GoStrings.TrimSpace confirm) in
  mret (String.eqb confirm "y" || String.eqb confirm "yes").

(** The dry-run branch of [cloneSingleRole]: what would be done is only
  logged. *)
Definition dryRunPreview (roleInfo : RoleInfo) (config : CloneConfig)
    (log : Logger.Logger) : M E unit :=
  Logger.Info log "  [DRY RUN] Would create role and copy policies/tags";;
  let processedTrustPolicy :=
    ReplacePatternInJSON (TrustPolicy roleInfo) (SourcePattern config)
      (DestPattern config) in
  if Verbose config then
    Logger.Debug log ("  [DRY RUN] Original trust policy: " +:+ TrustPolicy roleInfo);;
    Logger.Debug log ("  [DRY RUN] Processed trust policy: " +:+ processedTrustPolicy);;
    (if 0 <? length (ManagedPolicies roleInfo) then
       Logger.Debug log ("  [DRY RUN] Would attach " +:+
                         pretty (length (ManagedPolicies roleInfo)) +:+
                         " managed policies:");;
       forEach (ManagedPolicies roleInfo) (λ policy,
         Logger.Debug log ("    - " +:+ policy))
     else mret tt);;
    (if 0 <? size (InlinePolicies roleInfo) then
       Logger.Debug log ("  [DRY RUN] Would create " +:+
                         pretty (size (InlinePolicies roleInfo)) +:+
                         " inline policies:");;
       entries ← outside (map_range (InlinePolicies roleInfo));
       forEach entries (λ entry,
         let policyName := entry.1 in
         let newPolicyName :=
           GenerateNewRoleName policyName (SourcePattern config) (DestPattern config) in
         Logger.Debug log ("    - " +:+ policyName +:+ " → " +:+ newPolicyName))
     else mret tt);;
    (if 0 <? size (Tags roleInfo) then
       Logger.Debug log ("  [DRY RUN] Would copy " +:+ pretty (size (Tags roleInfo)) +:+
                         " tags:");;
       entries ← outside (map_range (Tags roleInfo));
       forEach entries (λ '(key, value),
         if String.eqb key "Environment" then
           let envValue := envValue (DestPattern config) in
           Logger.Debug log ("    - " +:+ key +:+ ": " +:+ value +:+ " → " +:+ envValue)
         else
           let newValue :=
             ReplacePatternInJSON value (SourcePattern config) (DestPattern config) in
           if negb (String.eqb newValue value) then
             Logger.Debug log ("    - " +:+ key +:+ ": " +:+ value +:+ " → " +:+ newValue)
           else
             Logger.Debug log ("    - " +:+ key +:+ ": " +:+ value))
     else mret tt)
  else mret tt.

(** Steps 3 to 5 of [cloneSingleRole], once the role is created. *)
Definition copyPoliciesAndTags (destClient : Client) (destRole : string)
    (roleInfo : RoleInfo) (config : CloneConfig) (log : Logger.Logger) : M E unit :=
  Logger.Debug log ("  Attaching " +:+ pretty (length (ManagedPolicies roleInfo)) +:+
                    " managed policies...");;
  forEach (ManagedPolicies roleInfo) (λ policyArn,
    err ← AttachManagedPolicy destClient destRole policyArn;
    match err with
    | Some e =>
      Logger.Warning log ("    Failed to attach managed policy " +:+ policyArn +:+
                          ": " +:+ e)
    | None => Logger.Debug log ("    Attached: " +:+ policyArn)
    end);;
  Logger.Debug log ("  Creating " +:+ pretty (size (InlinePolicies roleInfo)) +:+
                    " inline policies...");;
  entries ← outside (map_range (InlinePolicies roleInfo));
  forEach entries (λ '(policyName, policyDocument),
    let newPolicyName :=
      GenerateNewRoleName policyName (SourcePattern config) (DestPattern config) in
    let processedDocument :=
      ReplacePatternInJSON policyDocument (SourcePattern config) (DestPattern config) in
    (if Verbose config then
       Logger.Debug log ("    Creating inline policy: " +:+ newPolicyName);;
       Logger.Debug log ("    Policy document preview: " +:+
                         GoFmt.fmt_prec 100 processedDocument +:+ "...")
     else mret tt);;
    err ← CreateInlinePolicy destClient destRole newPolicyName processedDocument;
    match err with
    | Some e =>
      Logger.Warning log ("    Failed to create inline policy " +:+ newPolicyName +:+
                          ": " +:+ e)
    | None => Logger.Debug log ("    Created inline policy: " +:+ newPolicyName)
    end);;
  if 0 <? size (Tags roleInfo) then
    Logger.Debug log ("  Copying " +:+ pretty (size (Tags roleInfo)) +:+ " tags...");;
    entries ← outside (map_range (Tags roleInfo));
    let processedTags := processTags config entries in
    (if Verbose config then
       Logger.Debug log ("    Processed tags: " +:+ GoFmt.fmt_map processedTags)
     else mret tt);;
    err ← TagRole destClient destRole processedTags;
    match err with
    | Some e => Logger.Warning log ("    Failed to copy tags: " +:+ e)
    | None => Logger.Debug log "    Tags copied successfully"
    end
  else mret tt.

(** [destClient] is [nil] in a dry run; using it then is a nil pointer
  dereference. *)
Definition cloneSingleRole (sourceClient : Client) (destClient : option Client)
    (sourceRole destRole : string) (config : CloneConfig) (log : Logger.Logger)
    : M E (outcome error) :=
  Logger.Debug log ("  Getting role information for: " +:+ sourceRole);;
  roleInfo ← GetRoleInfo sourceClient sourceRole;
  match roleInfo with
  | Err e => mret (Return (Some ("failed to get role info: " +:+ e)))
  | Ok roleInfo =>
  Logger.Debug log ("  Retrieved role info: " +:+
                    pretty (length (ManagedPolicies roleInfo)) +:+
                    " managed policies, " +:+
                    pretty (size (InlinePolicies roleInfo)) +:+
                    " inline policies, " +:+
                    pretty (size (Tags roleInfo)) +:+ " tags");;
  if DryRun config then
    dryRunPreview roleInfo config log;;
    mret (Return None)
  else
  match destClient with
  | None => mret (Panic "invalid memory address or nil pointer dereference")
  | Some destClient =>
  exists_ ← RoleExists destClient destRole;
  if exists_ : bool then
    mret (Return (Some ("destination role already exists: " +:+ destRole)))
  else
  Logger.Debug log "  Creating new role...";;
  let processedTrustPolicy :=
    ReplacePatternInJSON (TrustPolicy roleInfo) (SourcePattern config)
      (DestPattern config) in
  (if Verbose config then
     Logger.Debug log ("  Original trust policy: " +:+ TrustPolicy roleInfo);;
     Logger.Debug log ("  Processed trust policy: " +:+ processedTrustPolicy)
   else mret tt);;
  now ← outside (time_Now_Format "2006-01-02 15:04:05");
  let description := "Cloned from " +:+ sourceRole +:+ " on " +:+ now in
  err ← CreateRole destClient destRole processedTrustPolicy description;
  match err with
  | Some e =>
    (if Verbose config then
       Logger.Error log ("  Failed trust policy content: " +:+ processedTrustPolicy)
     else mret tt);;
    mret (Return (Some ("failed to create role: " +:+ e)))
  | None =>
    Logger.Debug log "  Role created successfully";;
    copyPoliciesAndTags destClient destRole roleInfo config log;;
    mret (Return None)
  end
  end
  end.

(** The loop of [performCloning] over [config.Roles]; [i] is the index of
  the head of [roles]. *)
Fixpoint cloneLoop (sourceClient : Client) (destClient : option Client)
    (config : CloneConfig) (log : Logger.Logger) (i : nat) (roles : list string)
    (successCount : nat) : M E (outcome nat) :=
  match roles with
  | [] => mret (Return successCount)
  | role :: roles' =>
    let newRole :=
      GenerateNewRoleName role (SourcePattern config) (DestPattern config) in
    Logger.Progress log (i + 1) (length (Roles config))
      ("Cloning: " +:+ role +:+ " → " +:+ newRole);;
    r ← cloneSingleRole sourceClient destClient role newRole config log;
    match r with
    | Return (Some err) =>
      Logger.Error log ("Failed to clone " +:+ role +:+ ": " +:+ err);;
      cloneLoop sourceClient destClient config log (S i) roles' successCount
    | Return None =>
      Logger.Success log ("Successfully cloned: " +:+ role +:+ " → " +:+ newRole);;
      cloneLoop sourceClient destClient config log (S i) roles' (successCount + 1)
    | Panic msg => mret (Panic msg)
    | Diverge => mret Diverge
    end
  end.

Definition performCloning (config : CloneConfig) (log : Logger.Logger)
    : M E (outcome error) :=
  Logger.Info log "Step 5: Role Cloning Process";;
  Logger.Separator log;;
  sourceClient ← NewClient (SourceProfile config);
  match sourceClient with
  | Err e => mret (Return (Some ("failed to create source client: " +:+ e)))
  | Ok sourceClient =>
  destClient ← (if negb (DryRun config) then
                  c ← NewClient (DestProfile config);
                  mret (match c with Ok c => Ok (Some c) | Err e => Err e end)
                else mret (Ok None));
  match destClient with
  | Err e => mret (Return (Some ("failed to create destination client: " +:+ e)))
  | Ok destClient =>
  successCount ← cloneLoop sourceClient destClient config log 0 (Roles config) 0;
  match successCount with
  | Panic msg => mret (Panic msg)
  | Diverge => mret Diverge
  | Return successCount =>
    Logger.Separator log;;
    Logger.Success log ("Cloning completed: " +:+ pretty successCount +:+ "/" +:+
                        pretty (length (Roles config)) +:+ " roles successful");;
    (if DryRun config then
       Logger.Info log "This was a dry run. Use without --dry-run to perform actual cloning."
     else mret tt);;
    mret (Return None)
  end
  end
  end.

(** [log.Close] is deferred: it runs when the function returns and when it
  panics, not when the process leaves through [os.Exit]. *)
Definition runEnhancedClone (config : CloneConfig) : M E (outcome ProcessEnd) :=
  log ← Logger.New (Verbose config) (LogFile config);
  match log with
  | Err e =>
    Print ("Failed to initialize logger: " +:+ e +:+ nl);;
    mret (Return (Exited 1))
  | Ok log =>
  Logger.Header log "🚀 IAM Role Cloning Wizard";;
  (if DryRun config then
     Logger.Warning log "Running in DRY-RUN mode - no actual changes will be made"
   else mret tt);;
  '(config, err) ← getAndValidateProfiles config log;
  match err with
  | Some e =>
    Logger.Error log ("Profile validation failed: " +:+ e);;
    mret (Return (Exited 1))
  | None =>
  '(config, err) ← getPatternConfiguration config log;
  match err with
  | Some e =>
    Logger.Error log ("Pattern configuration failed: " +:+ e);;
    mret (Return (Exited 1))
  | None =>
  selected ← discoverAndSelectRoles config log;
  match selected with
  | Panic msg => Logger.Close log;; mret (Panic msg)
  | Diverge => mret Diverge
  | Return (config, Some e) =>
    Logger.Error log ("Role selection failed: " +:+ e);;
    mret (Return (Exited 1))
  | Return (config, None) =>
  confirmed ← showSummaryAndConfirm config log;
  if negb confirmed then
    Logger.Info log "Operation cancelled by user";;
    Logger.Close log;;
    mret (Return Returned)
  else
  cloned ← performCloning config log;
  match cloned with
  | Panic msg => Logger.Close log;; mret (Panic msg)
  | Diverge => mret Diverge
  | Return (Some e) =>
    Logger.Error log ("Cloning failed: " +:+ e);;
    mret (Return (Exited 1))
  | Return None =>
    Logger.Success log "🎉 Role cloning completed successfully!";;
    Logger.Info log ("Log file saved: " +:+ LogFile config);;
    Logger.Close log;;
    mret (Return Returned)
  end
  end
  end
  end
  end.

(** The [Run] function of [cloneCmd], from the values of its flags. *)
Definition cloneCmd_Run (verbose dryRun : bool)
    (sourceProfile destProfile sourcePattern destPattern logFile : string)
    : M E (outcome ProcessEnd) :=
  logFile ← (if String.eqb logFile "" then
               now ← outside (time_Now_Format "20060102-150405");
               mret ("iam-clone-" +:+ now +:+ ".log")
             else mret logFile);
  runEnhancedClone
    {| SourceProfile := sourceProfile; DestProfile := destProfile;
       SourcePattern := sourcePattern; DestPattern := destPattern;
       Roles := []; Verbose := verbose; DryRun := dryRun; LogFile := logFile |}.

End clone.

End Cmd.

(** ** Package [cmd]: the version command *)

Module CmdVersion.

(** Build information, set at build time. *)
Record BuildInfo := {
  Version : string;
  GitCommit : string;
  BuildDate : string;
  GoVersion : string;
  Platform : string;
}.

(** A boolean flag of a [pflag.FlagSet]. *)
Record Flag := {
  flag_Name : string;
  flag_Shorthand : string;
  flag_Value : bool;
}.

Abbreviation FlagSet := (list Flag).

(** [FlagSet.BoolP]. *)
Definition BoolP (f : FlagSet) (name shorthand : string) (value : bool) : FlagSet :=
  f ++ [{| flag_Name := name; flag_Shorthand := shorthand; flag_Value := value |}].

(** [FlagSet.Lookup]. *)
Definition Lookup (f : FlagSet) (name : string) : option Flag :=
  List.find (λ fl, String.eqb (flag_Name fl) name) f.

(** [FlagSet.GetBool]: a flag that was never defined gives the zero value
  and an error. *)
Definition GetBool (f : FlagSet) (name : string) : bool * error :=
  match Lookup f name with
  | Some fl => (flag_Value fl, None)
  | None => (false, Some ("flag accessed but not defined: " +:+ name))
  end.

(** Setting a flag that the command line names. *)
Definition setFlag (sel : Flag → bool) (f : FlagSet) : FlagSet :=
  (λ fl, if sel fl
         then {| flag_Name := flag_Name fl; flag_Shorthand := flag_Shorthand fl;
                 flag_Value := true |}
         else fl) <$> f.

(** [FlagSet.Parse] on arguments of the forms [--name] and [-x]; every
  other argument counts as positional. *)
Fixpoint Parse (f : FlagSet) (arguments : list string) : result FlagSet :=
  match arguments with
  | [] => Ok f
  | a :: rest =>
    if GoStrings.HasPrefix a "--" && (2 <? String.length a) then
      let name := GoString.slice_from a 2 in
      match Lookup f name with
      | None => Err ("unknown flag: --" +:+ name)
      | Some _ => Parse (setFlag (λ fl, String.eqb (flag_Name fl) name) f) rest
      end
    else if GoStrings.HasPrefix a "-" && (String.length a =? 2) then
      let c := GoString.slice_from a 1 in
      match List.find (λ fl, String.eqb (flag_Shorthand fl) c) f with
      | None => Err ("unknown shorthand flag: '" +:+ c +:+ "' in " +:+ a)
      | Some _ => Parse (setFlag (λ fl, String.eqb (flag_Shorthand fl) c) f) rest
      end
    else Parse f rest
  end.

(** The persistent flags of [rootCmd], which every subcommand inherits. *)
Definition rootPersistentFlags : FlagSet :=
  BoolP (BoolP [] "verbose" "v" false) "dry-run" "d" false.

(** The flags of [versionCmd] after its [init]. *)
Definition versionFlags : FlagSet :=
  BoolP rootPersistentFlags "explain" "e" false.

Definition showSimpleVersion (b : BuildInfo) : list string :=
  ["IAM Role Cloner v" +:+ Version b +:+ nl].

Definition showDetailedVersion (b : BuildInfo) : list string :=
  [ "🚀 IAM Role Cloner" +:+ nl;
    "==================" +:+ nl;
    "Version:      " +:+ Version b +:+ nl;
    "Git Commit:   " +:+ GitCommit b +:+ nl;
    "Build Date:   " +:+ BuildDate b +:+ nl;
    "Go Version:   " +:+ GoVersion b +:+ nl;
    "Platform:     " +:+ Platform b +:+ nl;
    nl;
    "📋 Features:" +:+ nl;
    "  ✅ Clone IAM roles between AWS accounts" +:+ nl;
    "  ✅ Pattern replacement in names and policies" +:+ nl;
    "  ✅ Dry-run mode for safe testing" +:+ nl;
    "  ✅ Comprehensive logging and error handling" +:+ nl;
    "  ✅ Interactive and command-line modes" +:+ nl;
    "  ✅ Role discovery and validation" +:+ nl;
    nl;
    "🔗 Repository: https://github.com/your-username/iam-role-cloner" +:+ nl;
    "📚 Documentation: https://github.com/your-username/iam-role-cloner/README.md" +:+ nl ].

(** The [Run] function of [versionCmd]: what it prints, given the parsed
  flags. *)
Definition versionCmd_Run (b : BuildInfo) (flags : FlagSet) : list string :=
  let '(detailed, _) := GetBool flags "detailed" in
  if detailed then showDetailedVersion b else showSimpleVersion b.

(** [iam-role-cloner version arguments...]: the flags are parsed, then
  [Run] is called; a flag that is not defined ends the command with an
  error before [Run]. *)
Definition version_command (b : BuildInfo) (arguments : list string)
    : result (list string) :=
  match Parse versionFlags arguments with
  | Err e => Err e
  | Ok flags => Ok (versionCmd_Run b flags)
  end.

End CmdVersion.

(** ** More of the Go library *)

Module GoText.

(** [strings.Repeat] of a one-byte string. *)
Fixpoint Repeat (s : string) (count : nat) : string :=
  match count with
  | 0 => ""
  | S count' => s +:+ Repeat s count'
  end.

(** [%Nd] of a number that is not negative: its decimal digits, padded
  with spaces on the left to [width] characters. *)
Definition fmt_d (width : nat) (n : nat) : string :=
  Repeat " " (width - String.length (pretty n)) +:+ pretty n.

(** [sort.Strings]: increasing byte-wise order. *)
Definition sort_Strings (x : list string) : list string := merge_sort String.le x.

End GoText.

(** ** Package [cmd]: the list command *)

Module CmdList.
Import Awsclient.

(** Helper functions. *)
Definition getDescription (desc : string) : string :=
  if String.eqb desc "" then "(No description)"
  else if 80 <? String.length desc then GoString.slice_to desc 80 +:+ "..."
  else desc.

Definition extractPolicyName (arn : string) : string :=
  let parts := GoStrings.Split arn "/" in
  if 0 <? length parts then default arn (last parts) else arn.

(** The label of a trust policy in the detailed listing. *)
Definition trustLabel (trustPolicy : string) : string :=
  if GoStrings.Contains trustPolicy "ec2.amazonaws.com" then
    "🖥️  Trust: EC2 Service Role"
  else if GoStrings.Contains trustPolicy "lambda.amazonaws.com" then
    "🚀 Trust: Lambda Service Role"
  else if GoStrings.Contains trustPolicy "sts:AssumeRole" then
    "👤 Trust: Cross-Account Role"
  else "🔗 Trust: Custom Trust Policy".

Section list.
Context {E : Type} `{External E} `{Encoding} `{GoStrings.UnicodeTables}.

Definition displaySimpleRoles (roles : list string) (pattern : string)
    (log : Logger.Logger) : M E unit :=
  Cmd.Print (nl +:+ "📝 Role Names:" +:+ nl);;
  Cmd.Print ("=" +:+ GoText.Repeat "=" 50 +:+ nl);;
  Cmd.forEachIndexed 0 roles (λ i role,
    let displayName :=
      if negb (String.eqb pattern "")
      then GoStrings.ReplaceAll role pattern ("**" +:+ pattern +:+ "**")
      else role in
    Cmd.Print (GoText.fmt_d 3 (i + 1) +:+ ". " +:+ displayName +:+ nl)).

(** The lines of the managed policies of one role: all of them up to
  five, the first three and a count of the rest beyond. *)
Definition displayManagedPolicies (policies : list string) : M E unit :=
  if (0 <? length policies) && (length policies <=? 5) then
    forEach policies (λ policy,
      Cmd.Print ("    • " +:+ extractPolicyName policy +:+ nl))
  else if 5 <? length policies then
    Cmd.forEachIndexed 0 (take 3 policies) (λ j policy,
      Cmd.Print ("    • " +:+ extractPolicyName policy +:+ nl);;
      if j =? 2 then
        Cmd.Print ("    • ... and " +:+ pretty (length policies - 3) +:+ " more" +:+ nl)
      else mret tt)
  else mret tt.

(** The spinner shown while a role is fetched is left out. *)
Definition displayDetailedRoles (client : Client) (roles : list string)
    (log : Logger.Logger) : M E unit :=
  Cmd.Print (nl +:+ "📋 Detailed Role Information:" +:+ nl);;
  Cmd.Print ("=" +:+ GoText.Repeat "=" 80 +:+ nl);;
  Cmd.forEachIndexed 0 roles (λ i roleName,
    Cmd.Print (nl +:+ "[" +:+ pretty (i + 1) +:+ "/" +:+ pretty (length roles) +:+ "] " +:+
               roleName +:+ nl);;
    Cmd.Print (GoText.Repeat "-" (String.length roleName + 10) +:+ nl);;
    Logger.Debug log ("Getting details for role: " +:+ roleName);;
    roleInfo ← GetRoleInfo client roleName;
    match roleInfo with
    | Err e => Cmd.Print ("❌ Error getting role details: " +:+ e +:+ nl)
    | Ok roleInfo =>
      Cmd.Print ("📝 Description: " +:+ getDescription (Description roleInfo) +:+ nl);;
      Cmd.Print ("🔒 Managed Policies: " +:+ pretty (length (ManagedPolicies roleInfo)) +:+
                 nl);;
      displayManagedPolicies (ManagedPolicies roleInfo);;
      Cmd.Print ("📄 Inline Policies: " +:+ pretty (size (InlinePolicies roleInfo)) +:+ nl);;
      (if 0 <? size (InlinePolicies roleInfo) then
         entries ← outside (map_range (InlinePolicies roleInfo));
         forEach entries (λ entry, Cmd.Print ("    • " +:+ entry.1 +:+ nl))
       else mret tt);;
      Cmd.Print ("🏷️  Tags: " +:+ pretty (size (Tags roleInfo)) +:+ nl);;
      (if 0 <? size (Tags roleInfo) then
         entries ← outside (map_range (Tags roleInfo));
         forEach entries (λ '(key, value),
           let value :=
             if 30 <? String.length value
             then GoString.slice_to value 30 +:+ "..."
             else value in
           Cmd.Print ("    • " +:+ key +:+ ": " +:+ value +:+ nl))
       else mret tt);;
      Cmd.Print (trustLabel (TrustPolicy roleInfo) +:+ nl)
    end).

(** The body of [runListCommand] once the logger is there; the deferred
  [log.Close] follows it on every path. The spinner shown while the roles
  are listed is left out. *)
Definition listRoles (profile pattern : string) (details sortRoles : bool)
    (log : Logger.Logger) : M E unit :=
  Logger.Header log ("📋 IAM Roles in Profile: " +:+ profile);;
  Logger.Info log ("Connecting to AWS profile: " +:+ profile);;
  client ← NewClient profile;
  match client with
  | Err e => Logger.Error log ("Failed to create AWS client: " +:+ e)
  | Ok client =>
  Logger.Debug log "Validating AWS credentials...";;
  callerIdentity ← ValidateCredentials client;
  match callerIdentity with
  | Err e => Logger.Error log ("Failed to validate credentials: " +:+ e)
  | Ok callerIdentity =>
  Logger.Success log ("Connected to AWS Account: " +:+ identity_Account callerIdentity);;
  Logger.Debug log ("User/Role ARN: " +:+ identity_Arn callerIdentity);;
  Logger.Info log "Discovering IAM roles...";;
  roles ← ListRoles client "";
  match roles with
  | Err e => Logger.Error log ("Failed to list roles: " +:+ e)
  | Ok roles =>
  roles ← (if negb (String.eqb pattern "") then
             Logger.Info log ("Filtering roles by pattern: '" +:+ pattern +:+ "'");;
             let filteredRoles :=
               filter (λ role, GoStrings.Contains (GoStrings.ToLower role)
                                 (GoStrings.ToLower pattern) = true) roles in
             Logger.Info log ("Found " +:+ pretty (length filteredRoles) +:+
                              " roles matching pattern");;
             mret filteredRoles
           else
             Logger.Info log ("Found " +:+ pretty (length roles) +:+ " total roles");;
             mret roles);
  if length roles =? 0 then Logger.Warning log "No roles found"
  else
  roles ← (if sortRoles : bool then
             Logger.Debug log "Sorting roles alphabetically...";;
             mret (GoText.sort_Strings roles)
           else mret roles);
  Logger.Separator log;;
  (if details : bool then displayDetailedRoles client roles log
   else displaySimpleRoles roles pattern log);;
  Logger.Separator log;;
  Logger.Success log ("Listed " +:+ pretty (length roles) +:+ " roles successfully")
  end end end.

Definition runListCommand (profile pattern : string) (details sortRoles verbose : bool)
    : M E unit :=
  log ← Logger.New verbose "";
  match log with
  | Err e => Cmd.Print ("Failed to initialize logger: " +:+ e +:+ nl)
  | Ok log =>
    listRoles profile pattern details sortRoles log;;
    Logger.Close log
  end.

(** The [Run] function of [listCmd], from the values of its flags. *)
Definition listCmd_Run (profile pattern : string) (details sortRoles verbose : bool)
    : M E unit :=
  if String.eqb profile "" then
    Cmd.Print ("❌ Error: --profile flag is required" +:+ nl);;
    Cmd.Print ("Usage: iam-role-cloner list --profile <profile-name>" +:+ nl)
  else runListCommand profile pattern details sortRoles verbose.

End list.

End CmdList.

(** ** What a computation leaves in its trace *)

(** [post m Q]: from every state, the value [m] returns and the trace it
  leaves satisfy [Q]. *)
Definition post {E A} (m : M E A) (Q : A → list Event → Prop) : Prop :=
  ∀ s, Q (value (m s)) (trace (m s)).

(** [always P m]: every event of every trace of [m] satisfies [P]. *)
Definition always {E A} (P : Event → Prop) (m : M E A) : Prop :=
  post m (λ _ t, Forall P t).

(** An event that is no request to AWS. *)
Definition silent (ev : Event) : Prop :=
  match ev with Called _ => False | _ => True end.

(** An event that is no request, or a request of the client of profile
  [p] that changes nothing. *)
Definition reads_only (p : string) (ev : Event) : Prop :=
  match ev with
  | Called c => call_profile c = p ∧ mutating (call_request c) = false
  | _ => True
  end.

(** An event that is no request, or a request that changes nothing. *)
Definition harmless (ev : Event) : Prop :=
  match ev with
  | Called c => mutating (call_request c) = false
  | _ => True
  end.

(** A request of the client of profile [p] that satisfies [R]. *)
Definition request_of (p : string) (R : Request → Prop) (ev : Event) : Prop :=
  match ev with
  | Called c => call_profile c = p ∧ R (call_request c)
  | _ => False
  end.

Definition is_CreateRole (r : Request) : bool :=
  match r with ReqCreateRole _ _ _ => true | _ => false end.

Definition is_AttachRolePolicy (r : Request) : bool :=
  match r with ReqAttachRolePolicy _ _ => true | _ => false end.

Definition is_PutRolePolicy (r : Request) : bool :=
  match r with ReqPutRolePolicy _ _ _ => true | _ => false end.

Definition is_TagRole (r : Request) : bool :=
  match r with ReqTagRole _ _ => true | _ => false end.

(** An event that is no request, a request that changes nothing, or a
  CreateRole request. *)
Definition up_to_creation (ev : Event) : Prop :=
  match ev with
  | Called c =>
    mutating (call_request c) = false ∨ is_CreateRole (call_request c) = true
  | _ => True
  end.

(** An event that is no request, a request that changes nothing, or a
  CreateRole request that failed. *)
Definition nothing_created (ev : Event) : Prop :=
  match ev with
  | Called c =>
    mutating (call_request c) = false ∨
    (is_CreateRole (call_request c) = true ∧ is_Some (call_error c))
  | _ => True
  end.

(** [post_at s m Q]: the same for the run of [m] from the state [s]. *)
Definition post_at {E A} (s : State E) (m : M E A) (Q : A → list Event → Prop)
    : Prop :=
  Q (value (m s)) (trace (m s)).

(** The events of one message of the logger: the console line and, when a
  log file is open, the line in the file. *)
Definition log_events (l : Logger.Logger) (level : Level) (message : string)
    : list Event :=
  Console level message ::
  match Logger.logFile l with
  | Some _ => [LogLine level message]
  | None => []
  end.

(** The events of [log.Close]. *)
Definition close_events (l : Logger.Logger) : list Event :=
  match Logger.logFile l with
  | Some _ => [LogClose]
  | None => []
  end.

(** ** The execution step as seen from outside *)

(** The console line that reports one role as cloned. *)
Definition cloned_ok (ev : Event) : bool :=
  match ev with
  | Console SUCCESS message => GoStrings.HasPrefix message "Successfully cloned: "
  | _ => false
  end.

(** How many roles a trace reports as cloned. *)
Definition count_cloned (t : list Event) : nat := length (List.filter cloned_ok t).

(** The summary line of [performCloning]. *)
Definition summary_line (successCount total : nat) : string :=
  "Cloning completed: " +:+ pretty successCount +:+ "/" +:+ pretty total +:+
  " roles successful".

(** The warning that [cloneSingleRole] logs for a request of steps 3 to 5
  that failed: the text it puts in front, then the error of the gateway
  operation. *)
Definition substep_warning (c : Call) : option string :=
  match call_request c, call_error c with
  | ReqAttachRolePolicy roleName policyArn, Some e =>
    Some ("    Failed to attach managed policy " +:+ policyArn +:+ ": " +:+
          "failed to attach policy " +:+ policyArn +:+ " to role " +:+ roleName +:+
          ": " +:+ e)
  | ReqPutRolePolicy roleName policyName _, Some e =>
    Some ("    Failed to create inline policy " +:+ policyName +:+ ": " +:+
          "failed to create inline policy " +:+ policyName +:+ " for role " +:+
          roleName +:+ ": " +:+ e)
  | ReqTagRole roleName _, Some e =>
    Some ("    Failed to copy tags: " +:+ "failed to tag role " +:+ roleName +:+
          ": " +:+ e)
  | _, _ => None
  end.

(** Every failed request of steps 3 to 5 in the trace has its warning in
  the trace. *)
Definition warned (t : list Event) : Prop :=
  ∀ c msg, Called c ∈ t → substep_warning c = Some msg → Console WARNING msg ∈ t.

(** The trace holds a request [req] of the client of profile [p]. *)
Definition requested (p : string) (req : Request) (t : list Event) : Prop :=
  ∃ e, Called (Build_Call p req e) ∈ t.

(** The value [processedTags] holds for a tag of the source role. *)
Definition processedValue (config : Cmd.CloneConfig) (key value : string) : string :=
  if String.eqb key "Environment" then Cmd.envValue (Cmd.DestPattern config)
  else Awsclient.ReplacePatternInJSON value (Cmd.SourcePattern config)
         (Cmd.DestPattern config).

(** A tag request carries exactly the processed tags of [tags]: every tag
  under its key with its processed value, and nothing else. *)
Definition tags_carry (config : Cmd.CloneConfig) (tags : gmap string string)
    (ev : Event) : Prop :=
  match ev with
  | Called c =>
    match call_request c with
    | ReqTagRole _ iamTags =>
      ∀ key value,
        (key, value) ∈ iamTags ↔
        processedValue config key <$> tags !! key = Some value
    | _ => True
    end
  | _ => True
  end.

(** A request of the trace failed, and the service answered [e]. *)
Definition failed_with (t : list Event) (e : string) : Prop :=
  ∃ call, Called call ∈ t ∧ call_error call = Some e.

(** The wizard, started with [config0] in the state [s0], passes its first
  four steps (logger, profiles, patterns, role selection, confirmation)
  and arrives at the execution step with [config], [log] and the state
  [s]. *)
Definition reaches_execution {E} `{External E} `{Encoding} `{GoStrings.UnicodeTables}
    (config0 : Cmd.CloneConfig) (s0 : State E)
    (config : Cmd.CloneConfig) (log : Logger.Logger) (s : State E) : Prop :=
  ∃ config1 config2,
    let new := Logger.New (Cmd.Verbose config0) (Cmd.LogFile config0) s0 in
    let step1 := Cmd.getAndValidateProfiles config0 log (final new) in
    let step2 := Cmd.getPatternConfiguration config1 log (final step1) in
    let step3 := Cmd.discoverAndSelectRoles config2 log (final step2) in
    let step4 := Cmd.showSummaryAndConfirm config log (final step3) in
    value new = Ok log ∧
    value step1 = (config1, None) ∧
    value step2 = (config2, None) ∧
    value step3 = Return (config, None) ∧
    value step4 = true ∧
    final step4 = s.

(** ** Which role a request is about *)

(** The role a request names; the identity check and the listing of all
  roles name none. *)
Definition request_role (r : Request) : option string :=
  match r with
  | ReqGetCallerIdentity | ReqListRoles => None
  | ReqGetRole roleName
  | ReqListAttachedRolePolicies roleName
  | ReqListRolePolicies roleName
  | ReqGetRolePolicy roleName _
  | ReqListRoleTags roleName
  | ReqCreateRole roleName _ _
  | ReqAttachRolePolicy roleName _
  | ReqPutRolePolicy roleName _ _
  | ReqTagRole roleName _ => Some roleName
  end.

(** A request that reads the role [role]. *)
Definition reads_role (role : string) (r : Request) : Prop :=
  mutating r = false ∧ request_role r = Some role.

(** An event of the clone of [sourceRole] into [destRole]: no request, or
  a request of the source profile that reads the source role, or a request
  of the destination profile about the destination role. *)
Definition within_clone (sourceProfile sourceRole destProfile destRole : string)
    (ev : Event) : Prop :=
  match ev with
  | Called c =>
    (call_profile c = sourceProfile ∧ reads_role sourceRole (call_request c)) ∨
    (call_profile c = destProfile ∧ request_role (call_request c) = Some destRole)
  | _ => True
  end.

(** The managed policies attached along a trace, the inline policies put
  and the roles created, in the order of the requests. *)
Definition attached (t : list Event) : list (string * string) :=
  omap (λ c, match call_request c with
             | ReqAttachRolePolicy roleName policyArn => Some (roleName, policyArn)
             | _ => None
             end) (calls_of t).

Definition put (t : list Event) : list (string * (string * string)) :=
  omap (λ c, match call_request c with
             | ReqPutRolePolicy roleName policyName policyDocument =>
               Some (roleName, (policyName, policyDocument))
             | _ => None
             end) (calls_of t).

Definition created (t : list Event) : list (string * string * option string) :=
  omap (λ c, match call_request c with
             | ReqCreateRole roleName trustPolicy description =>
               Some (roleName, trustPolicy, description)
             | _ => None
             end) (calls_of t).

(** An event of the execution step: no request, or a request of the clone
  of one of the selected roles. *)
Definition within_cloning (config : Cmd.CloneConfig) (ev : Event) : Prop :=
  match ev with
  | Called _ =>
    ∃ role, role ∈ Cmd.Roles config ∧
      within_clone (Cmd.SourceProfile config) role (Cmd.DestProfile config)
        (Awsclient.GenerateNewRoleName role (Cmd.SourcePattern config)
           (Cmd.DestPattern config)) ev
  | _ => True
  end.

(** An event that is no attachment, no put, no creation. *)
Definition no_attach (ev : Event) : Prop :=
  match ev with Called c => is_AttachRolePolicy (call_request c) = false | _ => True end.

Definition no_put (ev : Event) : Prop :=
  match ev with Called c => is_PutRolePolicy (call_request c) = false | _ => True end.

Definition no_create (ev : Event) : Prop :=
  match ev with Called c => is_CreateRole (call_request c) = false | _ => True end.


(** What a trace attaches and puts, when it creates nothing. *)
Definition sends (t : list Event) (a : list (string * string))
    (p : list (string * (string * string))) : Prop :=
  attached t = a ∧ put t = p ∧ created t = [].

(** ** The wizard as seen from outside *)

(** An event that does not close the log file. *)
Definition not_close (ev : Event) : Prop :=
  match ev with LogClose => False | _ => True end.

(** An event of the steps before the execution: no request that changes
  an account, and the log file stays open. *)
Definition benign (ev : Event) : Prop := harmless ev ∧ not_close ev.

(** The flags of the run that no step of the wizard changes. *)
Definition same_mode (config config' : Cmd.CloneConfig) : Prop :=
  Cmd.DryRun config' = Cmd.DryRun config ∧
  Cmd.Verbose config' = Cmd.Verbose config ∧
  Cmd.LogFile config' = Cmd.LogFile config.

(** The events of closing the log file [logFile] names: none when the
  name is empty, for then there is no log file. *)
Definition closing (logFile : string) : list Event :=
  if String.eqb logFile "" then [] else [LogClose].

(** How the wizard may end: through [os.Exit(1)] with the log file still
  open; by returning, the log file closed last and not before; or never,
  the log file open. It does not panic. *)
Definition wizard_end (logFile : string) (r : outcome ProcessEnd)
    (t : list Event) : Prop :=
  match r with
  | Return (Exited code) => code = 1%Z ∧ Forall not_close t
  | Return Returned =>
    ∃ before, t = before ++ closing logFile ∧ Forall not_close before
  | Panic _ => False
  | Diverge => Forall not_close t
  end.

(** What the role selection may return: no panic, and the mode kept. *)
Definition selected (config : Cmd.CloneConfig)
    (r : outcome (Cmd.CloneConfig * error)) : Prop :=
  match r with
  | Return (config', _) => same_mode config config'
  | Panic _ => False
  | Diverge => True
  end.



(** ** Standard input at its end *)

(** [m] leaves standard input at its end when it finds it there. *)
Definition keeps_eof {E A} (m : M E A) : Prop :=
  ∀ s, stdin s = "" → stdin (final (m s)) = "".

(** [eof_post m Q]: started with standard input at its end, [m] returns a
  value and leaves a trace that satisfy [Q], and standard input is still
  at its end. *)
Definition eof_post {E A} (m : M E A) (Q : A → list Event → Prop) : Prop :=
  ∀ s, stdin s = "" → Q (value (m s)) (trace (m s)) ∧ stdin (final (m s)) = "".

(** The requests of the profile validation, by its result: both
  identities obtained when it succeeds (and when the user then refuses to
  go on within one account); otherwise the requests up to the one that
  failed. *)
Definition validation_calls (config : Cmd.CloneConfig) (err : error)
    (calls : list Call) : Prop :=
  let source := Build_Call (Cmd.SourceProfile config) ReqGetCallerIdentity in
  let dest := Build_Call (Cmd.DestProfile config) ReqGetCallerIdentity in
  match err with
  | None => calls = [source None; dest None]
  | Some _ =>
    calls = [] ∨ (∃ e, calls = [source (Some e)]) ∨ calls = [source None] ∨
    (∃ e, calls = [source None; dest (Some e)]) ∨ calls = [source None; dest None]
  end.

(** The roles fetched along a trace: the names of its GetRole requests,
  in their order. *)
Definition fetched (t : list Event) : list string :=
  omap (λ c, match call_request c with
             | ReqGetRole roleName => Some roleName
             | _ => None
             end) (calls_of t).

(** A request that is no GetRole. *)
Definition no_GetRole (r : Request) : Prop :=
  match r with ReqGetRole _ => False | _ => True end.

(** ** A small simulated environment

  Two or more accounts, each a map from role names to roles. A profile in
  [sim_denied] has every request refused; a managed policy can be attached
  only if it is one of AWS's own; creating a role that exists fails. *)

Module Sim.

Record SimRole := {
  sim_trust : string;
  sim_description : option string;
  sim_managed : list string;
  sim_inline : gmap string string;
  sim_tags : gmap string string;
}.

Record SimWorld := {
  sim_accounts : gmap string (gmap string SimRole);
  sim_denied : list string;
}.

Definition denied (p : string) (e : SimWorld) : bool :=
  bool_decide (p ∈ sim_denied e).

Definition account (p : string) (e : SimWorld) : gmap string SimRole :=
  default ∅ (sim_accounts e !! p).

Definition to_Role (name : string) (r : SimRole) : Role :=
  {| role_RoleName := name; role_Description := sim_description r;
     role_AssumeRolePolicyDocument := Some (sim_trust r) |}.

Definition update_role (p name : string) (r : SimRole) (e : SimWorld) : SimWorld :=
  {| sim_accounts := <[p := <[name := r]> (account p e)]> (sim_accounts e);
     sim_denied := sim_denied e |}.

(** A read of one role. *)
Definition read {A} (p name : string) (f : SimRole → A) (e : SimWorld) : result A * SimWorld :=
  if denied p e then (Err "AccessDenied", e)
  else match account p e !! name with
       | Some r => (Ok (f r), e)
       | None => (Err ("NoSuchEntity: " +:+ name), e)
       end.

(** A change of one role that exists. *)
Definition write (p name : string) (f : SimRole → result SimRole) (e : SimWorld)
    : error * SimWorld :=
  if denied p e then (Some "AccessDenied", e)
  else match account p e !! name with
       | Some r =>
         match f r with
         | Ok r' => (None, update_role p name r' e)
         | Err msg => (Some msg, e)
         end
       | None => (Some ("NoSuchEntity: " +:+ name), e)
       end.

Definition one_page {A} (r : result (list A)) : Listing A :=
  {| first_page := r; next_pages := [] |}.

Global Instance sim_external : External SimWorld.
Proof.
  refine {|
    os_OpenFile name e := (None, e);
    time_Now_Format layout e := ("2025-01-01 00:00:00", e);
    config_LoadDefaultConfig p e :=
      (if decide (is_Some (sim_accounts e !! p)) then None
       else Some ("failed to get shared config profile, " +:+ p), e);
    sts_GetCallerIdentity p e :=
      (if denied p e then Err "AccessDenied"
       else Ok {| identity_Account := p;
                  identity_Arn := "arn:aws:iam::" +:+ p +:+ ":user/cli" |}, e);
    iam_ListRoles p e :=
      (one_page (if denied p e then Err "AccessDenied"
                 else Ok ((λ kv, to_Role kv.1 kv.2) <$> map_to_list (account p e))), e);
    iam_GetRole p name := read p name (to_Role name);
    iam_ListAttachedRolePolicies p name e :=
      (one_page (read p name sim_managed e).1, e);
    iam_ListRolePolicies p name :=
      read p name (λ r, (map_to_list (sim_inline r)).*1);
    iam_GetRolePolicy p name policy e :=
      match read p name (λ r, sim_inline r !! policy) e with
      | (Ok (Some doc), e') => (Ok (Some doc), e')
      | (Ok None, e') => (Err ("NoSuchEntity: " +:+ policy), e')
      | (Err msg, e') => (Err msg, e')
      end;
    iam_ListRoleTags p name := read p name (λ r, map_to_list (sim_tags r));
    iam_CreateRole p name trust description e :=
      if denied p e then (Some "AccessDenied", e)
      else match account p e !! name with
           | Some _ => (Some ("EntityAlreadyExists: " +:+ name), e)
           | None =>
             (None,
              update_role p name
                {| sim_trust := trust; sim_description := description;
                   sim_managed := []; sim_inline := ∅; sim_tags := ∅ |} e)
           end;
    iam_AttachRolePolicy p name arn :=
      write p name (λ r,
        if GoStrings.HasPrefix arn "arn:aws:iam::aws:policy/" then
          Ok {| sim_trust := sim_trust r; sim_description := sim_description r;
                sim_managed := sim_managed r ++ [arn];
                sim_inline := sim_inline r; sim_tags := sim_tags r |}
        else Err ("NoSuchEntity: " +:+ arn));
    iam_PutRolePolicy p name policy doc :=
      write p name (λ r,
        Ok {| sim_trust := sim_trust r; sim_description := sim_description r;
              sim_managed := sim_managed r;
              sim_inline := <[policy := doc]> (sim_inline r);
              sim_tags := sim_tags r |});
    iam_TagRole p name tags :=
      write p name (λ r,
        Ok {| sim_trust := sim_trust r; sim_description := sim_description r;
              sim_managed := sim_managed r; sim_inline := sim_inline r;
              sim_tags := list_to_map tags ∪ sim_tags r |});
    map_range A m e := (map_to_list m, e);
  |}.
  intros A m e. reflexivity.
Defined.

(** Policy documents are taken as they are; the empty text is no JSON. *)
Global Instance sim_encoding : Encoding := {|
  JSON := string;
  url_QueryUnescape s := Ok s;
  json_Unmarshal s :=
    if String.eqb s "" then Err "unexpected end of JSON input" else Ok s;
  json_MarshalIndent v _ _ := Ok v;
|}.

(** The inputs of the examples are ASCII, the Unicode tables are not
  reached. *)
Global Instance sim_unicode : GoStrings.UnicodeTables := {|
  GoStrings.TrimFunc_IsSpace s := s;
  GoStrings.TrimRightFunc_IsSpace s := s;
  GoStrings.Map_ToLower s := s;
|}.

(** A double quote. *)
Definition dq : string := String (ascii_of_nat 34) "".

(** A trust policy that names the source environment. *)
Definition trust_dev : string :=
  "{" +:+ dq +:+ "Principal" +:+ dq +:+ ":" +:+ dq +:+
  "arn:aws:iam::111111111111:role/dev_runner" +:+ dq +:+ "}".

(** The source account holds one application role; its second managed
  policy is the account's own, which no other account has. *)
Definition app_role : SimRole :=
  {| sim_trust := trust_dev;
     sim_description := Some "application role";
     sim_managed := ["arn:aws:iam::aws:policy/ReadOnlyAccess";
                     "arn:aws:iam::111111111111:policy/dev_custom"];
     sim_inline := {[ "dev_inline" := "{dev_bucket}" ]};
     sim_tags := {[ "Environment" := "dev"; "Team" := "dev_platform" ]} |}.

(** Before any clone: the destination account is empty. *)
Definition world_fresh : SimWorld :=
  {| sim_accounts := {[ "dev" := {[ "dev_app_role" := app_role ]}; "prod" := ∅ ]};
     sim_denied := [] |}.

(** After an earlier clone: the destination account holds the roles
  already, one of them of a source role that is gone since. *)
Definition world_cloned : SimWorld :=
  {| sim_accounts :=
       {[ "dev" := {[ "dev_app_role" := app_role ]};
          "prod" := {[ "prod_app_role" := app_role; "prod_old_role" := app_role ]} ]};
     sim_denied := [] |}.

(** The same, with the destination profile not allowed to read. *)
Definition world_denied : SimWorld :=
  {| sim_accounts := sim_accounts world_cloned; sim_denied := ["prod"] |}.

Definition dev : Awsclient.Client := {| Awsclient.profile := "dev" |}.
Definition prod : Awsclient.Client := {| Awsclient.profile := "prod" |}.

Definition config (dryRun verbose : bool) (destPattern : string) (roles : list string)
    : Cmd.CloneConfig :=
  {| Cmd.SourceProfile := "dev"; Cmd.DestProfile := "prod";
     Cmd.SourcePattern := "dev_"; Cmd.DestPattern := destPattern;
     Cmd.Roles := roles; Cmd.Verbose := verbose; Cmd.DryRun := dryRun;
     Cmd.LogFile := "clone.log" |}.

Definition logger (verbose : bool) : Logger.Logger :=
  {| Logger.verbose := verbose; Logger.logFile := Some "clone.log" |}.

Definition state (e : SimWorld) (input : string) : State SimWorld :=
  {| ext := e; stdin := input |}.

(** What the user types in the wizard when the profiles and the patterns
  come from the flags: the first discovered role, then [y]. *)
Definition answers : string := "1" +:+ nl +:+ "y" +:+ nl.

Definition build : CmdVersion.BuildInfo :=
  {| CmdVersion.Version := "1.0.0"; CmdVersion.GitCommit := "dev";
     CmdVersion.BuildDate := "unknown"; CmdVersion.GoVersion := "go1.21";
     CmdVersion.Platform := "linux/amd64" |}.

(** The same service on a day on which it refuses to list tags: every
  other request is answered as before. *)
Definition sim_throttled : External SimWorld :=
  {| os_OpenFile := os_OpenFile (External := sim_external);
     time_Now_Format := time_Now_Format (External := sim_external);
     config_LoadDefaultConfig := config_LoadDefaultConfig (External := sim_external);
     sts_GetCallerIdentity := sts_GetCallerIdentity (External := sim_external);
     iam_ListRoles := iam_ListRoles (External := sim_external);
     iam_GetRole := iam_GetRole (External := sim_external);
     iam_ListAttachedRolePolicies :=
       iam_ListAttachedRolePolicies (External := sim_external);
     iam_ListRolePolicies := iam_ListRolePolicies (External := sim_external);
     iam_GetRolePolicy := iam_GetRolePolicy (External := sim_external);
     iam_ListRoleTags p name e := (Err "Throttling: Rate exceeded", e);
     iam_CreateRole := iam_CreateRole (External := sim_external);
     iam_AttachRolePolicy := iam_AttachRolePolicy (External := sim_external);
     iam_PutRolePolicy := iam_PutRolePolicy (External := sim_external);
     iam_TagRole := iam_TagRole (External := sim_external);
     map_range A := map_range (External := sim_external);
     map_range_perm := map_range_perm (External := sim_external) |}.

End Sim.

(** * Properties *)

(** ** Byte strings *)

Module GoStringFacts.
Import GoString GoStrings.

Lemma app_nil_l (s : string) : "" +:+ s = s.
Proof. reflexivity. Qed.

Lemma app_cons (c : ascii) (s t : string) : String c s +:+ t = String c (s +:+ t).
Proof. reflexivity. Qed.

Lemma app_nil_r (s : string) : s +:+ "" = s.
Proof. induction s as [|c s IH]; [done|]. by rewrite app_cons, IH. Qed.

Lemma app_assoc (s t u : string) : (s +:+ t) +:+ u = s +:+ t +:+ u.
Proof. induction s as [|c s IH]; [done|]. by rewrite !app_cons, IH. Qed.

Lemma length_app (s t : string) :
  String.length (s +:+ t) = String.length s + String.length t.
Proof. induction s as [|c s IH]; [done|]. rewrite app_cons. simpl. by rewrite IH. Qed.

Lemma length_zero (s : string) : String.length s = 0 → s = "".
Proof. by destruct s. Qed.

Lemma slice_to_0 (s : string) : slice_to s 0 = "".
Proof. by destruct s. Qed.

Lemma slice_from_0 (s : string) : slice_from s 0 = s.
Proof. by destruct s. Qed.

Lemma slice_to_from (s : string) (n : nat) : slice_to s n +:+ slice_from s n = s.
Proof.
  revert n. induction s as [|c s IH]; intros [|n]; simpl; try done.
  by rewrite app_cons, IH.
Qed.

Lemma slice_to_app (p r : string) : slice_to (p +:+ r) (String.length p) = p.
Proof.
  induction p as [|c p IH]; [apply slice_to_0|].
  rewrite app_cons. simpl. by rewrite IH.
Qed.

Lemma slice_from_app (p r : string) : slice_from (p +:+ r) (String.length p) = r.
Proof.
  induction p as [|c p IH]; [apply slice_from_0|].
  rewrite app_cons. simpl. by rewrite IH.
Qed.

Lemma slice_from_add (s : string) (a b : nat) :
  slice_from s (a + b) = slice_from (slice_from s a) b.
Proof.
  revert s. induction a as [|a IH]; intros s.
  - by rewrite slice_from_0.
  - destruct s as [|c s]; simpl; [by destruct b|]. apply IH.
Qed.

Lemma length_slice_from (s : string) (n : nat) :
  String.length (slice_from s n) = String.length s - n.
Proof.
  revert n. induction s as [|c s IH]; intros [|n]; simpl; done.
Qed.

Lemma length_slice_to (s : string) (n : nat) :
  String.length (slice_to s n) = n `min` String.length s.
Proof.
  revert n. induction s as [|c s IH]; intros [|n]; simpl; try done. by rewrite IH.
Qed.

Lemma occurs_app (c : ascii) (s t : string) :
  occurs c (s +:+ t) = occurs c s || occurs c t.
Proof.
  induction s as [|d s IH]; [done|].
  rewrite app_cons. simpl. rewrite IH. by destruct (Ascii.eqb c d).
Qed.

Lemma occurs_slice_from (c : ascii) (s : string) (n : nat) :
  occurs c s = false → occurs c (slice_from s n) = false.
Proof.
  intros Hs. rewrite <- (slice_to_from s n), occurs_app in Hs.
  by apply orb_false_elim in Hs as [_ ?].
Qed.

Lemma occurs_slice_to (c : ascii) (s : string) (n : nat) :
  occurs c s = false → occurs c (slice_to s n) = false.
Proof.
  intros Hs. rewrite <- (slice_to_from s n), occurs_app in Hs.
  by apply orb_false_elim in Hs as [? _].
Qed.

(** [HasPrefix] holds exactly of the strings that start with the prefix. *)
Lemma HasPrefix_app (p r : string) : HasPrefix (p +:+ r) p = true.
Proof.
  induction p as [|c p IH]; [done|].
  rewrite app_cons. simpl. by rewrite Ascii.eqb_refl, IH.
Qed.

Lemma HasPrefix_inv (s p : string) :
  HasPrefix s p = true → s = p +:+ slice_from s (String.length p).
Proof.
  revert s. induction p as [|c p IH]; intros s Hp.
  - by rewrite slice_from_0.
  - destruct s as [|d s]; simpl in Hp; [done|].
    apply andb_true_iff in Hp as [Hc Hp]. apply Ascii.eqb_eq in Hc as ->.
    rewrite app_cons. simpl. f_equal. by apply IH.
Qed.

Lemma HasPrefix_length (s p : string) :
  HasPrefix s p = true → String.length p ≤ String.length s.
Proof.
  intros Hp. rewrite (HasPrefix_inv _ _ Hp), length_app. lia.
Qed.

(** [Index] finds an occurrence: the string splits around it. *)
Lemma Index_Some (s substr : string) (i : nat) :
  Index s substr = Some i →
  s = slice_to s i +:+ substr +:+ slice_from s (i + String.length substr).
Proof.
  revert i. induction s as [|c s IH]; intros i; simpl.
  - destruct (HasPrefix "" substr) eqn:Hp; [|done].
    intros [= <-]. simpl. by apply HasPrefix_inv.
  - destruct (HasPrefix (String c s) substr) eqn:Hp.
    + intros [= <-]. simpl. by apply HasPrefix_inv.
    + destruct (Index s substr) as [j|] eqn:Hj; [|done].
      intros [= <-]. simpl. rewrite app_cons. f_equal. by apply IH.
Qed.

Lemma Index_Some_length (s substr : string) (i : nat) :
  Index s substr = Some i → i + String.length substr ≤ String.length s.
Proof.
  revert i. induction s as [|c s IH]; intros i; simpl.
  - destruct (HasPrefix "" substr) eqn:Hp; [|done].
    intros [= <-]. by apply HasPrefix_length in Hp.
  - destruct (HasPrefix (String c s) substr) eqn:Hp.
    + intros [= <-]. by apply HasPrefix_length in Hp.
    + destruct (Index s substr) as [j|] eqn:Hj; [|done].
      intros [= <-]. specialize (IH j eq_refl). lia.
Qed.

(** After an occurrence of a non-empty string less is left. *)
Lemma Index_Some_shorter (s substr : string) (i : nat) :
  substr ≠ "" → Index s substr = Some i →
  String.length (slice_from s (i + String.length substr)) < String.length s.
Proof.
  intros Hne Hi. apply Index_Some_length in Hi. rewrite length_slice_from.
  destruct substr; [done|]. simpl in *. lia.
Qed.

(** A string in which the first byte of [substr] does not occur has no
  occurrence of [substr]. *)
Lemma Index_fresh_None (s : string) (c : ascii) (d : string) :
  occurs c s = false → Index s (String c d) = None.
Proof.
  induction s as [|a s IH]; [done|]. simpl.
  intros [Hca Hs]%orb_false_elim. rewrite Hca. simpl. by rewrite IH.
Qed.

(** Behind a prefix in which the first byte of [substr] does not occur,
  the first occurrence of [substr] is where the prefix ends. *)
Lemma Index_fresh_app (p r : string) (c : ascii) (d : string) :
  occurs c p = false →
  Index (p +:+ String c d +:+ r) (String c d) = Some (String.length p).
Proof.
  induction p as [|a p IH]; intros Hp.
  - rewrite app_nil_l. change (Index ?s ?t) with
      (if HasPrefix s t then Some 0 else
       match s with "" => None | String _ s' => S <$> Index s' t end).
    by rewrite HasPrefix_app.
  - simpl in Hp. apply orb_false_elim in Hp as [Hca Hp].
    rewrite app_cons. simpl. rewrite Hca. simpl. by rewrite IH.
Qed.

Lemma eqb_neq (s t : string) : s ≠ t → String.eqb s t = false.
Proof. by intros ?%String.eqb_neq. Qed.

(** More rounds than bytes do not change [countLoop]. *)
Lemma countLoop_fuel (substr : string) (n m : nat) (s : string) :
  substr ≠ "" → String.length s ≤ n → String.length s ≤ m →
  countLoop n s substr = countLoop m s substr.
Proof.
  intros Hne. revert m s. induction n as [|n IH]; intros m s Hn Hm.
  - apply Nat.le_0_r, length_zero in Hn as ->.
    destruct m; [done|]. simpl.
    destruct substr; [done|]. reflexivity.
  - destruct m as [|m].
    + apply Nat.le_0_r, length_zero in Hm as ->. simpl.
      destruct substr; [done|]. reflexivity.
    + simpl. destruct (Index s substr) as [i|] eqn:Hi; [|done].
      f_equal. pose proof (Index_Some_shorter _ _ _ Hne Hi).
      apply IH; lia.
Qed.

(** For a non-empty [old] the replacement loop does not look at the round
  number. *)
Lemma replaceLoop_round (n : nat) (b : bool) (s old new : string) :
  old ≠ "" → replaceLoop n b s old new = replaceLoop n false s old new.
Proof.
  intros Hne. destruct n; [done|]. simpl. by rewrite (eqb_neq _ _ Hne).
Qed.

Lemma countLoop_S (n : nat) (s substr : string) :
  countLoop (S n) s substr =
  match Index s substr with
  | None => 0
  | Some i => S (countLoop n (slice_from s (i + String.length substr)) substr)
  end.
Proof. reflexivity. Qed.

Lemma replaceLoop_S (n : nat) (b : bool) (s old new : string) :
  old ≠ "" →
  replaceLoop (S n) b s old new =
  match Index s old with
  | Some j =>
    slice_to s j +:+ new +:+
    replaceLoop n false (slice_from s (j + String.length old)) old new
  | None => s
  end.
Proof. intros Hne. simpl. by rewrite (eqb_neq _ _ Hne). Qed.

(** [ReplaceAll] with a non-empty [old], one occurrence at a time: the
  text before the first occurrence, [new], and the rest replaced. *)
Lemma ReplaceAll_unfold (s old new : string) :
  old ≠ "" → old ≠ new →
  ReplaceAll s old new =
  match Index s old with
  | None => s
  | Some j =>
    slice_to s j +:+ new +:+
    ReplaceAll (slice_from s (j + String.length old)) old new
  end.
Proof.
  intros Hne Hon. unfold ReplaceAll, Count.
  rewrite (eqb_neq _ _ Hon), (eqb_neq _ _ Hne).
  destruct (Index s old) as [j|] eqn:Hj.
  - pose proof (Index_Some_shorter _ _ _ Hne Hj) as Hlt.
    remember (slice_from s (j + String.length old)) as rest eqn:Hrest.
    destruct (String.length s) as [|n] eqn:Hlen; [lia|].
    rewrite countLoop_S, Hj, <- Hrest, replaceLoop_S, Hj, <- Hrest by done.
    do 2 f_equal.
    rewrite (countLoop_fuel old n (String.length rest)) by (done || lia).
    destruct (countLoop (String.length rest) rest old) as [|m]; [done|].
    symmetry. by apply replaceLoop_round.
  - destruct (String.length s) as [|n]; [done|]. by rewrite countLoop_S, Hj.
Qed.

Lemma ReplaceAll_absent (s old new : string) :
  old ≠ "" → Index s old = None → ReplaceAll s old new = s.
Proof.
  intros Hne Hi. destruct (decide (old = new)) as [->|Hon].
  - unfold ReplaceAll. by rewrite String.eqb_refl.
  - by rewrite ReplaceAll_unfold, Hi.
Qed.

End GoStringFacts.

(** ** The pattern engine *)

Module PatternFacts.
Import GoString GoStrings GoStringFacts Awsclient.

(** The width of the first rune of a non-empty string is at least one. *)
Lemma width_pos (s : string) : s ≠ "" → 1 ≤ GoUtf8.DecodeRuneInString_width s.
Proof.
  destruct s as [|c s]; [done|]. intros _.
  unfold GoUtf8.DecodeRuneInString_width.
  repeat case_match; lia.
Qed.

(** With an empty [old], the later rounds of the replacement loop put
  [new] behind every rune. *)
Lemma replaceLoop_empty_old (new : string) (fuel : nat) (s : string) :
  String.length s ≤ fuel →
  replaceLoop (length (GoUtf8.runes_fuel fuel s)) false s "" new =
  foldr (λ r acc, r +:+ new +:+ acc) "" (GoUtf8.runes_fuel fuel s).
Proof.
  revert s. induction fuel as [|fuel IH]; intros s Hlen.
  - apply Nat.le_0_r, length_zero in Hlen as ->. reflexivity.
  - destruct s as [|c s]; [reflexivity|].
    remember (String c s) as cs eqn:Hcs.
    assert (cs ≠ "") as Hne by (by subst).
    pose proof (width_pos cs Hne) as Hw.
    assert (GoUtf8.runes_fuel (S fuel) cs =
            slice_to cs (GoUtf8.DecodeRuneInString_width cs) ::
            GoUtf8.runes_fuel fuel
              (slice_from cs (GoUtf8.DecodeRuneInString_width cs))) as ->
      by (by subst).
    cbn [length foldr replaceLoop String.eqb]. rewrite Nat.add_0_r.
    rewrite IH; [done|]. rewrite length_slice_from. subst cs. simpl in *. lia.
Qed.

Lemma foldr_insert_shift (new : string) (rs : list string) :
  new +:+ foldr (λ r acc, r +:+ new +:+ acc) "" rs =
  foldr (λ r acc, new +:+ r +:+ acc) new rs.
Proof.
  induction rs as [|r rs IH]; simpl; [apply app_nil_r|].
  by rewrite <- IH.
Qed.

(** [ReplaceAll] with an empty [old] and a non-empty [new]: [new] in front
  of every rune and at the end. *)
Lemma ReplaceAll_empty_old (s new : string) :
  new ≠ "" →
  ReplaceAll s "" new = foldr (λ r acc, new +:+ r +:+ acc) new (GoUtf8.runes s).
Proof.
  intros Hne. unfold ReplaceAll, Count, GoUtf8.RuneCountInString.
  assert (String.eqb "" new = false) as -> by (by destruct new).
  cbn [String.eqb]. rewrite Nat.add_1_r.
  cbn [replaceLoop String.eqb String.length]. rewrite slice_to_0, slice_from_0, app_nil_l.
  unfold GoUtf8.runes. rewrite replaceLoop_empty_old by done.
  apply foldr_insert_shift.
Qed.

(** The runes of a string, put together again, are the string. *)
Lemma runes_fuel_join (fuel : nat) (s : string) :
  String.length s ≤ fuel →
  foldr String.append "" (GoUtf8.runes_fuel fuel s) = s.
Proof.
  revert s. induction fuel as [|fuel IH]; intros s Hlen.
  - apply Nat.le_0_r, length_zero in Hlen as ->. reflexivity.
  - destruct s as [|c s]; [reflexivity|].
    remember (String c s) as cs eqn:Hcs.
    assert (cs ≠ "") as Hne by (by subst).
    pose proof (width_pos cs Hne) as Hw.
    assert (GoUtf8.runes_fuel (S fuel) cs =
            slice_to cs (GoUtf8.DecodeRuneInString_width cs) ::
            GoUtf8.runes_fuel fuel
              (slice_from cs (GoUtf8.DecodeRuneInString_width cs))) as ->
      by (by subst).
    cbn [foldr]. rewrite IH; [apply slice_to_from|].
    rewrite length_slice_from. subst cs. simpl in *. lia.
Qed.

Lemma length_inserted (new : string) (rs : list string) :
  String.length (foldr (λ r acc, new +:+ r +:+ acc) new rs) =
  String.length (foldr String.append "" rs) + S (length rs) * String.length new.
Proof.
  induction rs as [|r rs IH]; cbn [foldr length].
  - simpl. lia.
  - rewrite !length_app, IH. lia.
Qed.

(** The runes of an ASCII string are its bytes. *)
Lemma runes_fuel_ascii (fuel : nat) (s : string) :
  String.length s ≤ fuel → all_bytes isASCII s = true →
  GoUtf8.runes_fuel fuel s = (λ c, String c "") <$> list_ascii_of_string s.
Proof.
  revert s. induction fuel as [|fuel IH]; intros s Hlen Hascii.
  - apply Nat.le_0_r, length_zero in Hlen as ->. reflexivity.
  - destruct s as [|c s]; [reflexivity|].
    simpl in Hascii. apply andb_true_iff in Hascii as [Hc Hs].
    assert (GoUtf8.DecodeRuneInString_width (String c s) = 1) as Hw.
    { unfold GoUtf8.DecodeRuneInString_width, GoUtf8.first.
      unfold isASCII, GoUtf8.RuneSelf in Hc. by rewrite Hc. }
    cbn [GoUtf8.runes_fuel]. rewrite Hw. cbn [slice_to slice_from].
    cbn [list_ascii_of_string fmap list_fmap].
    f_equal. apply IH; [simpl in Hlen; lia | done].
Qed.

(** What [strings.ReplaceAll] with an empty [old] does to a name or a
  document, as both pattern functions call it. *)
Lemma GenerateNewRoleName_empty_source (s dst : string) :
  dst ≠ "" →
  GenerateNewRoleName s "" dst =
    foldr (λ r acc, dst +:+ r +:+ acc) dst (GoUtf8.runes s) ∧
  GenerateNewRoleName s "" dst ≠ s.
Proof.
  intros Hne. unfold GenerateNewRoleName. rewrite ReplaceAll_empty_old by done.
  split; [done|]. intros Heq.
  apply (f_equal String.length) in Heq. rewrite length_inserted in Heq.
  unfold GoUtf8.runes in Heq. rewrite runes_fuel_join in Heq by done.
  destruct dst; [done|]. simpl in Heq. lia.
Qed.

(** One round trip through a destination pattern whose first byte is not
  in the text: the occurrences put in are the ones taken out. *)
Lemma roundtrip_fresh_head (src : string) (c : ascii) (d : string) (n : nat) :
  src ≠ "" →
  ∀ s, String.length s ≤ n → occurs c s = false →
    ReplaceAll (ReplaceAll s src (String c d)) (String c d) src = s.
Proof.
  intros Hsrc. induction n as [|n IH]; intros s Hlen Hs.
  - apply Nat.le_0_r, length_zero in Hlen as ->.
    destruct (decide (src = String c d)) as [->|Hne].
    + unfold ReplaceAll. by rewrite String.eqb_refl.
    + rewrite (ReplaceAll_absent "" src) by (done || by destruct src).
      by apply ReplaceAll_absent, Index_fresh_None.
  - destruct (decide (src = String c d)) as [->|Hne].
    { unfold ReplaceAll. by rewrite String.eqb_refl. }
    rewrite (ReplaceAll_unfold s src) by done.
    destruct (Index s src) as [j|] eqn:Hj.
    + pose proof (Index_Some_shorter _ _ _ Hsrc Hj) as Hlt.
      pose proof (Index_Some _ _ _ Hj) as Hsplit.
      set (p := slice_to s j) in *.
      set (r := slice_from s (j + String.length src)) in *.
      assert (occurs c p = false) as Hp by (by apply occurs_slice_to).
      assert (occurs c r = false) as Hr by (by apply occurs_slice_from).
      rewrite (ReplaceAll_unfold _ (String c d)) by (done || congruence).
      rewrite Index_fresh_app by done.
      rewrite slice_to_app.
      rewrite slice_from_add, !slice_from_app.
      rewrite IH by (done || lia). by rewrite <- Hsplit.
    + by apply ReplaceAll_absent, Index_fresh_None.
Qed.

(** C5 (amended). Whether the destination pattern contains the source
  pattern does not decide the round trip: the replacement of [src] by
  [dst] followed by the replacement of [dst] by [src] gives the text back
  whenever [dst] is not empty and its first byte does not occur in the
  text ([src] not empty), for a name as for a document. *)
Theorem roundtrip_fresh_destination (text src dst : string) (c : ascii) (d : string) :
  src ≠ "" → dst = String c d → occurs c text = false →
  ReplacePatternInJSON (ReplacePatternInJSON text src dst) dst src = text ∧
  GenerateNewRoleName (GenerateNewRoleName text src dst) dst src = text.
Proof.
  intros Hsrc -> Hfresh. unfold ReplacePatternInJSON, GenerateNewRoleName.
  by rewrite (roundtrip_fresh_head src c d (String.length text)).
Qed.

End PatternFacts.

(** ** Running computations *)

Create HintDb run discriminated.

#[export] Hint Unfold
  Logger.Info Logger.Success Logger.Warning Logger.Error Logger.Debug
  Logger.Progress Logger.Header Logger.Separator Logger.Close
  Logger.writeToFile Cmd.Print record request : run.

Section run.
Context {E : Type}.

Lemma run_ret {A} (a : A) (s : State E) : (mret a : M E A) s = (a, s, []).
Proof. reflexivity. Qed.

Lemma run_bind {A B} (m : M E A) (f : A → M E B) (s : State E) a s1 t1 :
  m s = (a, s1, t1) →
  (m ≫= f) s = (value (f a s1), final (f a s1), t1 ++ trace (f a s1)).
Proof.
  intros Hm. unfold mbind, M_bind. rewrite Hm.
  by destruct (f a s1) as [[b s2] t2].
Qed.

Lemma run_eta {A} (r : A * State E * list Event) : r = (value r, final r, trace r).
Proof. by destruct r as [[a s] t]. Qed.

Lemma value_bind {A B} (m : M E A) (f : A → M E B) (s : State E) :
  value ((m ≫= f) s) = value (f (value (m s)) (final (m s))).
Proof. by rewrite (run_bind m f s _ _ _ (run_eta _)). Qed.

Lemma final_bind {A B} (m : M E A) (f : A → M E B) (s : State E) :
  final ((m ≫= f) s) = final (f (value (m s)) (final (m s))).
Proof. by rewrite (run_bind m f s _ _ _ (run_eta _)). Qed.

Lemma trace_bind {A B} (m : M E A) (f : A → M E B) (s : State E) :
  trace ((m ≫= f) s) = trace (m s) ++ trace (f (value (m s)) (final (m s))).
Proof. by rewrite (run_bind m f s _ _ _ (run_eta _)). Qed.

Lemma post_ret {A} (a : A) (Q : A → list Event → Prop) :
  Q a [] → post (mret a : M E A) Q.
Proof. by intros HQ s. Qed.

Lemma post_bind {A B} (m : M E A) (f : A → M E B)
    (Q1 : A → list Event → Prop) (Q : B → list Event → Prop) :
  post m Q1 →
  (∀ a t1, Q1 a t1 → post (f a) (λ b t2, Q b (t1 ++ t2))) →
  post (m ≫= f) Q.
Proof.
  intros Hm Hf s. rewrite value_bind, trace_bind. by apply Hf, Hm.
Qed.

Lemma post_mono {A} (m : M E A) (Q Q' : A → list Event → Prop) :
  post m Q → (∀ a t, Q a t → Q' a t) → post m Q'.
Proof. intros Hm HQ s. apply HQ, Hm. Qed.

Lemma post_and {A} (m : M E A) (Q Q' : A → list Event → Prop) :
  post m Q → post m Q' → post m (λ a t, Q a t ∧ Q' a t).
Proof. intros Hm Hm' s. split; [apply Hm | apply Hm']. Qed.

Lemma post_emit (ev : Event) (Q : unit → list Event → Prop) :
  Q tt [ev] → post (emit ev : M E unit) Q.
Proof. by intros HQ s. Qed.

Lemma post_outside {A} (f : E → A * E) (Q : A → list Event → Prop) :
  (∀ a, Q a []) → post (outside f) Q.
Proof. intros HQ s. unfold outside. destruct (f (ext s)). apply HQ. Qed.

Lemma post_request {A} (p : string) (req : Request) (f : E → A * E)
    (err : A → error) (Q : A → list Event → Prop) :
  (∀ a, Q a [Called (Build_Call p req (err a))]) → post (request p req f err) Q.
Proof.
  intros HQ s. unfold request, record, outside, emit, mbind, M_bind, mret, M_ret.
  destruct (f (ext s)) as [a e]. apply HQ.
Qed.

Lemma post_ReadString_nl (Q : string → list Event → Prop) :
  (∀ a, Q a []) → post (ReadString_nl : M E string) Q.
Proof. intros HQ s. apply HQ. Qed.

Lemma post_stdin_left (Q : nat → list Event → Prop) :
  (∀ a, Q a []) → post (Cmd.stdin_left : M E nat) Q.
Proof. intros HQ s. apply HQ. Qed.

Lemma always_mono {A} (m : M E A) (P P' : Event → Prop) :
  always P m → (∀ ev, P ev → P' ev) → always P' m.
Proof.
  intros Hm HP. eapply post_mono; [exact Hm|].
  intros a t Ht. simpl in *. eapply Forall_impl; [exact Ht | exact HP].
Qed.

Lemma always_ret {A} (a : A) (P : Event → Prop) : always P (mret a : M E A).
Proof. apply post_ret. constructor. Qed.

Lemma always_bind {A B} (m : M E A) (f : A → M E B) (P : Event → Prop) :
  always P m → (∀ a, always P (f a)) → always P (m ≫= f).
Proof.
  intros Hm Hf. eapply post_bind; [exact Hm|].
  intros a t1 Ht1. eapply post_mono; [apply Hf|].
  intros b t2 Ht2. simpl in *. by apply Forall_app.
Qed.

Lemma always_emit (ev : Event) (P : Event → Prop) :
  P ev → always P (emit ev : M E unit).
Proof. intros HP. apply post_emit. by repeat constructor. Qed.

Lemma always_outside {A} (f : E → A * E) (P : Event → Prop) : always P (outside f).
Proof. apply post_outside. constructor. Qed.

Lemma always_request {A} (p : string) (req : Request) (f : E → A * E)
    (err : A → error) (P : Event → Prop) :
  (∀ e, P (Called (Build_Call p req e))) → always P (request p req f err).
Proof. intros HP. apply post_request. intros a. by repeat constructor. Qed.

Lemma always_ReadString_nl (P : Event → Prop) : always P (ReadString_nl : M E string).
Proof. apply post_ReadString_nl. constructor. Qed.

Lemma always_stdin_left (P : Event → Prop) : always P (Cmd.stdin_left : M E nat).
Proof. apply post_stdin_left. constructor. Qed.

Lemma always_forEach {A} (xs : list A) (body : A → M E unit) (P : Event → Prop) :
  (∀ x, x ∈ xs → always P (body x)) → always P (forEach xs body).
Proof.
  induction xs as [|x xs IH]; intros Hbody; simpl.
  - apply always_ret.
  - apply always_bind; [apply Hbody; left|].
    intros _. apply IH. intros y Hy. apply Hbody. by right.
Qed.

Lemma always_forEachIndexed {A} (i0 : nat) (xs : list A)
    (body : nat → A → M E unit) (P : Event → Prop) :
  (∀ i x, always P (body i x)) → always P (Cmd.forEachIndexed i0 xs body).
Proof.
  intros Hbody. revert i0. induction xs as [|x xs IH]; intros i0; simpl.
  - apply always_ret.
  - apply always_bind; [apply Hbody|]. intros _. apply IH.
Qed.

Lemma post_at_bind {A B} (s : State E) (m : M E A) (f : A → M E B)
    (Q1 : A → list Event → Prop) (Q : B → list Event → Prop) :
  post_at s m Q1 →
  (∀ a t1, Q1 a t1 → post_at (final (m s)) (f a) (λ b t2, Q b (t1 ++ t2))) →
  post_at s (m ≫= f) Q.
Proof.
  unfold post_at. intros Hm Hf. rewrite value_bind, trace_bind. by apply Hf.
Qed.

Lemma post_at_mono {A} (s : State E) (m : M E A) (Q Q' : A → list Event → Prop) :
  post_at s m Q → (∀ a t, Q a t → Q' a t) → post_at s m Q'.
Proof. unfold post_at. intros Hm HQ. by apply HQ. Qed.

Lemma post_post_at {A} (s : State E) (m : M E A) (Q : A → list Event → Prop) :
  post m Q → post_at s m Q.
Proof. intros Hm. apply Hm. Qed.

Lemma value_triple {A} (a : A) (s : State E) (t : list Event) : value (a, s, t) = a.
Proof. reflexivity. Qed.

Lemma final_triple {A} (a : A) (s : State E) (t : list Event) : final (a, s, t) = s.
Proof. reflexivity. Qed.

Lemma trace_triple {A} (a : A) (s : State E) (t : list Event) : trace (a, s, t) = t.
Proof. reflexivity. Qed.

Lemma emit_run (ev : Event) (s : State E) : emit ev s = (tt, s, [ev]).
Proof. reflexivity. Qed.

Section logger_runs.
Context `{External E}.

Lemma writeToFile_run l level msg (s : State E) :
  Logger.writeToFile l level msg s =
  (tt, s, match Logger.logFile l with Some _ => [LogLine level msg] | None => [] end).
Proof. unfold Logger.writeToFile. by destruct (Logger.logFile l). Qed.

Lemma Info_run l msg (s : State E) :
  Logger.Info l msg s = (tt, s, log_events l INFO msg).
Proof.
  unfold Logger.Info. by rewrite (run_bind _ _ _ _ _ _ (emit_run _ _)), writeToFile_run.
Qed.

Lemma Success_run l msg (s : State E) :
  Logger.Success l msg s = (tt, s, log_events l SUCCESS msg).
Proof.
  unfold Logger.Success. by rewrite (run_bind _ _ _ _ _ _ (emit_run _ _)), writeToFile_run.
Qed.

Lemma Warning_run l msg (s : State E) :
  Logger.Warning l msg s = (tt, s, log_events l WARNING msg).
Proof.
  unfold Logger.Warning. by rewrite (run_bind _ _ _ _ _ _ (emit_run _ _)), writeToFile_run.
Qed.

Lemma Error_run l msg (s : State E) :
  Logger.Error l msg s = (tt, s, log_events l ERROR msg).
Proof.
  unfold Logger.Error. by rewrite (run_bind _ _ _ _ _ _ (emit_run _ _)), writeToFile_run.
Qed.

Lemma Debug_run l msg (s : State E) :
  Logger.Debug l msg s =
  (tt, s, if Logger.verbose l then log_events l DEBUG msg else []).
Proof.
  unfold Logger.Debug. destruct (Logger.verbose l); [|done]. simpl.
  by rewrite (run_bind _ _ _ _ _ _ (emit_run _ _)), writeToFile_run.
Qed.

Lemma Progress_run l step total msg (s : State E) :
  Logger.Progress l step total msg s =
  (tt, s, log_events l PROGRESS
            ("[" +:+ pretty step +:+ "/" +:+ pretty total +:+ "] " +:+ msg)).
Proof.
  unfold Logger.Progress. by rewrite (run_bind _ _ _ _ _ _ (emit_run _ _)), writeToFile_run.
Qed.

Lemma Separator_run l (s : State E) :
  Logger.Separator l s = (tt, s, [Stdout ("--------------------------------" +:+ nl)]).
Proof. reflexivity. Qed.

Lemma Header_run l title (s : State E) :
  Logger.Header l title s =
  (tt, s,
   [Stdout nl; Stdout ("================================" +:+ nl);
    Stdout (title +:+ nl); Stdout ("================================" +:+ nl)] ++
   match Logger.logFile l with Some _ => [LogLine HEADER title] | None => [] end).
Proof.
  unfold Logger.Header.
  rewrite !(run_bind _ _ _ _ _ _ (emit_run _ _)), writeToFile_run. reflexivity.
Qed.

Lemma Close_run l (s : State E) : Logger.Close l s = (tt, s, close_events l).
Proof. unfold Logger.Close, close_events. by destruct (Logger.logFile l). Qed.

Lemma Print_run text (s : State E) : Cmd.Print text s = (tt, s, [Stdout text]).
Proof. reflexivity. Qed.

End logger_runs.

End run.

Create Rewrite HintDb run_eq.

#[export] Hint Rewrite
  @value_bind @final_bind @trace_bind @run_ret
  @Info_run @Success_run @Warning_run @Error_run @Debug_run @Progress_run
  @Separator_run @Close_run @Print_run @Header_run
  @value_triple @final_triple @trace_triple : run_eq.

(** One step of a proof that all events of a computation satisfy a
  predicate: through the sequencing, the branches and the primitives. *)
Ltac always_step :=
  match goal with
  | |- always _ (mret _) => apply always_ret
  | |- always _ (mbind _ _) => apply always_bind; [|intros ?]
  | |- always _ (emit _) => apply always_emit; try done
  | |- always _ (outside _) => apply always_outside
  | |- always _ ReadString_nl => apply always_ReadString_nl
  | |- always _ Cmd.stdin_left => apply always_stdin_left
  | |- always _ (forEach _ _) => apply always_forEach; intros ? ?
  | |- always _ (Cmd.forEachIndexed _ _ _) => apply always_forEachIndexed; intros ? ?
  | |- always _ (match ?x with _ => _ end) => destruct x
  | |- always _ (let (_, _) := ?x in _) => destruct x
  end.

Ltac always_auto := repeat (autounfold with run; always_step).

(** ** The gateway *)

Module GatewayFacts.
Import Awsclient.

Section gateway.
Context {E : Type} `{External E} `{Encoding}.

Lemma always_after {A} (m : M E A) (P : Event → Prop) (t1 : list Event) :
  Forall P t1 → always P m → post m (λ _ t2, Forall P (t1 ++ t2)).
Proof.
  intros Ht1 Hm. eapply post_mono; [exact Hm|].
  intros a t2 Ht2. simpl in *. by apply Forall_app.
Qed.

(** Opening a client sends nothing, and the client keeps the profile. *)
Lemma NewClient_post (p : string) :
  post (NewClient p : M E _)
    (λ r t, Forall silent t ∧ ∀ c, r = Ok c → profile c = p).
Proof.
  unfold NewClient.
  apply (post_bind _ _ (λ _ t, t = [])); [by apply post_outside|].
  intros [e|] t1 ->; apply post_ret; (split; [by constructor|]).
  - by intros c.
  - by intros c [= <-].
Qed.

Lemma NewClient_silent (p : string) : always silent (NewClient p : M E _).
Proof.
  eapply post_mono; [apply NewClient_post|]. by intros a t [Ht _].
Qed.

Lemma managedPoliciesPages_reads (c : Client) (roleName : string) pages policies :
  always (request_of (profile c) (λ r, mutating r = false))
    (managedPoliciesPages c roleName pages policies : M E _).
Proof.
  revert policies. induction pages as [|page pages IH]; intros policies; simpl.
  - apply always_ret.
  - always_auto; done.
Qed.

Lemma inlinePoliciesLoop_reads (c : Client) (roleName : string) names policies :
  always (request_of (profile c) (λ r, mutating r = false))
    (inlinePoliciesLoop c roleName names policies : M E _).
Proof.
  revert policies. induction names as [|name names IH]; intros policies; simpl.
  - apply always_ret.
  - apply always_bind; [by apply always_request|].
    intros r. always_auto; done.
Qed.

Lemma listRolesPages_reads (c : Client) (prefix : string) pages allRoles :
  always (request_of (profile c) (λ r, mutating r = false)) (listRolesPages c prefix pages allRoles : M E _).
Proof.
  revert allRoles. induction pages as [|page pages IH]; intros allRoles; simpl.
  - apply always_ret.
  - always_auto; done.
Qed.

(** Listing roles only reads. *)
Lemma ListRoles_reads (c : Client) (prefix : string) :
  always (request_of (profile c) (λ r, mutating r = false)) (ListRoles c prefix : M E _).
Proof.
  unfold ListRoles. always_auto. apply listRolesPages_reads.
Qed.

(** The existence check only reads. *)
Lemma RoleExists_reads (c : Client) (roleName : string) :
  always (request_of (profile c) (λ r, mutating r = false)) (RoleExists c roleName : M E _).
Proof.
  unfold RoleExists. apply always_bind; [by apply always_request|].
  intros r. apply always_ret.
Qed.

Lemma ValidateCredentials_reads (c : Client) :
  always (request_of (profile c) (λ r, mutating r = false)) (ValidateCredentials c : M E _).
Proof. unfold ValidateCredentials. by apply always_request. Qed.

(** Fetching a role only reads. *)
Lemma GetRoleInfo_reads (c : Client) (roleName : string) :
  always (request_of (profile c) (λ r, mutating r = false)) (GetRoleInfo c roleName : M E _).
Proof.
  unfold GetRoleInfo, getManagedPolicies, getInlinePolicies, getRoleTags.
  apply always_bind; [by apply always_request|]. intros r.
  repeat first
    [ apply managedPoliciesPages_reads
    | apply inlinePoliciesLoop_reads
    | apply always_request; done
    | always_step ].
Qed.

Lemma request_of_reads_only (p : string) (ev : Event) :
  request_of p (λ r, mutating r = false) ev → reads_only p ev.
Proof. by destruct ev. Qed.

Lemma GetRoleInfo_reads_only (c : Client) (roleName : string) :
  always (reads_only (profile c)) (GetRoleInfo c roleName : M E _).
Proof.
  eapply always_mono; [apply GetRoleInfo_reads|]. apply request_of_reads_only.
Qed.

(** The four operations that change the account send one request each,
  the one they are named after; [TagRole] sends none for an empty map. *)
Lemma CreateRole_requests (c : Client) roleName trustPolicy description :
  always (request_of (profile c) (λ r, is_CreateRole r = true))
    (CreateRole c roleName trustPolicy description : M E _).
Proof.
  unfold CreateRole. apply always_bind; [by apply always_request|].
  intros e. always_auto.
Qed.

Lemma AttachManagedPolicy_requests (c : Client) roleName policyArn :
  always (request_of (profile c) (λ r, is_AttachRolePolicy r = true))
    (AttachManagedPolicy c roleName policyArn : M E _).
Proof.
  unfold AttachManagedPolicy. apply always_bind; [by apply always_request|].
  intros e. always_auto.
Qed.

Lemma CreateInlinePolicy_requests (c : Client) roleName policyName policyDocument :
  always (request_of (profile c) (λ r, is_PutRolePolicy r = true))
    (CreateInlinePolicy c roleName policyName policyDocument : M E _).
Proof.
  unfold CreateInlinePolicy. apply always_bind; [by apply always_request|].
  intros e. always_auto.
Qed.

Lemma TagRole_requests (c : Client) roleName tags :
  always (request_of (profile c) (λ r, is_TagRole r = true))
    (TagRole c roleName tags : M E _).
Proof.
  unfold TagRole. destruct (decide _); [apply always_ret|].
  apply always_bind; [apply always_outside|]. intros iamTags.
  apply always_bind; [by apply always_request|].
  intros e. always_auto.
Qed.

End gateway.

End GatewayFacts.

(** ** The clone command *)

Module CloneFacts.
Import Awsclient Cmd GatewayFacts.

Lemma silent_reads_only (p : string) (ev : Event) : silent ev → reads_only p ev.
Proof. by destruct ev. Qed.

Lemma calls_of_app (t1 t2 : list Event) :
  calls_of (t1 ++ t2) = calls_of t1 ++ calls_of t2.
Proof. apply omap_app. Qed.

Lemma elem_of_calls_of (c : Call) (t : list Event) : c ∈ calls_of t ↔ Called c ∈ t.
Proof.
  unfold calls_of. rewrite list_elem_of_omap. split.
  - intros ([] & Hev & Hc); simplify_eq. done.
  - intros Hc. exists (Called c). done.
Qed.

Lemma Forall_reads_only_calls (p : string) (t : list Event) :
  Forall (reads_only p) t →
  Forall (λ c, call_profile c = p ∧ mutating (call_request c) = false) (calls_of t).
Proof.
  rewrite !Forall_forall. intros Ht c Hc%elem_of_calls_of. apply (Ht _ Hc).
Qed.

(** *** The Environment tag *)

Lemma HasSuffix_snoc (p : string) (a b : ascii) :
  GoStrings.HasSuffix (p +:+ String a "") (String b "") = Ascii.eqb a b.
Proof.
  unfold GoStrings.HasSuffix. rewrite GoStringFacts.length_app.
  cbn [String.length]. rewrite Nat.add_1_r. cbn [Nat.leb Nat.sub].
  rewrite Nat.sub_0_r, GoStringFacts.slice_from_app. simpl.
  by destruct (Ascii.eqb a b).
Qed.

Lemma TrimSuffix_snoc (p : string) (a b : ascii) :
  GoStrings.TrimSuffix (p +:+ String a "") (String b "") =
  if Ascii.eqb a b then p else p +:+ String a "".
Proof.
  unfold GoStrings.TrimSuffix. rewrite HasSuffix_snoc.
  destruct (Ascii.eqb a b); [|done].
  rewrite GoStringFacts.length_app. cbn [String.length].
  rewrite Nat.add_1_r. cbn [Nat.sub]. rewrite Nat.sub_0_r.
  apply GoStringFacts.slice_to_app.
Qed.

Lemma TrimSuffix_absent (s suffix : string) :
  GoStrings.HasSuffix s suffix = false → GoStrings.TrimSuffix s suffix = s.
Proof. unfold GoStrings.TrimSuffix. by intros ->. Qed.

Lemma HasSuffix_cons (c x : ascii) (t : string) :
  t ≠ "" →
  GoStrings.HasSuffix (String c t) (String x "") = GoStrings.HasSuffix t (String x "").
Proof.
  destruct t as [|d t]; [done|]. intros _. unfold GoStrings.HasSuffix.
  cbn [String.length Nat.sub Nat.leb]. rewrite !Nat.sub_0_r. reflexivity.
Qed.

(** What the specification's stripping leaves ends in no separator. *)
Lemma spec_strip_no_separator (s : string) :
  endsInSeparator (spec_stripTrailingSeparators s) = false.
Proof.
  assert (∀ x, isSeparator x = true →
               GoStrings.HasSuffix (spec_stripTrailingSeparators s) (String x "") = false)
    as Hx.
  { intros x Hsep. induction s as [|c s IH]; [done|]. simpl.
    destruct (String.eqb_spec (spec_stripTrailingSeparators s) "") as [Ht|Ht].
    - rewrite Ht. simpl. destruct (isSeparator c) eqn:Hc; [done|].
      unfold GoStrings.HasSuffix. simpl.
      destruct (Ascii.eqb_spec c x) as [->|]; [congruence|done].
    - simpl. by rewrite HasSuffix_cons. }
  unfold endsInSeparator. by rewrite !Hx.
Qed.

(** The specification's stripping takes separators off the end only. *)
Lemma spec_strip_tail (s : string) :
  ∃ tail, s = spec_stripTrailingSeparators s +:+ tail ∧
          GoString.all_bytes isSeparator tail = true.
Proof.
  induction s as [|c s (tail & Hs & Htail)]; [by exists ""|]. simpl.
  destruct (String.eqb_spec (spec_stripTrailingSeparators s) "") as [Ht|Ht].
  - rewrite Ht in Hs. rewrite GoStringFacts.app_nil_l in Hs. subst tail.
    destruct (isSeparator c) eqn:Hc; simpl.
    + exists (String c s). split; [done|]. simpl. by rewrite Hc.
    + exists s. split; [|done]. by rewrite Ht.
  - simpl. exists tail. split; [|done].
    rewrite GoStringFacts.app_cons. by rewrite <- Hs.
Qed.

(** On a destination pattern that ends in at most one separator the code
  agrees with the specification's wording, and its value ends in none. *)
Lemma envValue_one_separator (destPattern : string) :
  String.length destPattern ≤ S (String.length (spec_stripTrailingSeparators destPattern)) →
  envValue destPattern = spec_stripTrailingSeparators destPattern ∧
  endsInSeparator (envValue destPattern) = false.
Proof.
  intros Hlen.
  assert (envValue destPattern = spec_stripTrailingSeparators destPattern) as Heq.
  2:{ split; [done|]. rewrite Heq. apply spec_strip_no_separator. }
  destruct (spec_strip_tail destPattern) as (tail & Hsplit & Htail).
  pose proof (spec_strip_no_separator destPattern) as Hcore.
  set (core := spec_stripTrailingSeparators destPattern) in *.
  unfold endsInSeparator in Hcore.
  apply orb_false_elim in Hcore as [Hcore Hdot].
  apply orb_false_elim in Hcore as [Hunder Hdash].
  rewrite Hsplit, GoStringFacts.length_app in Hlen.
  unfold envValue. rewrite Hsplit.
  destruct tail as [|c [|c' tail]]; [| |simpl in Hlen; lia].
  - rewrite GoStringFacts.app_nil_r.
    by rewrite (TrimSuffix_absent core "_"), (TrimSuffix_absent core "-"),
         (TrimSuffix_absent core ".").
  - simpl in Htail. rewrite andb_true_r in Htail. unfold isSeparator in Htail.
    rewrite TrimSuffix_snoc.
    destruct (Ascii.eqb_spec c "_") as [->|Hc1].
    { by rewrite (TrimSuffix_absent core "-"), (TrimSuffix_absent core "."). }
    rewrite TrimSuffix_snoc.
    destruct (Ascii.eqb_spec c "-") as [->|Hc2].
    { by rewrite (TrimSuffix_absent core "."). }
    rewrite TrimSuffix_snoc.
    destruct (Ascii.eqb_spec c ".") as [->|Hc3]; [done|].
    simpl in Htail. done.
Qed.

Section clone.
Context {E : Type} `{External E} `{Encoding} `{GoStrings.UnicodeTables}.

(** The preview of a dry run sends nothing. *)
Lemma dryRunPreview_silent roleInfo config log :
  always silent (dryRunPreview roleInfo config log : M E unit).
Proof. unfold dryRunPreview. always_auto. Qed.

(** A single role in a dry run: only the source client is used, and only
  to read. *)
Lemma cloneSingleRole_dry sourceClient destClient sourceRole destRole config log :
  DryRun config = true →
  always (reads_only (profile sourceClient))
    (cloneSingleRole sourceClient destClient sourceRole destRole config log : M E _).
Proof.
  intros Hdry. unfold cloneSingleRole. rewrite Hdry.
  apply always_bind; [always_auto|]. intros _.
  apply always_bind; [apply GetRoleInfo_reads_only|]. intros [roleInfo|e].
  - apply always_bind; [always_auto|]. intros _.
    apply always_bind; [|intros _; apply always_ret].
    eapply always_mono; [apply dryRunPreview_silent|]. apply silent_reads_only.
  - apply always_ret.
Qed.

Lemma cloneLoop_dry sourceClient destClient config log i roles successCount :
  DryRun config = true →
  always (reads_only (profile sourceClient))
    (cloneLoop sourceClient destClient config log i roles successCount : M E _).
Proof.
  intros Hdry. revert i successCount.
  induction roles as [|role roles IH]; intros i successCount; simpl.
  - apply always_ret.
  - apply always_bind; [always_auto|]. intros _.
    apply always_bind; [by apply cloneSingleRole_dry|].
    intros [[e|]| |]; always_auto; apply IH.
Qed.

Lemma performCloning_dry config log :
  DryRun config = true →
  always (reads_only (SourceProfile config)) (performCloning config log : M E _).
Proof.
  intros Hdry. unfold performCloning. rewrite Hdry. cbn [negb].
  apply always_bind; [always_auto|]. intros _.
  apply always_bind; [always_auto|]. intros _.
  eapply post_bind; [apply NewClient_post|].
  intros [sourceClient|e] t1 [Ht1 Hp].
  - rewrite <- (Hp _ eq_refl).
    apply always_after; [by eapply Forall_impl; [|apply silent_reads_only]|].
    apply always_bind; [apply always_ret|]. intros [destClient|e].
    + apply always_bind; [by apply cloneLoop_dry|].
      intros [n| |]; always_auto.
    + apply always_ret.
  - apply always_after; [by eapply Forall_impl; [|apply silent_reads_only]|].
    apply always_ret.
Qed.

(** C2. In a dry run the execution step performs no mutating AWS call:
  every request that [performCloning] sends, and every request that
  [cloneSingleRole] sends for a role, goes through the source client and
  is none of CreateRole, AttachRolePolicy, PutRolePolicy and TagRole,
  whatever the configuration (the verbose flag included), the logger, the
  roles and the answers of the service are. *)
Theorem dry_run_sends_no_mutating_request
    (config : CloneConfig) (log : Logger.Logger) (s : State E) :
  DryRun config = true →
  Forall (λ c, call_profile c = SourceProfile config ∧
               mutating (call_request c) = false)
         (calls_of (trace (performCloning config log s))) ∧
  ∀ sourceClient destClient sourceRole destRole s',
    Forall (λ c, call_profile c = profile sourceClient ∧
                 mutating (call_request c) = false)
           (calls_of (trace (cloneSingleRole sourceClient destClient
                               sourceRole destRole config log s'))).
Proof.
  intros Hdry. split.
  - apply Forall_reads_only_calls. by apply performCloning_dry.
  - intros. apply Forall_reads_only_calls.
    by apply (cloneSingleRole_dry _ _ _ _ _ _ Hdry).
Qed.

(** A computation whose value satisfies [R] whatever the state. *)
Lemma returns_bind {A B} (m : M E A) (f : A → M E B) (R : B → Prop) :
  (∀ a, post (f a) (λ r _, R r)) → post (m ≫= f) (λ r _, R r).
Proof.
  intros Hf. apply (post_bind _ _ (λ _ _, True)); [done|].
  intros a t1 _. apply Hf.
Qed.

(** With a destination client, or in a dry run, a single role never ends
  in a panic. *)
Lemma cloneSingleRole_returns sourceClient destClient sourceRole destRole config log :
  DryRun config = true ∨ is_Some destClient →
  post (cloneSingleRole sourceClient destClient sourceRole destRole config log : M E _)
       (λ r _, ∃ e, r = Return e).
Proof.
  intros Hok. unfold cloneSingleRole.
  apply returns_bind. intros _. apply returns_bind. intros [roleInfo|e].
  - apply returns_bind. intros _. destruct (DryRun config) eqn:Hdry.
    + apply returns_bind. intros _. apply post_ret. eauto.
    + destruct Hok as [|[d ->]]; [done|].
      apply returns_bind. intros [|]; [apply post_ret; eauto|].
      do 4 (apply returns_bind; intros ?).
      destruct a2; [apply returns_bind; intros _|]; try (apply post_ret; eauto).
      do 2 (apply returns_bind; intros _). apply post_ret. eauto.
  - apply post_ret. eauto.
Qed.

(** So the loop over the roles always comes to its end. *)
Lemma cloneLoop_returns sourceClient destClient config log i roles successCount :
  DryRun config = true ∨ is_Some destClient →
  post (cloneLoop sourceClient destClient config log i roles successCount : M E _)
       (λ r _, ∃ n, r = Return n).
Proof.
  intros Hok. revert i successCount.
  induction roles as [|role roles IH]; intros i successCount; simpl.
  - apply post_ret. eauto.
  - apply returns_bind. intros _.
    eapply post_bind; [by apply cloneSingleRole_returns|].
    intros r t1 [e ->]. destruct e as [e|].
    + apply (post_bind _ _ (λ _ _, True)); [done|]. intros _ t2 _.
      eapply post_mono; [apply IH|]. by intros a t.
    + apply (post_bind _ _ (λ _ _, True)); [done|]. intros _ t2 _.
      eapply post_mono; [apply IH|]. by intros a t.
Qed.

(** Once the clients are there, [performCloning] returns [nil], whatever
  happens to the single roles. *)
Lemma performCloning_nil config log (s : State E) c :
  value (NewClient (SourceProfile config) s) = Ok c →
  (DryRun config = false →
   ∃ d, value (NewClient (DestProfile config)
                 (final (NewClient (SourceProfile config) s))) = Ok d) →
  value (performCloning config log s) = Return None.
Proof.
  intros Hsrc Hdst. unfold performCloning.
  autorewrite with run_eq. rewrite Hsrc.
  destruct (DryRun config) eqn:Hdry; cbn [negb]; autorewrite with run_eq.
  - destruct (cloneLoop_returns c None config log 0 (Roles config) 0
                (or_introl Hdry) (final (NewClient (SourceProfile config) s)))
      as [n Hn].
    rewrite Hn. by autorewrite with run_eq.
  - destruct (Hdst eq_refl) as [d Hd]. rewrite Hd.
    destruct (cloneLoop_returns c (Some d) config log 0 (Roles config) 0
                (or_intror (mk_is_Some _ _ eq_refl))
                (final (NewClient (DestProfile config)
                          (final (NewClient (SourceProfile config) s)))))
      as [n Hn].
    autorewrite with run_eq. rewrite Hn. by autorewrite with run_eq.
Qed.

Lemma count_cloned_app (t1 t2 : list Event) :
  count_cloned (t1 ++ t2) = count_cloned t1 + count_cloned t2.
Proof. unfold count_cloned. by rewrite List.filter_app, length_app. Qed.

Lemma count_cloned_none (t : list Event) :
  Forall (λ ev, cloned_ok ev = false) t → count_cloned t = 0.
Proof.
  unfold count_cloned. induction 1 as [|ev t Hev _ IH]; [done|].
  simpl. by rewrite Hev.
Qed.

Lemma count_cloned_log l level msg :
  level ≠ SUCCESS → count_cloned (log_events l level msg) = 0.
Proof.
  intros Hl. unfold count_cloned, log_events.
  destruct level, (Logger.logFile l); done.
Qed.

Lemma count_cloned_success l role newRole :
  count_cloned
    (log_events l SUCCESS ("Successfully cloned: " +:+ role +:+ " → " +:+ newRole)) = 1.
Proof.
  unfold count_cloned, log_events. cbn [List.filter cloned_ok].
  rewrite GoStringFacts.HasPrefix_app. by destruct (Logger.logFile l).
Qed.

Lemma request_of_not_cloned p R (ev : Event) : request_of p R ev → cloned_ok ev = false.
Proof. by destruct ev. Qed.

(** Cloning a single role never prints the line that reports a role as
  cloned; only the loop does. *)
Lemma cloneSingleRole_not_cloned sourceClient destClient sourceRole destRole config log :
  always (λ ev, cloned_ok ev = false)
    (cloneSingleRole sourceClient destClient sourceRole destRole config log : M E _).
Proof.
  unfold cloneSingleRole, dryRunPreview, copyPoliciesAndTags, RoleExists.
  repeat first
    [ eapply always_mono;
        [ first [ apply GetRoleInfo_reads | apply CreateRole_requests
                | apply AttachManagedPolicy_requests
                | apply CreateInlinePolicy_requests | apply TagRole_requests ]
        | apply request_of_not_cloned ]
    | apply always_request; done
    | autounfold with run; always_step ].
Qed.

(** The loop counts what it reports: the count it returns is the count it
  started with plus the number of roles reported as cloned. *)
Lemma cloneLoop_count sourceClient destClient config log i roles successCount :
  post (cloneLoop sourceClient destClient config log i roles successCount : M E _)
       (λ r t, ∀ n, r = Return n →
                    n = successCount + count_cloned t ∧
                    count_cloned t ≤ length roles).
Proof.
  revert i successCount.
  induction roles as [|role roles IH]; intros i successCount; simpl.
  - apply post_ret. intros n [= <-]. simpl. unfold count_cloned. simpl. lia.
  - apply (post_bind _ _ (λ _ t, count_cloned t = 0)).
    { intros s. rewrite Progress_run. by apply count_cloned_log. }
    intros _ t1 Ht1.
    apply (post_bind _ _ (λ _ t, count_cloned t = 0)).
    { eapply post_mono; [apply cloneSingleRole_not_cloned|].
      intros a t. apply count_cloned_none. }
    intros r t2 Ht2. destruct r as [[e|]| |].
    + apply (post_bind _ _ (λ _ t, count_cloned t = 0)).
      { intros s. rewrite Error_run. by apply count_cloned_log. }
      intros _ t3 Ht3. eapply post_mono; [apply IH|].
      intros r t4 Hr n ->. destruct (Hr _ eq_refl) as [-> Hle].
      rewrite !count_cloned_app, Ht1, Ht2, Ht3. simpl. lia.
    + apply (post_bind _ _ (λ _ t, count_cloned t = 1)).
      { intros s. rewrite Success_run. apply count_cloned_success. }
      intros _ t3 Ht3. eapply post_mono; [apply IH|].
      intros r t4 Hr n ->. destruct (Hr _ eq_refl) as [-> Hle].
      rewrite !count_cloned_app, Ht1, Ht2, Ht3. simpl. lia.
    + apply post_ret. by intros n.
    + apply post_ret. by intros n.
Qed.

Lemma NewClient_trace (p : string) (s : State E) : trace (NewClient p s) = [].
Proof.
  unfold NewClient, outside, mbind, M_bind.
  destruct (config_LoadDefaultConfig p (ext s)) as [[e|] e']; reflexivity.
Qed.

Lemma summary_not_cloned l k n :
  count_cloned (log_events l SUCCESS (summary_line k n)) = 0.
Proof. unfold count_cloned, log_events. by destruct (Logger.logFile l). Qed.

Lemma elem_of_log_events l level msg : Console level msg ∈ log_events l level msg.
Proof. left. Qed.

(** The summary line of [performCloning] carries the number of roles that
  were reported as cloned. *)
Lemma performCloning_summary config log (s : State E) c :
  value (NewClient (SourceProfile config) s) = Ok c →
  (DryRun config = false →
   ∃ d, value (NewClient (DestProfile config)
                 (final (NewClient (SourceProfile config) s))) = Ok d) →
  let t := trace (performCloning config log s) in
  count_cloned t ≤ length (Roles config) ∧
  Console SUCCESS (summary_line (count_cloned t) (length (Roles config))) ∈ t.
Proof.
  intros Hsrc Hdst.
  assert (∃ destClient s',
    (DryRun config = true ∨ is_Some destClient) ∧
    trace (performCloning config log s) =
      log_events log INFO "Step 5: Role Cloning Process" ++
      [Stdout ("--------------------------------" +:+ nl)] ++
      trace (cloneLoop c destClient config log 0 (Roles config) 0 s') ++
      match value (cloneLoop c destClient config log 0 (Roles config) 0 s') with
      | Return n =>
        [Stdout ("--------------------------------" +:+ nl)] ++
        log_events log SUCCESS (summary_line n (length (Roles config))) ++
        (if DryRun config
         then log_events log INFO
                "This was a dry run. Use without --dry-run to perform actual cloning."
         else [])
      | _ => []
      end) as (destClient & s' & Hok & ->).
  { unfold performCloning. autorewrite with run_eq. rewrite Hsrc, NewClient_trace.
    destruct (DryRun config) eqn:Hdry; cbn [negb]; autorewrite with run_eq.
    - exists None, (final (NewClient (SourceProfile config) s)).
      split; [by left|].
      destruct (value (cloneLoop _ _ _ _ _ _ _ _)); autorewrite with run_eq;
        rewrite ?app_nil_r; reflexivity.
    - destruct (Hdst eq_refl) as [d Hd]. rewrite Hd, NewClient_trace.
      autorewrite with run_eq.
      exists (Some d), (final (NewClient (DestProfile config)
                                (final (NewClient (SourceProfile config) s)))).
      split; [by right|].
      destruct (value (cloneLoop _ _ _ _ _ _ _ _)); autorewrite with run_eq;
        rewrite ?app_nil_r; reflexivity. }
  destruct (cloneLoop_returns c destClient config log 0 (Roles config) 0 Hok s')
    as [n Hn].
  destruct (cloneLoop_count c destClient config log 0 (Roles config) 0 s' n Hn)
    as [Hcount Hle].
  rewrite Hn. simpl in Hcount.
  assert (count_cloned
            (log_events log INFO "Step 5: Role Cloning Process" ++
             [Stdout ("--------------------------------" +:+ nl)] ++
             trace (cloneLoop c destClient config log 0 (Roles config) 0 s') ++
             [Stdout ("--------------------------------" +:+ nl)] ++
             log_events log SUCCESS (summary_line n (length (Roles config))) ++
             (if DryRun config
              then log_events log INFO
                     "This was a dry run. Use without --dry-run to perform actual cloning."
              else [])) = n) as Hall.
  { rewrite !count_cloned_app, summary_not_cloned, !count_cloned_log by done.
    rewrite <- Hcount.
    assert (count_cloned
              (if DryRun config
               then log_events log INFO
                      "This was a dry run. Use without --dry-run to perform actual cloning."
               else []) = 0) as ->
      by (destruct (DryRun config); [by apply count_cloned_log|done]).
    change (count_cloned [Stdout _]) with 0. lia. }
  cbv zeta. rewrite Hall. split; [lia|].
  rewrite !elem_of_app. do 4 right. left. apply elem_of_log_events.
Qed.

Lemma suffix_peel {A} (a rest tail : list A) :
  (∃ b, rest = b ++ tail) → ∃ b, a ++ rest = b ++ tail.
Proof. intros [b ->]. exists (a ++ b). by rewrite app_assoc. Qed.

(** When the first four steps pass and [performCloning] returns [nil], the
  wizard ends by logging its success after everything the execution step
  logged, and returns. *)
Lemma runEnhancedClone_completes config0 (s0 : State E) config log (s : State E) :
  reaches_execution config0 s0 config log s →
  value (performCloning config log s) = Return None →
  value (runEnhancedClone config0 s0) = Return Returned ∧
  ∃ before,
    trace (runEnhancedClone config0 s0) =
    before ++ trace (performCloning config log s) ++
    log_events log SUCCESS "🎉 Role cloning completed successfully!" ++
    log_events log INFO ("Log file saved: " +:+ LogFile config) ++
    close_events log.
Proof.
  intros (config1 & config2 & Hnew & Hstep1 & Hstep2 & Hstep3 & Hstep4 & Hs) Hnil.
  cbv zeta in *. unfold runEnhancedClone.
  assert (∀ (b : bool) msg (st : State E),
            (if b then Logger.Warning log msg else mret ()) st =
            (tt, st, if b then log_events log WARNING msg else [])) as Hwarn.
  { intros [] msg st; [apply Warning_run|done]. }
  split.
  - autorewrite with run_eq. rewrite Hnew. autorewrite with run_eq.
    rewrite !Hwarn. autorewrite with run_eq.
    rewrite Hstep1. autorewrite with run_eq.
    rewrite Hstep2. autorewrite with run_eq.
    rewrite Hstep3. autorewrite with run_eq.
    rewrite Hstep4. cbn [negb]. autorewrite with run_eq.
    rewrite Hs, Hnil. by autorewrite with run_eq.
  - autorewrite with run_eq. rewrite Hnew. autorewrite with run_eq.
    rewrite !Hwarn. autorewrite with run_eq.
    rewrite Hstep1. autorewrite with run_eq.
    rewrite Hstep2. autorewrite with run_eq.
    rewrite Hstep3. autorewrite with run_eq.
    rewrite Hstep4. cbn [negb]. autorewrite with run_eq.
    rewrite !Hs, Hnil. autorewrite with run_eq.
    rewrite app_nil_r, <- !app_assoc.
    repeat first [ by exists [] | apply suffix_peel ].
Qed.

Lemma Contains_app (p substr r : string) :
  GoStrings.Contains (p +:+ substr +:+ r) substr = true.
Proof.
  unfold GoStrings.Contains.
  assert (is_Some (GoStrings.Index (p +:+ substr +:+ r) substr)) as [i ->]; [|done].
  induction p as [|a p IH].
  - rewrite GoStringFacts.app_nil_l.
    destruct (substr +:+ r) eqn:Heq; simpl;
      rewrite <- Heq, GoStringFacts.HasPrefix_app; eauto.
  - rewrite GoStringFacts.app_cons. simpl.
    destruct (GoStrings.HasPrefix _ _); [eauto|].
    destruct IH as [i ->]. simpl. eauto.
Qed.

Lemma reads_only_harmless (p : string) (ev : Event) : reads_only p ev → harmless ev.
Proof. destruct ev; try done. by intros [_ ?]. Qed.

Lemma request_of_harmless (p : string) (ev : Event) :
  request_of p (λ r, mutating r = false) ev → harmless ev.
Proof. destruct ev; try done. by intros [_ ?]. Qed.

Lemma harmless_calls (t : list Event) :
  Forall harmless t →
  Forall (λ c, mutating (call_request c) = false) (calls_of t).
Proof.
  rewrite !Forall_forall. intros Ht c Hc%elem_of_calls_of. apply (Ht _ Hc).
Qed.

Lemma log_events_harmless l level msg : Forall harmless (log_events l level msg).
Proof. unfold log_events. destruct (Logger.logFile l); by repeat constructor. Qed.

Lemma debug_events_harmless l msg :
  Forall harmless (if Logger.verbose l then log_events l DEBUG msg else []).
Proof. destruct (Logger.verbose l); [apply log_events_harmless|constructor]. Qed.

Lemma debug_events_no_calls l msg :
  calls_of (if Logger.verbose l then log_events l DEBUG msg else []) = [].
Proof.
  destruct (Logger.verbose l); [|done].
  unfold log_events. by destruct (Logger.logFile l).
Qed.

(** C3 (amended). In a run that is no dry run, when the information of
  the source role was fetched and the destination role name exists (the
  [GetRole] of the existence check succeeds), [cloneSingleRole] returns
  the error "destination role already exists: <name>", whose text
  contains "already exists"; it has sent no request that changes an
  account, so no CreateRole; and the loop of [performCloning] logs the
  failure, keeps its count and goes on with the next role. When the fetch
  of the source role fails with [e], the error returned is "failed to get
  role info: <e>" instead: the run of [cloneSingleRole] is the debug line
  followed by the fetch and nothing else, so every request it sent is one
  of the fetch, addressed to the source profile, and the existence check
  of the destination is not reached; the loop goes on in the same way. *)
Theorem existing_destination_fails
    (sourceClient destClient : Client) (role : string)
    (config : CloneConfig) (log : Logger.Logger) (s : State E) :
  let newRole := GenerateNewRoleName role (SourcePattern config) (DestPattern config) in
  let r := cloneSingleRole sourceClient (Some destClient) role newRole config log s in
  let loop := cloneLoop sourceClient (Some destClient) config log in
  let fetch := GetRoleInfo sourceClient role s in
  DryRun config = false →
  (∀ roleInfo,
     value fetch = Ok roleInfo →
     value (RoleExists destClient newRole (final fetch)) = true →
     value r = Return (Some ("destination role already exists: " +:+ newRole)) ∧
     GoStrings.Contains ("destination role already exists: " +:+ newRole)
       "already exists" = true ∧
     Forall (λ c, mutating (call_request c) = false) (calls_of (trace r)) ∧
     ∀ i roles successCount,
       let rest := loop (S i) roles successCount (final r) in
       value (loop i (role :: roles) successCount s) = value rest ∧
       trace (loop i (role :: roles) successCount s) =
         log_events log PROGRESS
           ("[" +:+ pretty (i + 1) +:+ "/" +:+ pretty (length (Roles config)) +:+ "] " +:+
            "Cloning: " +:+ role +:+ " → " +:+ newRole) ++
         trace r ++
         log_events log ERROR
           ("Failed to clone " +:+ role +:+ ": destination role already exists: " +:+
            newRole) ++
         trace rest) ∧
  (∀ e,
     value fetch = Err e →
     value r = Return (Some ("failed to get role info: " +:+ e)) ∧
     trace r =
       (if Logger.verbose log
        then log_events log DEBUG ("  Getting role information for: " +:+ role)
        else []) ++
       trace fetch ∧
     final r = final fetch ∧
     calls_of (trace r) = calls_of (trace fetch) ∧
     Forall (λ c, call_profile c = profile sourceClient ∧
                  mutating (call_request c) = false) (calls_of (trace r)) ∧
     ∀ i roles successCount,
       let rest := loop (S i) roles successCount (final r) in
       value (loop i (role :: roles) successCount s) = value rest ∧
       trace (loop i (role :: roles) successCount s) =
         log_events log PROGRESS
           ("[" +:+ pretty (i + 1) +:+ "/" +:+ pretty (length (Roles config)) +:+ "] " +:+
            "Cloning: " +:+ role +:+ " → " +:+ newRole) ++
         trace r ++
         log_events log ERROR
           ("Failed to clone " +:+ role +:+ ": failed to get role info: " +:+ e) ++
         trace rest).
Proof.
  intros newRole r loop fetch Hdry. subst fetch. split.
  - intros roleInfo Hinfo Hexists.
    assert (value r = Return (Some ("destination role already exists: " +:+ newRole)))
      as Hvalue.
    { unfold r, cloneSingleRole. autorewrite with run_eq. rewrite Hinfo.
      autorewrite with run_eq. rewrite Hdry. autorewrite with run_eq.
      rewrite Hexists. by autorewrite with run_eq. }
    split; [exact Hvalue|]. split.
    { change ("destination role already exists: " +:+ newRole)
        with ("destination role " +:+ "already exists" +:+ ": " +:+ newRole).
      apply Contains_app. }
    split.
    { apply harmless_calls.
      unfold r, cloneSingleRole. autorewrite with run_eq. rewrite Hinfo.
      autorewrite with run_eq. rewrite Hdry. autorewrite with run_eq.
      rewrite Hexists. autorewrite with run_eq.
      rewrite !Forall_app. repeat split; try apply debug_events_harmless.
      - eapply Forall_impl; [apply (GetRoleInfo_reads sourceClient role s)|].
        apply request_of_harmless.
      - eapply Forall_impl; [apply (RoleExists_reads destClient newRole)|].
        apply request_of_harmless.
      - constructor. }
    intros i roles successCount rest. unfold rest, loop. cbn [cloneLoop].
    fold newRole. fold r. autorewrite with run_eq. fold r. rewrite Hvalue.
    autorewrite with run_eq. done.
  - intros e Hinfo.
    assert (value r = Return (Some ("failed to get role info: " +:+ e))) as Hvalue.
    { unfold r, cloneSingleRole. autorewrite with run_eq.  rewrite Hinfo. by autorewrite with run_eq. }
    assert (trace r =
            (if Logger.verbose log
             then log_events log DEBUG ("  Getting role information for: " +:+ role)
             else []) ++ trace (GetRoleInfo sourceClient role s)) as Htrace.
    { unfold r, cloneSingleRole. autorewrite with run_eq.  rewrite Hinfo. autorewrite with run_eq. by rewrite List.app_nil_r. }
    split; [exact Hvalue|]. split; [exact Htrace|]. split.
    { unfold r, cloneSingleRole. autorewrite with run_eq.  rewrite Hinfo. by autorewrite with run_eq. }
    assert (calls_of (trace r) = calls_of (trace (GetRoleInfo sourceClient role s))) as Hcalls.
    { by rewrite Htrace, calls_of_app, debug_events_no_calls. }
    split; [exact Hcalls|]. split.
    { rewrite Hcalls.
      apply Forall_reads_only_calls, (GetRoleInfo_reads_only sourceClient role s). }
    intros i roles successCount rest. unfold rest, loop. cbn [cloneLoop].
    fold newRole. fold r. autorewrite with run_eq. fold r. rewrite Hvalue.
    autorewrite with run_eq. done.
Qed.

(** *** Steps 3 to 5 *)

Lemma warned_nil : warned [].
Proof. intros c msg Hc. by apply elem_of_nil in Hc. Qed.

Lemma warned_app (t1 t2 : list Event) : warned t1 → warned t2 → warned (t1 ++ t2).
Proof.
  intros H1' H2' c msg Hc Hmsg. rewrite elem_of_app in Hc |- *.
  destruct Hc as [Hc|Hc]; [left; by eapply H1' | right; by eapply H2'].
Qed.

Lemma warned_quiet (t : list Event) :
  Forall (λ ev, ∀ c, ev = Called c → substep_warning c = None) t → warned t.
Proof.
  rewrite Forall_forall. intros Ht c msg Hc Hmsg.
  by rewrite (Ht _ Hc c eq_refl) in Hmsg.
Qed.

Lemma warned_silent (t : list Event) : Forall silent t → warned t.
Proof.
  intros Ht. apply warned_quiet. eapply Forall_impl; [exact Ht|].
  by intros [] Hev c' [=].
Qed.

Lemma warned_harmless (t : list Event) : Forall harmless t → warned t.
Proof.
  intros Ht. apply warned_quiet. eapply Forall_impl; [exact Ht|].
  intros [] Hev c' [=]; subst. simpl in Hev. unfold substep_warning.
  by destruct (call_request c').
Qed.

Lemma log_events_silent l level msg : Forall silent (log_events l level msg).
Proof. unfold log_events. destruct (Logger.logFile l); by repeat constructor. Qed.

Lemma debug_events_silent l msg :
  Forall silent (if Logger.verbose l then log_events l DEBUG msg else []).
Proof. destruct (Logger.verbose l); [apply log_events_silent|constructor]. Qed.

(** A computation whose every trace satisfies a property that the empty
  trace has and that concatenation keeps. *)
Lemma holds_bind {A B} (m : M E A) (f : A → M E B) (X : list Event → Prop) :
  (∀ t1 t2, X t1 → X t2 → X (t1 ++ t2)) →
  post m (λ _ t, X t) → (∀ a, post (f a) (λ _ t, X t)) →
  post (m ≫= f) (λ _ t, X t).
Proof.
  intros Happ Hm Hf. eapply post_bind; [exact Hm|].
  intros a t1 Ht1. eapply post_mono; [apply Hf|]. intros b t2 Ht2. by apply Happ.
Qed.

Lemma holds_forEach {A} (xs : list A) (body : A → M E unit) (X : list Event → Prop) :
  X [] → (∀ t1 t2, X t1 → X t2 → X (t1 ++ t2)) →
  (∀ x, x ∈ xs → post (body x) (λ _ t, X t)) →
  post (forEach xs body) (λ _ t, X t).
Proof.
  intros Hnil Happ. induction xs as [|x xs IH]; intros Hbody; simpl.
  - by apply post_ret.
  - apply holds_bind; [done|apply Hbody; left|].
    intros _. apply IH. intros y Hy. apply Hbody. by right.
Qed.

Lemma holds_silent {A} (m : M E A) (X : list Event → Prop) :
  (∀ t, Forall silent t → X t) → always silent m → post m (λ _ t, X t).
Proof. intros HX Hm. eapply post_mono; [exact Hm|]. intros a t. apply HX. Qed.

(** What the three operations of steps 3 to 5 leave: their one request,
  with the error of the service, which they hand on wrapped. *)
Lemma AttachManagedPolicy_post (c : Client) roleName policyArn :
  post (AttachManagedPolicy c roleName policyArn : M E _)
    (λ err t, ∃ e,
       t = [Called (Build_Call (profile c) (ReqAttachRolePolicy roleName policyArn) e)] ∧
       err = (λ e, "failed to attach policy " +:+ policyArn +:+ " to role " +:+
                   roleName +:+ ": " +:+ e) <$> e).
Proof.
  unfold AttachManagedPolicy.
  apply (post_bind _ _ (λ a t,
    t = [Called (Build_Call (profile c) (ReqAttachRolePolicy roleName policyArn) a)]));
    [by apply post_request|].
  intros [e|] t1 ->; apply post_ret; eexists; split; try reflexivity.
Qed.

Lemma CreateInlinePolicy_post (c : Client) roleName policyName policyDocument :
  post (CreateInlinePolicy c roleName policyName policyDocument : M E _)
    (λ err t, ∃ e,
       t = [Called (Build_Call (profile c)
                      (ReqPutRolePolicy roleName policyName policyDocument) e)] ∧
       err = (λ e, "failed to create inline policy " +:+ policyName +:+
                   " for role " +:+ roleName +:+ ": " +:+ e) <$> e).
Proof.
  unfold CreateInlinePolicy.
  apply (post_bind _ _ (λ a t,
    t = [Called (Build_Call (profile c)
                   (ReqPutRolePolicy roleName policyName policyDocument) a)]));
    [by apply post_request|].
  intros [e|] t1 ->; apply post_ret; eexists; split; try reflexivity.
Qed.

Lemma TagRole_post (c : Client) roleName (tags : gmap string string) :
  post (TagRole c roleName tags : M E _)
    (λ err t,
       (tags = ∅ ∧ t = [] ∧ err = None) ∨
       (tags ≠ ∅ ∧ ∃ iamTags e,
          iamTags ≡ₚ map_to_list tags ∧
          t = [Called (Build_Call (profile c) (ReqTagRole roleName iamTags) e)] ∧
          err = (λ e, "failed to tag role " +:+ roleName +:+ ": " +:+ e) <$> e)).
Proof.
  unfold TagRole. destruct (decide (size tags = 0)) as [Hsize|Hsize].
  - apply post_ret. left. by apply map_size_empty_iff in Hsize.
  - assert (tags ≠ ∅) as Hne by (by intros ->).
    apply (post_bind _ _ (λ iamTags t, iamTags ≡ₚ map_to_list tags ∧ t = [])).
    { intros s. unfold outside. pose proof (map_range_perm _ tags (ext s)) as Hperm.
      by destruct (map_range tags (ext s)). }
    intros iamTags t1 [Hperm ->].
    apply (post_bind _ _ (λ a t,
      t = [Called (Build_Call (profile c) (ReqTagRole roleName iamTags) a)]));
      [by apply post_request|].
    intros [e|] t2 ->; apply post_ret; right; (split; [done|]);
      eexists _, _; (split; [done|]); split; reflexivity.
Qed.

(** *** The processed tags *)

Lemma processTags_fold_lookup config (entries : list (string * string))
    (m : gmap string string) (k : string) :
  NoDup entries.*1 →
  foldl (processTag config) m entries !! k =
  match (list_to_map entries : gmap string string) !! k with
  | Some v => Some (processedValue config k v)
  | None => m !! k
  end.
Proof.
  revert m. induction entries as [|[k0 v0] entries IH]; intros m Hnd; [done|].
  apply NoDup_cons in Hnd as [Hk0 Hnd]. cbn [foldl]. rewrite IH by done.
  cbn [list_to_map foldr]. simpl.
  destruct (decide (k = k0)) as [->|Hne].
  - rewrite lookup_insert_eq.
    rewrite (not_elem_of_list_to_map_1 entries k0) by done.
    unfold processTag, processedValue.
    destruct (String.eqb k0 "Environment"); by rewrite lookup_insert_eq.
  - rewrite lookup_insert_ne by done.
    destruct (list_to_map entries !! k); [done|].
    unfold processTag. destruct (String.eqb k0 "Environment");
      by rewrite lookup_insert_ne.
Qed.

(** Every tag of the source role is in [processedTags], under its key and
  with its processed value, whatever order the runtime ranged in. *)
Lemma processTags_lookup config (tags : gmap string string)
    (entries : list (string * string)) (k : string) :
  entries ≡ₚ map_to_list tags →
  processTags config entries !! k = processedValue config k <$> tags !! k.
Proof.
  intros Hperm. unfold processTags.
  assert (NoDup entries.*1) as Hnd.
  { rewrite Hperm. apply NoDup_fst_map_to_list. }
  rewrite processTags_fold_lookup by done.
  assert ((list_to_map entries : gmap string string) = tags) as ->.
  { rewrite <- (list_to_map_to_list tags). by apply list_to_map_proper. }
  rewrite lookup_empty. by destruct (tags !! k).
Qed.

Lemma processTags_nonempty config (tags : gmap string string)
    (entries : list (string * string)) :
  entries ≡ₚ map_to_list tags → tags ≠ ∅ → processTags config entries ≠ ∅.
Proof.
  intros Hperm Hne Hempty.
  apply map_choose in Hne as (k & v & Hk).
  pose proof (processTags_lookup config tags entries k Hperm) as Hl.
  by rewrite Hempty, Hk, lookup_empty in Hl.
Qed.

Lemma warned_failed (c : Call) (msg : string) l :
  substep_warning c = Some msg →
  warned ([Called c] ++ log_events l WARNING msg).
Proof.
  intros Hmsg c' msg' Hc' Hmsg'. apply elem_of_app in Hc' as [Hc'|Hc'].
  - apply list_elem_of_singleton in Hc' as [= ->].
    rewrite Hmsg in Hmsg'. injection Hmsg' as <-.
    apply elem_of_app. right. apply elem_of_log_events.
  - pose proof (log_events_silent l WARNING msg) as Hs.
    rewrite Forall_forall in Hs. by apply Hs in Hc'.
Qed.

Lemma warned_succeeded (c : Call) (t : list Event) :
  call_error c = None → Forall silent t → warned ([Called c] ++ t).
Proof.
  intros Hc Ht. apply warned_app; [|by apply warned_silent].
  apply warned_quiet. constructor; [|constructor].
  intros c' [= <-]. unfold substep_warning. rewrite Hc.
  by destruct (call_request c).
Qed.

Lemma verbose_debug_silent (b : bool) (m : M E unit) :
  always silent m → always silent (if b then m else mret ()).
Proof. destruct b; [done|]. intros _. apply always_ret. Qed.

(** Steps 3 to 5 log a warning for every request of theirs that failed. *)
Lemma copyPoliciesAndTags_warned destClient destRole roleInfo config log :
  post (copyPoliciesAndTags destClient destRole roleInfo config log : M E unit)
       (λ _ t, warned t).
Proof.
  unfold copyPoliciesAndTags.
  apply holds_bind; [apply warned_app| |intros _].
  { apply holds_silent; [apply warned_silent|]. always_auto. }
  apply holds_bind; [apply warned_app| |intros _].
  { apply holds_forEach; [apply warned_nil|apply warned_app|].
    intros policyArn _.
    eapply post_bind; [apply AttachManagedPolicy_post|].
    intros err t1 (e & -> & ->). destruct e as [e|]; intros s; simpl.
    - rewrite Warning_run. by apply warned_failed.
    - rewrite Debug_run. apply warned_succeeded; [done|apply debug_events_silent]. }
  apply holds_bind; [apply warned_app| |intros _].
  { apply holds_silent; [apply warned_silent|]. always_auto. }
  apply holds_bind; [apply warned_app| |intros entries].
  { apply holds_silent; [apply warned_silent|]. always_auto. }
  apply holds_bind; [apply warned_app| |intros _].
  { apply holds_forEach; [apply warned_nil|apply warned_app|].
    intros [policyName policyDocument] _.
    apply holds_bind; [apply warned_app| |intros _].
    { apply holds_silent; [apply warned_silent|]. always_auto. }
    eapply post_bind; [apply CreateInlinePolicy_post|].
    intros err t1 (e & -> & ->). destruct e as [e|]; intros s; simpl.
    - rewrite Warning_run. by apply warned_failed.
    - rewrite Debug_run. apply warned_succeeded; [done|apply debug_events_silent]. }
  destruct (0 <? size (Tags roleInfo)); [|by apply post_ret, warned_nil].
  apply holds_bind; [apply warned_app| |intros _].
  { apply holds_silent; [apply warned_silent|]. always_auto. }
  apply holds_bind; [apply warned_app| |intros tagEntries].
  { apply holds_silent; [apply warned_silent|]. always_auto. }
  apply holds_bind; [apply warned_app| |intros _].
  { apply holds_silent; [apply warned_silent|]. always_auto. }
  eapply post_bind; [apply TagRole_post|].
  intros err t1 [(_ & -> & ->)|(_ & iamTags & e & _ & -> & ->)].
  - intros s. rewrite Debug_run. simpl.
    apply warned_silent, debug_events_silent.
  - destruct e as [e|]; intros s; simpl.
    + rewrite Warning_run. by apply warned_failed.
    + rewrite Debug_run. apply warned_succeeded; [done|apply debug_events_silent].
Qed.

Lemma requested_app_l p req (t t' : list Event) :
  requested p req t → requested p req (t ++ t').
Proof. intros [e He]. exists e. apply elem_of_app. by left. Qed.

Lemma requested_app_r p req (t t' : list Event) :
  requested p req t → requested p req (t' ++ t).
Proof. intros [e He]. exists e. apply elem_of_app. by right. Qed.

(** A property of traces that longer traces keep can be shown on the
  first or on the second part of a sequence. *)
Lemma post_bind_l {A B} (m : M E A) (f : A → M E B) (X : list Event → Prop) :
  (∀ t t', X t → X (t ++ t')) →
  post m (λ _ t, X t) → post (m ≫= f) (λ _ t, X t).
Proof.
  intros Hup Hm. eapply post_bind; [exact Hm|].
  intros a t1 Ht1 s. by apply Hup.
Qed.

Lemma post_bind_r {A B} (m : M E A) (f : A → M E B) (X : list Event → Prop) :
  (∀ t t', X t → X (t' ++ t)) →
  (∀ a, post (f a) (λ _ t, X t)) → post (m ≫= f) (λ _ t, X t).
Proof.
  intros Hup Hf. apply (post_bind _ _ (λ _ _, True)); [done|].
  intros a t1 _ s. apply Hup, Hf.
Qed.

Lemma forEach_each {A} (xs : list A) (body : A → M E unit)
    (R : A → list Event → Prop) :
  (∀ x t t', R x t → R x (t ++ t')) →
  (∀ x t t', R x t → R x (t' ++ t)) →
  (∀ x, x ∈ xs → post (body x) (λ _ t, R x t)) →
  post (forEach xs body) (λ _ t, ∀ x, x ∈ xs → R x t).
Proof.
  intros Hl Hr. induction xs as [|x xs IH]; intros Hbody; simpl.
  - apply post_ret. intros x Hx. by apply elem_of_nil in Hx.
  - eapply post_bind; [apply (Hbody x); left|].
    intros u t1 Hx. eapply post_mono.
    { apply IH. intros y Hy. apply Hbody. by right. }
    intros u' t2 Hxs y Hy. apply elem_of_cons in Hy as [->|Hy].
    + by apply Hl.
    + by apply Hr, Hxs.
Qed.

Lemma map_range_post {A} (m : gmap string A) :
  post (outside (map_range m) : M E _) (λ entries t, entries ≡ₚ map_to_list m ∧ t = []).
Proof.
  intros s. unfold outside. pose proof (map_range_perm _ m (ext s)) as Hperm.
  by destruct (map_range m (ext s)).
Qed.

(** Steps 3 to 5 send one attach request for every managed policy of the
  source role, whether earlier requests failed or not. *)
Lemma copyPoliciesAndTags_attaches destClient destRole roleInfo config log :
  post (copyPoliciesAndTags destClient destRole roleInfo config log : M E unit)
       (λ _ t, ∀ policyArn, policyArn ∈ ManagedPolicies roleInfo →
               requested (profile destClient)
                 (ReqAttachRolePolicy destRole policyArn) t).
Proof.
  unfold copyPoliciesAndTags.
  apply post_bind_r; [intros t t' Ht arn Harn; by apply requested_app_r, Ht|].
  intros _.
  apply post_bind_l; [intros t t' Ht arn Harn; by apply requested_app_l, Ht|].
  apply (forEach_each _ _
           (λ arn t, requested (profile destClient) (ReqAttachRolePolicy destRole arn) t)).
  - intros x t t'. apply requested_app_l.
  - intros x t t'. apply requested_app_r.
  - intros arn _. apply post_bind_l; [intros t t'; apply requested_app_l|].
    eapply post_mono; [apply AttachManagedPolicy_post|].
    intros err t (e & -> & _). exists e. left.
Qed.

(** They send one put request for every inline policy, its name and its
  document pattern-replaced. *)
Lemma copyPoliciesAndTags_puts destClient destRole roleInfo config log :
  post (copyPoliciesAndTags destClient destRole roleInfo config log : M E unit)
       (λ _ t, ∀ policyName policyDocument,
               InlinePolicies roleInfo !! policyName = Some policyDocument →
               requested (profile destClient)
                 (ReqPutRolePolicy destRole
                    (GenerateNewRoleName policyName (SourcePattern config)
                       (DestPattern config))
                    (ReplacePatternInJSON policyDocument (SourcePattern config)
                       (DestPattern config))) t).
Proof.
  unfold copyPoliciesAndTags.
  do 3 (apply post_bind_r;
          [intros t t' Ht n d Hnd; by apply requested_app_r, Ht|]; intros _).
  eapply post_bind; [apply map_range_post|].
  intros entries t0 [Hperm ->]. cbn [app].
  apply post_bind_l; [intros t t' Ht n d Hnd; by apply requested_app_l, Ht|].
  eapply post_mono.
  { apply (forEach_each _ _
             (λ entry t,
                requested (profile destClient)
                  (ReqPutRolePolicy destRole
                     (GenerateNewRoleName entry.1 (SourcePattern config)
                        (DestPattern config))
                     (ReplacePatternInJSON entry.2 (SourcePattern config)
                        (DestPattern config))) t)).
    - intros x t t'. apply requested_app_l.
    - intros x t t'. apply requested_app_r.
    - intros [policyName policyDocument] _.
      apply post_bind_r; [intros t t'; apply requested_app_r|]. intros _.
      apply post_bind_l; [intros t t'; apply requested_app_l|].
      eapply post_mono; [apply CreateInlinePolicy_post|].
      intros err t (e & -> & _). exists e. left. }
  intros u t Ht policyName policyDocument Hlookup.
  apply (Ht (policyName, policyDocument)).
  rewrite Hperm. by apply elem_of_map_to_list.
Qed.

(** When the source role has tags, they send one tag request; it carries
  exactly the processed tags: every tag of the source role under its key
  with its processed value. *)
Lemma copyPoliciesAndTags_tags destClient destRole roleInfo config log :
  post (copyPoliciesAndTags destClient destRole roleInfo config log : M E unit)
       (λ _ t, Tags roleInfo ≠ ∅ →
               ∃ iamTags,
                 requested (profile destClient) (ReqTagRole destRole iamTags) t ∧
                 ∀ key value,
                   (key, value) ∈ iamTags ↔
                   processedValue config key <$> Tags roleInfo !! key = Some value).
Proof.
  unfold copyPoliciesAndTags.
  assert (∀ t t' : list Event,
    (Tags roleInfo ≠ ∅ →
     ∃ iamTags,
       requested (profile destClient) (ReqTagRole destRole iamTags) t ∧
       ∀ key value,
         (key, value) ∈ iamTags ↔
         processedValue config key <$> Tags roleInfo !! key = Some value) →
    (Tags roleInfo ≠ ∅ →
     ∃ iamTags,
       requested (profile destClient) (ReqTagRole destRole iamTags) (t' ++ t) ∧
       ∀ key value,
         (key, value) ∈ iamTags ↔
         processedValue config key <$> Tags roleInfo !! key = Some value)) as Hup.
  { intros t t' Ht Hne. destruct (Ht Hne) as (iamTags & Hreq & Htags).
    exists iamTags. split; [by apply requested_app_r|done]. }
  do 5 (apply post_bind_r; [exact Hup|]; intros ?).
  destruct (0 <? size (Tags roleInfo)) eqn:Hsize.
  2:{ apply post_ret. intros Hne. apply Nat.ltb_ge in Hsize.
      apply Nat.le_0_r, map_size_empty_iff in Hsize. done. }
  apply post_bind_r; [exact Hup|]. intros _.
  eapply post_bind; [apply map_range_post|].
  intros entries t0 [Hperm ->]. cbn [app].
  apply post_bind_r; [exact Hup|]. intros _.
  eapply post_bind; [apply TagRole_post|].
  intros err t1 [(Hempty & _)|(_ & iamTags & e & Htags & -> & _)].
  - intros s Hne. by apply processTags_nonempty with (config := config) in Hperm.
  - intros s Hne. exists iamTags. split.
    + apply requested_app_l. exists e. left.
    + intros key value. rewrite Htags, elem_of_map_to_list.
      by rewrite (processTags_lookup config (Tags roleInfo)).
Qed.

Lemma CreateRole_post (c : Client) roleName trustPolicy description :
  post (CreateRole c roleName trustPolicy description : M E _)
    (λ err t, ∃ e,
       t = [Called (Build_Call (profile c)
                      (ReqCreateRole roleName trustPolicy
                         (if String.eqb description "" then None else Some description))
                      e)] ∧
       err = (λ e, "failed to create role " +:+ roleName +:+ ": " +:+ e) <$> e).
Proof.
  unfold CreateRole.
  apply (post_bind _ _ (λ a t,
    t = [Called (Build_Call (profile c)
                   (ReqCreateRole roleName trustPolicy
                      (if String.eqb description "" then None else Some description))
                   a)]));
    [by apply post_request|].
  intros [e|] t1 ->; apply post_ret; eexists; split; try reflexivity.
Qed.

Lemma verbose_debug2_run (b : bool) l m1 m2 (s : State E) :
  (if b then Logger.Debug l m1 ≫= λ _, Logger.Debug l m2 else mret ()) s =
  (tt, s,
   if b then (if Logger.verbose l then log_events l DEBUG m1 else []) ++
             (if Logger.verbose l then log_events l DEBUG m2 else [])
   else []).
Proof.
  destruct b; [|done].
  rewrite (run_bind _ _ _ _ _ _ (Debug_run _ _ _)), Debug_run. reflexivity.
Qed.

Lemma verbose_error_run (b : bool) l msg (s : State E) :
  (if b then Logger.Error l msg else mret ()) s =
  (tt, s, if b then log_events l ERROR msg else []).
Proof. destruct b; [apply Error_run|done]. Qed.

Lemma no_CreateRole_harmless (t : list Event) (c : Call) :
  Forall harmless t → Called c ∈ t → is_CreateRole (call_request c) = true → False.
Proof.
  rewrite Forall_forall. intros Ht Hc Hcr. apply Ht in Hc. simpl in Hc.
  by destruct (call_request c).
Qed.

Lemma harmless_nothing_created (ev : Event) : harmless ev → nothing_created ev.
Proof. destruct ev; try done. simpl. by left. Qed.

Lemma harmless_up_to_creation (ev : Event) : harmless ev → up_to_creation ev.
Proof. destruct ev; try done. simpl. by left. Qed.

(** A clone that is no dry run either creates nothing, or fetches the
  role, creates it, goes through steps 3 to 5 and returns [nil]. *)
Lemma cloneSingleRole_run sourceClient destClient sourceRole destRole config log
    (s : State E) :
  let r := cloneSingleRole sourceClient (Some destClient) sourceRole destRole
             config log s in
  DryRun config = false →
  Forall nothing_created (trace r) ∨
  ∃ roleInfo before s',
    value (GetRoleInfo sourceClient sourceRole s) = Ok roleInfo ∧
    value r = Return None ∧
    Forall up_to_creation before ∧
    trace r =
      before ++ trace (copyPoliciesAndTags destClient destRole roleInfo config log s').
Proof.
  intros r Hdry. unfold r, cloneSingleRole. autorewrite with run_eq.
  assert (Forall harmless (trace (GetRoleInfo sourceClient sourceRole s))) as Hget.
  { eapply Forall_impl; [apply (GetRoleInfo_reads sourceClient sourceRole s)|].
    apply request_of_harmless. }
  set (s1 := final (GetRoleInfo sourceClient sourceRole s)).
  assert (Forall harmless (trace (RoleExists destClient destRole s1))) as Hexi.
  { eapply Forall_impl; [apply (RoleExists_reads destClient destRole s1)|].
    apply request_of_harmless. }
  pose proof (debug_events_harmless log) as Hdebug.
  pose proof (log_events_harmless log) as Hlog.
  destruct (value (GetRoleInfo sourceClient sourceRole s)) as [roleInfo|e] eqn:Hinfo.
  2:{ autorewrite with run_eq. rewrite app_nil_r. left.
      eapply Forall_impl; [|apply harmless_nothing_created].
      apply Forall_app. by split. }
  autorewrite with run_eq. rewrite Hdry. autorewrite with run_eq.
  destruct (value (RoleExists destClient destRole s1)) eqn:Hexists.
  { autorewrite with run_eq. rewrite app_nil_r. left.
    eapply Forall_impl; [|apply harmless_nothing_created].
    rewrite !Forall_app. by repeat split. }
  autorewrite with run_eq. rewrite !verbose_debug2_run. autorewrite with run_eq.
  set (s2 := final (RoleExists destClient destRole s1)).
  set (now := outside (time_Now_Format "2006-01-02 15:04:05") s2).
  set (trust := ReplacePatternInJSON (TrustPolicy roleInfo) (SourcePattern config)
                  (DestPattern config)).
  set (description := "Cloned from " +:+ sourceRole +:+ " on " +:+ value now).
  destruct (CreateRole_post destClient destRole trust description (final now))
    as (e & Htrace & Hvalue).
  rewrite Hvalue, Htrace.
  assert (trace now = []) as ->.
  { unfold now, outside. by destruct (time_Now_Format _ _). }
  assert (∀ m1 m2,
    Forall harmless
      (if Verbose config
       then (if Logger.verbose log then log_events log DEBUG m1 else []) ++
            (if Logger.verbose log then log_events log DEBUG m2 else [])
       else [])) as Hverbose.
  { intros m1 m2. destruct (Verbose config); [|constructor].
    apply Forall_app. by split. }
  destruct e as [e|]; cbn [fmap option_fmap option_map].
  - autorewrite with run_eq. rewrite verbose_error_run. autorewrite with run_eq.
    left. rewrite !Forall_app. repeat split;
      try (by eapply Forall_impl; [|apply harmless_nothing_created];
              first [ done | destruct (Verbose config);
                             first [ apply Hlog | constructor ] ]).
    constructor; [|constructor]. simpl. right. split; [done|by eexists].
  - autorewrite with run_eq. right.
    eexists roleInfo, _, _. split; [done|]. split; [done|]. split; [|].
    2:{ rewrite app_nil_r, !app_assoc. reflexivity. }
    rewrite !Forall_app. repeat split;
      try (by eapply Forall_impl; [|apply harmless_up_to_creation];
              first [ done | constructor ]).
    constructor; [|constructor]. simpl. by right.
Qed.

Lemma warned_up_to_creation (t : list Event) : Forall up_to_creation t → warned t.
Proof.
  intros Ht. apply warned_quiet. eapply Forall_impl; [exact Ht|].
  intros [] Hev c' [=]; subst. simpl in Hev. unfold substep_warning.
  destruct (call_request c'); try done; by destruct Hev.
Qed.

(** A clone that is no dry run and whose CreateRole succeeded: the role
  was fetched, the clone returns [nil], and what it did after the
  creation is steps 3 to 5. *)
Lemma cloneSingleRole_created sourceClient destClient sourceRole destRole config log
    (s : State E) :
  let r := cloneSingleRole sourceClient (Some destClient) sourceRole destRole
             config log s in
  DryRun config = false →
  (∃ c, c ∈ calls_of (trace r) ∧
        is_CreateRole (call_request c) = true ∧ call_error c = None) →
  ∃ roleInfo before s',
    value (GetRoleInfo sourceClient sourceRole s) = Ok roleInfo ∧
    value r = Return None ∧
    warned before ∧
    trace r =
      before ++ trace (copyPoliciesAndTags destClient destRole roleInfo config log s').
Proof.
  intros r Hdry (c & Hc & Hcreate & Herr). apply elem_of_calls_of in Hc.
  destruct (cloneSingleRole_run sourceClient destClient sourceRole destRole config
              log s Hdry) as [Hnone|(roleInfo & before & s' & ? & ? & Hbefore & ?)].
  - exfalso. fold r in Hnone. rewrite Forall_forall in Hnone.
    apply Hnone in Hc. simpl in Hc. destruct Hc as [Hc|[_ [e He]]].
    + by destruct (call_request c).
    + by rewrite Herr in He.
  - exists roleInfo, before, s'. repeat split; try done.
    by apply warned_up_to_creation.
Qed.

(** C7. In a run that is no dry run, once CreateRole has succeeded for a
  role, [cloneSingleRole] returns [nil] for it whatever the later
  requests answer: every managed-policy attachment, inline-policy creation
  and tag copy that fails has its warning in the log; all of them are
  attempted all the same (one attach request per managed policy, one put
  request per inline policy, the tag request when the role has tags); and
  the loop of [performCloning] reports the role as cloned, adds one to its
  count and goes on with the next role. *)
Theorem substep_failures_not_fatal
    (sourceClient destClient : Client) (role : string)
    (config : CloneConfig) (log : Logger.Logger) (s : State E) :
  let newRole := GenerateNewRoleName role (SourcePattern config) (DestPattern config) in
  let r := cloneSingleRole sourceClient (Some destClient) role newRole config log s in
  DryRun config = false →
  (∃ c, c ∈ calls_of (trace r) ∧
        is_CreateRole (call_request c) = true ∧ call_error c = None) →
  value r = Return None ∧
  warned (trace r) ∧
  (∃ roleInfo,
     value (GetRoleInfo sourceClient role s) = Ok roleInfo ∧
     (∀ policyArn, policyArn ∈ ManagedPolicies roleInfo →
        requested (profile destClient) (ReqAttachRolePolicy newRole policyArn)
          (trace r)) ∧
     (∀ policyName policyDocument,
        InlinePolicies roleInfo !! policyName = Some policyDocument →
        requested (profile destClient)
          (ReqPutRolePolicy newRole
             (GenerateNewRoleName policyName (SourcePattern config)
                (DestPattern config))
             (ReplacePatternInJSON policyDocument (SourcePattern config)
                (DestPattern config)))
          (trace r)) ∧
     (Tags roleInfo ≠ ∅ →
        ∃ iamTags,
          requested (profile destClient) (ReqTagRole newRole iamTags) (trace r))) ∧
  ∀ i roles successCount,
    let loop := cloneLoop sourceClient (Some destClient) config log in
    let rest := loop (S i) roles (successCount + 1) (final r) in
    value (loop i (role :: roles) successCount s) = value rest ∧
    trace (loop i (role :: roles) successCount s) =
      log_events log PROGRESS
        ("[" +:+ pretty (i + 1) +:+ "/" +:+ pretty (length (Roles config)) +:+ "] " +:+
         "Cloning: " +:+ role +:+ " → " +:+ newRole) ++
      trace r ++
      log_events log SUCCESS
        ("Successfully cloned: " +:+ role +:+ " → " +:+ newRole) ++
      trace rest.
Proof.
  intros newRole r Hdry Hcreated.
  destruct (cloneSingleRole_created sourceClient destClient role newRole config log s
              Hdry Hcreated) as (roleInfo & before & s' & Hinfo & Hvalue & Hbefore & Htrace).
  fold r in Hvalue, Htrace.
  split; [exact Hvalue|]. split.
  { rewrite Htrace. apply warned_app; [done|].
    apply (copyPoliciesAndTags_warned destClient newRole roleInfo config log s'). }
  split.
  { exists roleInfo. split; [done|]. rewrite Htrace. repeat split.
    - intros policyArn Harn. apply requested_app_r.
      by apply (copyPoliciesAndTags_attaches destClient newRole roleInfo config log s').
    - intros policyName policyDocument Hdoc. apply requested_app_r.
      by apply (copyPoliciesAndTags_puts destClient newRole roleInfo config log s').
    - intros Hne.
      destruct (copyPoliciesAndTags_tags destClient newRole roleInfo config log s' Hne)
        as (iamTags & Hreq & _).
      exists iamTags. by apply requested_app_r. }
  intros i roles successCount loop rest. unfold loop. cbn [cloneLoop].
  fold newRole. fold r. autorewrite with run_eq. fold r. rewrite Hvalue.
  autorewrite with run_eq. done.
Qed.

(** C9. Once the source client and, unless the run is a dry run, the
  destination client are constructed, [performCloning] returns [nil]
  whatever the single roles do (none of them has to succeed): the failures
  only show in the summary line, which carries the number of roles reported
  as cloned out of the number selected. So a wizard that reaches the
  execution step always logs "Role cloning completed successfully!" after
  it and returns without [os.Exit]. *)
Theorem performCloning_never_fails
    (config : CloneConfig) (log : Logger.Logger) (s : State E) (c : Client) :
  value (NewClient (SourceProfile config) s) = Ok c →
  (DryRun config = false →
   ∃ d, value (NewClient (DestProfile config)
                 (final (NewClient (SourceProfile config) s))) = Ok d) →
  value (performCloning config log s) = Return None ∧
  (let t := trace (performCloning config log s) in
   count_cloned t ≤ length (Roles config) ∧
   Console SUCCESS (summary_line (count_cloned t) (length (Roles config))) ∈ t) ∧
  ∀ config0 s0,
    reaches_execution config0 s0 config log s →
    value (runEnhancedClone config0 s0) = Return Returned ∧
    ∃ before,
      trace (runEnhancedClone config0 s0) =
      before ++ trace (performCloning config log s) ++
      log_events log SUCCESS "🎉 Role cloning completed successfully!" ++
      log_events log INFO ("Log file saved: " +:+ LogFile config) ++
      close_events log.
Proof.
  intros Hsrc Hdst.
  pose proof (performCloning_nil config log s c Hsrc Hdst) as Hnil.
  split; [exact Hnil|]. split.
  - by apply (performCloning_summary config log s c).
  - intros config0 s0 Hreach. by apply runEnhancedClone_completes.
Qed.

Lemma silent_tags_carry config tags (ev : Event) : silent ev → tags_carry config tags ev.
Proof. by destruct ev. Qed.

(** Every tag request of steps 3 to 5 carries exactly the processed tags
  of the source role. *)
Lemma copyPoliciesAndTags_tag_requests destClient destRole roleInfo config log :
  always (tags_carry config (Tags roleInfo))
    (copyPoliciesAndTags destClient destRole roleInfo config log : M E unit).
Proof.
  assert (∀ A (m : M E A), always silent m →
            always (tags_carry config (Tags roleInfo)) m) as Hsilent.
  { intros A m Hm. eapply always_mono; [exact Hm|]. apply silent_tags_carry. }
  unfold copyPoliciesAndTags.
  apply always_bind; [apply Hsilent; always_auto|]. intros _.
  apply always_bind.
  { apply always_forEach. intros policyArn _. apply always_bind.
    - eapply always_mono; [apply AttachManagedPolicy_requests|].
      intros [] Hev; try done. simpl in *. destruct Hev as [_ Hev].
      by destruct (call_request c).
    - intros err. apply Hsilent. always_auto. }
  intros _.
  apply always_bind; [apply Hsilent; always_auto|]. intros _.
  apply always_bind; [apply always_outside|]. intros entries.
  apply always_bind.
  { apply always_forEach. intros [policyName policyDocument] _.
    apply always_bind; [apply Hsilent; always_auto|]. intros _.
    apply always_bind.
    - eapply always_mono; [apply CreateInlinePolicy_requests|].
      intros [] Hev; try done. simpl in *. destruct Hev as [_ Hev].
      by destruct (call_request c).
    - intros err. apply Hsilent. always_auto. }
  intros _.
  destruct (0 <? size (Tags roleInfo)); [|apply always_ret].
  apply always_bind; [apply Hsilent; always_auto|]. intros _.
  eapply post_bind; [apply map_range_post|].
  intros tagEntries t0 [Hperm ->]. cbn [app].
  apply always_bind; [apply Hsilent; always_auto|]. intros _.
  eapply post_bind; [apply TagRole_post|].
  intros err t1 [(_ & -> & ->)|(_ & iamTags & e & Htags & -> & ->)].
  - apply always_after; [constructor|]. apply Hsilent. always_auto.
  - apply always_after.
    + constructor; [|constructor]. simpl. intros key value.
      rewrite Htags, elem_of_map_to_list.
      by rewrite (processTags_lookup config (Tags roleInfo)).
    + apply Hsilent. always_auto.
Qed.

Lemma elem_of_app_l_mono {A} (x : A) (t t' : list A) : x ∈ t → x ∈ t ++ t'.
Proof. intros. apply elem_of_app. by left. Qed.

Lemma elem_of_app_r_mono {A} (x : A) (t t' : list A) : x ∈ t → x ∈ t' ++ t.
Proof. intros. apply elem_of_app. by right. Qed.

(** The verbose preview of a dry run shows, for the [Environment] tag,
  its old value and the trimmed destination pattern. *)
Lemma dryRunPreview_environment roleInfo config log (old : string) :
  Verbose config = true → Logger.verbose log = true →
  Tags roleInfo !! "Environment" = Some old →
  post (dryRunPreview roleInfo config log : M E unit)
       (λ _ t, Console DEBUG ("    - Environment: " +:+ old +:+ " → " +:+
                              envValue (DestPattern config)) ∈ t).
Proof.
  intros Hverbose Hlog Hold. unfold dryRunPreview. rewrite Hverbose.
  do 5 (apply post_bind_r; [intros t t'; apply elem_of_app_r_mono|]; intros ?).
  assert ((0 <? size (Tags roleInfo)) = true) as ->.
  { apply Nat.ltb_lt. destruct (size (Tags roleInfo)) eqn:Hsize; [|lia].
    apply map_size_empty_iff in Hsize. by rewrite Hsize in Hold. }
  apply post_bind_r; [intros t t'; apply elem_of_app_r_mono|]. intros _.
  eapply post_bind; [apply map_range_post|].
  intros entries t0 [Hperm ->]. cbn [app].
  eapply post_mono.
  { apply (forEach_each entries _
             (λ entry t, entry = ("Environment", old) →
                         Console DEBUG ("    - Environment: " +:+ old +:+ " → " +:+
                                        envValue (DestPattern config)) ∈ t)).
    - intros x t t' Hx Heq. by apply elem_of_app_l_mono, Hx.
    - intros x t t' Hx Heq. by apply elem_of_app_r_mono, Hx.
    - intros [key value] _ s [= -> ->]. cbn [String.eqb Ascii.eqb Bool.eqb].
      rewrite Debug_run, Hlog. apply elem_of_log_events. }
  intros u t Ht. apply (Ht ("Environment", old)); [|done].
  rewrite Hperm. by apply elem_of_map_to_list.
Qed.

(** Whatever the mode, a tag request that [cloneSingleRole] sends carries
  exactly the processed tags of the role it fetched. *)
Lemma cloneSingleRole_tag_requests sourceClient destClient sourceRole destRole
    config log (s : State E) (c : Call) (roleName : string)
    (iamTags : list (string * string)) :
  c ∈ calls_of (trace (cloneSingleRole sourceClient destClient sourceRole destRole
                         config log s)) →
  call_request c = ReqTagRole roleName iamTags →
  ∃ roleInfo,
    value (GetRoleInfo sourceClient sourceRole s) = Ok roleInfo ∧
    ∀ key value,
      (key, value) ∈ iamTags ↔
      processedValue config key <$> Tags roleInfo !! key = Some value.
Proof.
  intros Hc%elem_of_calls_of Hreq.
  assert (∀ t, Forall harmless t → Called c ∈ t → False) as Hno.
  { intros t Ht Hct. rewrite Forall_forall in Ht. apply Ht in Hct.
    simpl in Hct. by rewrite Hreq in Hct. }
  destruct (DryRun config) eqn:Hdry.
  { exfalso. eapply Hno; [|exact Hc].
    eapply Forall_impl; [|apply reads_only_harmless].
    by apply (cloneSingleRole_dry sourceClient destClient sourceRole destRole
                config log Hdry s). }
  destruct destClient as [destClient|].
  - destruct (cloneSingleRole_run sourceClient destClient sourceRole destRole config
                log s Hdry)
      as [Hnone|(roleInfo & before & s' & Hinfo & _ & Hbefore & Htrace)].
    + exfalso. rewrite Forall_forall in Hnone. apply Hnone in Hc. simpl in Hc.
      rewrite Hreq in Hc. by destruct Hc as [|[]].
    + rewrite Htrace in Hc. apply elem_of_app in Hc as [Hc|Hc].
      * exfalso. rewrite Forall_forall in Hbefore. apply Hbefore in Hc. simpl in Hc.
        rewrite Hreq in Hc. by destruct Hc.
      * exists roleInfo. split; [done|].
        pose proof (copyPoliciesAndTags_tag_requests destClient destRole roleInfo
                      config log s') as Hcarry.
        simpl in Hcarry. rewrite Forall_forall in Hcarry. apply Hcarry in Hc.
        simpl in Hc. by rewrite Hreq in Hc.
  - exfalso. eapply Hno; [|exact Hc].
    unfold cloneSingleRole. autorewrite with run_eq.
    assert (Forall harmless (trace (GetRoleInfo sourceClient sourceRole s))) as Hget.
    { eapply Forall_impl; [apply (GetRoleInfo_reads sourceClient sourceRole s)|].
      apply request_of_harmless. }
    pose proof (debug_events_harmless log) as Hdebug.
    destruct (value (GetRoleInfo sourceClient sourceRole s));
      autorewrite with run_eq; rewrite ?Hdry; autorewrite with run_eq;
      rewrite !Forall_app; repeat split; done.
Qed.

(** C1 (amended). The value that goes under the key [Environment],
  in the preview of a dry run and in the tags sent with TagRole alike, is
  the destination pattern passed through
  [TrimSuffix(TrimSuffix(TrimSuffix(., "_"), "-"), ".")], and never the
  result of the substring substitution: at most one trailing [_], then at
  most one trailing [-], then at most one trailing [.] is taken off. On a
  destination pattern that ends in at most one separator this is the
  pattern with its trailing separator stripped, and it ends in none of
  [_], [-], [.]. *)
Theorem environment_tag_value
    (sourceClient : Client) (destClient : option Client) (sourceRole destRole : string)
    (config : CloneConfig) (log : Logger.Logger) (s : State E) :
  let r := cloneSingleRole sourceClient destClient sourceRole destRole config log s in
  let env := envValue (DestPattern config) in
  env = GoStrings.TrimSuffix
          (GoStrings.TrimSuffix (GoStrings.TrimSuffix (DestPattern config) "_") "-")
          "." ∧
  (∀ c roleName iamTags,
     c ∈ calls_of (trace r) → call_request c = ReqTagRole roleName iamTags →
     ∃ roleInfo,
       value (GetRoleInfo sourceClient sourceRole s) = Ok roleInfo ∧
       ∀ value, ("Environment", value) ∈ iamTags ↔
                is_Some (Tags roleInfo !! "Environment") ∧ value = env) ∧
  (∀ roleInfo old,
     DryRun config = true → Verbose config = true → Logger.verbose log = true →
     value (GetRoleInfo sourceClient sourceRole s) = Ok roleInfo →
     Tags roleInfo !! "Environment" = Some old →
     Console DEBUG ("    - Environment: " +:+ old +:+ " → " +:+ env) ∈ trace r) ∧
  (∀ (tags : gmap string string) entries,
     entries ≡ₚ map_to_list tags → is_Some (tags !! "Environment") →
     processTags config entries !! "Environment" = Some env) ∧
  (String.length (DestPattern config) ≤
     S (String.length (spec_stripTrailingSeparators (DestPattern config))) →
   env = spec_stripTrailingSeparators (DestPattern config) ∧
   endsInSeparator env = false).
Proof.
  intros r env. split; [done|]. split; [|split; [|split]].
  - intros c roleName iamTags Hc Hreq.
    destruct (cloneSingleRole_tag_requests _ _ _ _ _ _ _ _ _ _ Hc Hreq)
      as (roleInfo & Hinfo & Htags).
    exists roleInfo. split; [done|]. intros value. rewrite Htags.
    unfold processedValue. cbn [String.eqb Ascii.eqb Bool.eqb]. fold env.
    destruct (Tags roleInfo !! "Environment"); simpl; split.
    + intros [= <-]. by split; [eexists|].
    + by intros [_ ->].
    + done.
    + by intros [[] _].
  - intros roleInfo old Hdry Hverbose Hlog Hinfo Hold.
    unfold r, cloneSingleRole. autorewrite with run_eq. rewrite Hinfo.
    autorewrite with run_eq. rewrite Hdry. autorewrite with run_eq.
    rewrite !elem_of_app. do 3 right. left.
    by apply (dryRunPreview_environment roleInfo config log old).
  - intros tags entries Hperm [old Hold].
    rewrite (processTags_lookup config tags) by done. by rewrite Hold.
  - apply envValue_one_separator.
Qed.

(** *** Errors of the service *)

Lemma failed_with_nil (e : string) : ¬ failed_with [] e.
Proof. intros (call & Hc & _). by apply elem_of_nil in Hc. Qed.

Lemma failed_with_app (t1 t2 : list Event) (e : string) :
  failed_with (t1 ++ t2) e ↔ failed_with t1 e ∨ failed_with t2 e.
Proof.
  unfold failed_with. split.
  - intros (call & Hc & He). apply elem_of_app in Hc as [Hc|Hc]; eauto.
  - intros [(call & Hc & He)|(call & Hc & He)]; exists call;
      (split; [apply elem_of_app; auto|done]).
Qed.

Lemma failed_with_call (p : string) (req : Request) (err : error) (e : string) :
  failed_with [Called (Build_Call p req err)] e ↔ err = Some e.
Proof.
  unfold failed_with. split.
  - intros (call & Hc & He). by apply list_elem_of_singleton in Hc as [= ->].
  - intros ->. eexists. split; [left|done].
Qed.

Lemma request_post {A} (p : string) (req : Request) (f : E → A * E)
    (err : A → error) :
  post (request p req f err) (λ r t, t = [Called (Build_Call p req (err r))]).
Proof. by apply post_request. Qed.

Lemma outside_post {A} (f : E → A * E) : post (outside f : M E A) (λ _ t, t = []).
Proof. by apply post_outside. Qed.

Lemma record_post (c : Call) : post (record c : M E unit) (λ _ t, t = [Called c]).
Proof. by apply post_emit. Qed.

(** A listing or a loop of the gateway returns an error as soon as a
  request of its fails, and then the error of that request. *)
Lemma listRolesPages_errors (c : Client) (prefix : string) pages allRoles :
  post (listRolesPages c prefix pages allRoles : M E _)
       (λ r t, ∀ e, failed_with t e → r = Err ("failed to list roles: " +:+ e)).
Proof.
  revert allRoles. induction pages as [|page pages IH]; intros allRoles; simpl.
  - apply post_ret. intros e He. by apply failed_with_nil in He.
  - eapply post_bind; [apply record_post|].
    intros [] t1 ->. destruct page as [roles|e0].
    + eapply post_mono; [apply IH|]. intros r t2 Hr e.
      rewrite failed_with_app, failed_with_call. intros [|]; [done|auto].
    + apply post_ret. intros e.
      rewrite failed_with_app, failed_with_call. simpl.
      intros [[= ->]|He]; [done|]. by apply failed_with_nil in He.
Qed.

(** The same for the helpers of [GetRoleInfo], with the request that
  failed: each helper sends its own kind of request, for the role it was
  called with. *)
Lemma managedPoliciesPages_errors (c : Client) (roleName : string) pages policies :
  post (managedPoliciesPages c roleName pages policies : M E _)
       (λ r t, ∀ call e, Called call ∈ t → call_error call = Some e →
          call_request call = ReqListAttachedRolePolicies roleName ∧ r = Err e).
Proof.
  revert policies. induction pages as [|page pages IH]; intros policies; simpl.
  - apply post_ret. intros call e Hc. by apply elem_of_nil in Hc.
  - eapply post_bind; [apply record_post|].
    intros [] t1 ->. destruct page as [arns|e0].
    + eapply post_mono; [apply IH|]. intros r t2 Hr call e.
      rewrite elem_of_app, list_elem_of_singleton.
      intros [[= ->]|Hc]; [done|]. by apply Hr.
    + apply post_ret. intros call e.
      rewrite elem_of_app, list_elem_of_singleton.
      intros [[= ->]|Hc]; [|by apply elem_of_nil in Hc]. simpl. by intros [= ->].
Qed.

Lemma inlinePoliciesLoop_errors (c : Client) (roleName : string) names policies :
  post (inlinePoliciesLoop c roleName names policies : M E _)
       (λ r t, ∀ call e, Called call ∈ t → call_error call = Some e →
          (∃ policyName, call_request call = ReqGetRolePolicy roleName policyName) ∧
          r = Err e).
Proof.
  revert policies. induction names as [|name names IH]; intros policies; simpl.
  - apply post_ret. intros call e Hc. by apply elem_of_nil in Hc.
  - eapply post_bind; [apply request_post|].
    intros getOutput t1 ->. destruct getOutput as [policyDocument|e0].
    + destruct (processPolicyDocument policyDocument) as [policyDoc|e1].
      * eapply post_mono; [apply IH|]. intros r t2 Hr call e.
        rewrite elem_of_app, list_elem_of_singleton.
        intros [[= ->]|Hc]; [done|]. by apply Hr.
      * apply post_ret. intros call e.
        rewrite elem_of_app, list_elem_of_singleton.
        intros [[= ->]|Hc]; [done|]. by apply elem_of_nil in Hc.
    + apply post_ret. intros call e.
      rewrite elem_of_app, list_elem_of_singleton.
      intros [[= ->]|Hc]; [|by apply elem_of_nil in Hc]. simpl.
      intros [= ->]. by split; [eexists|].
Qed.

Lemma getManagedPolicies_errors (c : Client) (roleName : string) :
  post (getManagedPolicies c roleName : M E _)
       (λ r t, ∀ call e, Called call ∈ t → call_error call = Some e →
          call_request call = ReqListAttachedRolePolicies roleName ∧ r = Err e).
Proof.
  unfold getManagedPolicies. eapply post_bind; [apply outside_post|].
  intros listing t ->. apply managedPoliciesPages_errors.
Qed.

Lemma getInlinePolicies_errors (c : Client) (roleName : string) :
  post (getInlinePolicies c roleName : M E _)
       (λ r t, ∀ call e, Called call ∈ t → call_error call = Some e →
          (call_request call = ReqListRolePolicies roleName ∨
           ∃ policyName, call_request call = ReqGetRolePolicy roleName policyName) ∧
          r = Err e).
Proof.
  unfold getInlinePolicies. eapply post_bind; [apply request_post|].
  intros listOutput t ->. destruct listOutput as [policyNames|e0].
  - eapply post_mono; [apply inlinePoliciesLoop_errors|]. intros r t2 Hr call e.
    rewrite elem_of_app, list_elem_of_singleton.
    intros [[= ->]|Hc]; [done|]. intros He.
    destruct (Hr _ _ Hc He) as [Hreq ->]. by split; [right|].
  - apply post_ret. intros call e.
    rewrite elem_of_app, list_elem_of_singleton.
    intros [[= ->]|Hc]; [|by apply elem_of_nil in Hc]. simpl.
    intros [= ->]. by split; [left|].
Qed.

Lemma getRoleTags_errors (c : Client) (roleName : string) :
  post (getRoleTags c roleName : M E _)
       (λ r t, ∀ call e, Called call ∈ t → call_error call = Some e →
          call_request call = ReqListRoleTags roleName ∧ r = Err e).
Proof.
  unfold getRoleTags. eapply post_bind; [apply request_post|].
  intros output t ->. destruct output as [tags|e0]; apply post_ret; intros call e;
    rewrite elem_of_app, list_elem_of_singleton;
    (intros [[= ->]|Hc]; [|by apply elem_of_nil in Hc]); simpl.
  - done.
  - by intros [= ->].
Qed.

(** [GetRoleInfo] returns an error as soon as a request of its fails: the
  error of that request with the step that failed in front, which the
  kind of the request determines. *)
Lemma GetRoleInfo_errors (c : Client) (roleName : string) :
  post (GetRoleInfo c roleName : M E _)
       (λ r t, ∀ call e, Called call ∈ t → call_error call = Some e →
          match call_request call with
          | ReqGetRole name =>
            name = roleName ∧
            r = Err ("failed to get role " +:+ roleName +:+ ": " +:+ e)
          | ReqListAttachedRolePolicies name =>
            name = roleName ∧ r = Err ("failed to get managed policies: " +:+ e)
          | ReqListRolePolicies name | ReqGetRolePolicy name _ =>
            name = roleName ∧ r = Err ("failed to get inline policies: " +:+ e)
          | ReqListRoleTags name =>
            name = roleName ∧ r = Err ("failed to get tags: " +:+ e)
          | _ => False
          end).
Proof.
  unfold GetRoleInfo.
  eapply post_bind; [apply request_post|].
  intros roleOutput t1 ->. destruct roleOutput as [role|e0].
  2:{ apply post_ret. intros call e. rewrite elem_of_app, list_elem_of_singleton.
      intros [[= ->]|Hc]; [|by apply elem_of_nil in Hc]. simpl. by intros [= ->]. }
  destruct (processPolicyDocument (role_AssumeRolePolicyDocument role))
    as [trustPolicy|e1].
  2:{ apply post_ret. intros call e. rewrite elem_of_app, list_elem_of_singleton.
      intros [[= ->]|Hc]; [done|]. by apply elem_of_nil in Hc. }
  eapply post_bind; [apply getManagedPolicies_errors|].
  intros managedPolicies t2 Hmanaged. destruct managedPolicies as [managedPolicies|e2].
  2:{ apply post_ret. intros call e.
      rewrite !elem_of_app, list_elem_of_singleton.
      intros [[= ->]|[Hc|Hc]] He; [done| |by apply elem_of_nil in Hc].
      destruct (Hmanaged _ _ Hc He) as [-> [= ->]]. done. }
  eapply post_bind; [apply getInlinePolicies_errors|].
  intros inlinePolicies t3 Hinline. destruct inlinePolicies as [inlinePolicies|e3].
  2:{ apply post_ret. intros call e.
      rewrite !elem_of_app, list_elem_of_singleton.
      intros [[= ->]|[Hc|[Hc|Hc]]] He; [done| | |by apply elem_of_nil in Hc].
      - by destruct (Hmanaged _ _ Hc He) as [_ ?].
      - destruct (Hinline _ _ Hc He) as [[->|[policyName ->]] [= ->]]; done. }
  eapply post_bind; [apply getRoleTags_errors|].
  intros tags t4 Htags. destruct tags as [tags|e4]; apply post_ret; intros call e;
    rewrite !elem_of_app, list_elem_of_singleton;
    intros [[= ->]|[Hc|[Hc|[Hc|Hc]]]] He; try done;
      try (by destruct (Hmanaged _ _ Hc He) as [_ ?]);
      try (by destruct (Hinline _ _ Hc He) as [_ ?]);
      try (by apply elem_of_nil in Hc).
  - by destruct (Htags _ _ Hc He) as [_ ?].
  - destruct (Htags _ _ Hc He) as [-> [= ->]]. done.
Qed.

Lemma request_value {A} (p : string) (req : Request) (f : E → A * E)
    (err : A → error) (s : State E) :
  value (request p req f err s) = (f (ext s)).1.
Proof.
  unfold request, record, outside, emit, mbind, M_bind, mret, M_ret.
  by destruct (f (ext s)).
Qed.

(** C6 (amended). Every gateway operation that has an error result hands
  on each failure of the service: the text of its error is the text of
  the service's error with the failing operation in front, and with the
  role name and the policy identifier for CreateRole, AttachManagedPolicy,
  CreateInlinePolicy, TagRole and the GetRole request of GetRoleInfo.
  ListRoles and the listing steps of GetRoleInfo name the step only: in
  [GetRoleInfo] a failed request is one for the role asked for, and the
  error is "failed to get managed policies: <e>" for a failed
  ListAttachedRolePolicies, "failed to get inline policies: <e>" for a
  failed ListRolePolicies or GetRolePolicy, and "failed to get tags: <e>"
  for a failed ListRoleTags. [RoleExists] has a boolean result: a failed
  GetRole makes it answer [false], whatever the failure was. *)
Theorem gateway_errors_surface (c : Client) (roleName : string) :
  post (GetRoleInfo c roleName : M E _)
       (λ r t, ∀ call e, Called call ∈ t → call_error call = Some e →
          match call_request call with
          | ReqGetRole name =>
            name = roleName ∧
            r = Err ("failed to get role " +:+ roleName +:+ ": " +:+ e)
          | ReqListAttachedRolePolicies name =>
            name = roleName ∧ r = Err ("failed to get managed policies: " +:+ e)
          | ReqListRolePolicies name | ReqGetRolePolicy name _ =>
            name = roleName ∧ r = Err ("failed to get inline policies: " +:+ e)
          | ReqListRoleTags name =>
            name = roleName ∧ r = Err ("failed to get tags: " +:+ e)
          | _ => False
          end) ∧
  (∀ (s : State E) e,
     (iam_GetRole (profile c) roleName (ext s)).1 = Err e →
     value (GetRoleInfo c roleName s) =
     Err ("failed to get role " +:+ roleName +:+ ": " +:+ e)) ∧
  (∀ prefix,
     post (ListRoles c prefix : M E _)
          (λ r t, ∀ e, failed_with t e → r = Err ("failed to list roles: " +:+ e))) ∧
  (∀ trustPolicy description,
     post (CreateRole c roleName trustPolicy description : M E _)
          (λ r t, ∀ e, failed_with t e →
                       r = Some ("failed to create role " +:+ roleName +:+ ": " +:+ e))) ∧
  (∀ policyArn,
     post (AttachManagedPolicy c roleName policyArn : M E _)
          (λ r t, ∀ e, failed_with t e →
                       r = Some ("failed to attach policy " +:+ policyArn +:+
                                 " to role " +:+ roleName +:+ ": " +:+ e))) ∧
  (∀ policyName policyDocument,
     post (CreateInlinePolicy c roleName policyName policyDocument : M E _)
          (λ r t, ∀ e, failed_with t e →
                       r = Some ("failed to create inline policy " +:+ policyName +:+
                                 " for role " +:+ roleName +:+ ": " +:+ e))) ∧
  (∀ tags,
     post (TagRole c roleName tags : M E _)
          (λ r t, ∀ e, failed_with t e →
                       r = Some ("failed to tag role " +:+ roleName +:+ ": " +:+ e))) ∧
  post (RoleExists c roleName : M E _) (λ r t, ∀ e, failed_with t e → r = false).
Proof.
  split; [apply GetRoleInfo_errors|]. split.
  { intros s e He. unfold GetRoleInfo. rewrite value_bind, request_value, He.
    reflexivity. }
  split.
  { intros prefix. unfold ListRoles. eapply post_bind; [apply outside_post|].
    intros listing t ->. apply listRolesPages_errors. }
  split.
  { intros trustPolicy description. eapply post_mono; [apply CreateRole_post|].
    intros r t (e0 & -> & ->) e. rewrite failed_with_call. by intros ->. }
  split.
  { intros policyArn. eapply post_mono; [apply AttachManagedPolicy_post|].
    intros r t (e0 & -> & ->) e. rewrite failed_with_call. by intros ->. }
  split.
  { intros policyName policyDocument.
    eapply post_mono; [apply CreateInlinePolicy_post|].
    intros r t (e0 & -> & ->) e. rewrite failed_with_call. by intros ->. }
  split.
  { intros tags. eapply post_mono; [apply TagRole_post|].
    intros r t [(_ & -> & ->)|(_ & iamTags & e0 & _ & -> & ->)] e.
    - intros He. by apply failed_with_nil in He.
    - rewrite failed_with_call. by intros ->. }
  unfold RoleExists. eapply post_bind; [apply request_post|].
  intros r t ->. apply post_ret. intros e.
  rewrite failed_with_app, failed_with_call.
  intros [He|He]; [|by apply failed_with_nil in He]. by destruct r.
Qed.

(** *** Role selection *)

(** One bad part is enough for [parseRoleSelection] to reject the whole
  selection, whatever stands before and after it. *)
Lemma parseParts_rejects (parts allRoles selectedRoles : list string) (part : string) :
  part ∈ parts →
  GoStrings.TrimSpace part ≠ "" →
  (GoStrconv.Atoi (GoStrings.TrimSpace part) = None ∨
   ∃ index, GoStrconv.Atoi (GoStrings.TrimSpace part) = Some index ∧
            (index < 1 ∨ Z.of_nat (length allRoles) < index)%Z) →
  ∃ e, parseParts parts allRoles selectedRoles = Err e.
Proof.
  intros Hin Hne Hbad. revert selectedRoles.
  induction parts as [|p parts IH]; intros selectedRoles.
  { by apply elem_of_nil in Hin. }
  cbn [parseParts].
  apply elem_of_cons in Hin as [<-|Hin].
  - destruct (String.eqb_spec (GoStrings.TrimSpace part) "") as [|_]; [done|].
    destruct Hbad as [->|(index & -> & Hrange)]; [by eexists|].
    assert (((index <? 1) || (index >? Z.of_nat (length allRoles)))%Z = true) as ->.
    { apply orb_true_iff. destruct Hrange; [left|right]; lia. }
    by eexists.
  - destruct (String.eqb (GoStrings.TrimSpace p) ""); [by apply IH|].
    destruct (GoStrconv.Atoi (GoStrings.TrimSpace p)) as [index|]; [|by eexists].
    destruct ((index <? 1) || (index >? Z.of_nat (length allRoles)))%Z; [by eexists|].
    by apply IH.
Qed.

Lemma forEachIndexed_Print_final {A} (i0 : nat) (xs : list A) (text : nat → A → string)
    (s : State E) :
  final (forEachIndexed i0 xs (λ i x, Print (text i x)) s) = s.
Proof.
  revert i0. induction xs as [|x xs IH]; intros i0; simpl; [done|].
  by rewrite final_bind, Print_run, final_triple.
Qed.

(** A line that holds [all] in any ASCII spelling is read, trimmed and
  lowered to [all]. *)
Lemma selection_all (selection rest : string) (s : State E) :
  selection ∈ ["all"; "ALL"; "All"; "aLL"; "alL"; "aLl"; "AlL"; "ALl"] →
  stdin s = selection +:+ nl +:+ rest →
  GoStrings.ToLower (GoStrings.TrimSpace (value (ReadString_nl s))) = "all".
Proof.
  intros Hsel Hstdin. unfold ReadString_nl, value. cbn [fst]. rewrite Hstdin.
  rewrite !elem_of_cons, elem_of_nil in Hsel.
  destruct Hsel as [->|[->|[->|[->|[->|[->|[->|[->|[]]]]]]]]]; reflexivity.
Qed.

(** With roles discovered, the answer [all] selects every one of them. *)
Lemma discoverAndSelectRoles_all config log (s : State E) c allRoles :
  let s1 := final (NewClient (SourceProfile config) s) in
  let listed := ListRoles c (SourcePattern config) s1 in
  value (NewClient (SourceProfile config) s) = Ok c →
  value listed = Ok allRoles → allRoles ≠ [] →
  GoStrings.ToLower (GoStrings.TrimSpace (value (ReadString_nl (final listed)))) = "all" →
  value (discoverAndSelectRoles config log s) = Return (set_Roles allRoles config, None).
Proof.
  intros s1 listed Hclient Hlisted Hne Hall. unfold discoverAndSelectRoles.
  autorewrite with run_eq. rewrite Hclient. autorewrite with run_eq.
  fold s1. fold listed. rewrite Hlisted.
  assert ((length allRoles =? 0) = false) as -> by (by destruct allRoles).
  autorewrite with run_eq. rewrite forEachIndexed_Print_final.
  rewrite Hall. cbn [String.eqb Ascii.eqb Bool.eqb]. by autorewrite with run_eq.
Qed.

(** C4 (amended). On a list of five discovered roles the selection
  [1,3,5] yields the roles at the positions 1, 3 and 5 in that order; [0]
  and [6] are rejected as out of range and select nothing; the answer
  [all], in any spelling of capitals and small letters, selects every
  discovered role. In general a comma-separated part that, once trimmed,
  is not empty and is no number or lies outside [1, length] makes the
  whole selection fail with an error; a part that is empty once trimmed is
  skipped. *)
Theorem role_selection (r1 r2 r3 r4 r5 : string) :
  parseRoleSelection "1,3,5" [r1; r2; r3; r4; r5] = Ok [r1; r3; r5] ∧
  parseRoleSelection "0" [r1; r2; r3; r4; r5] = Err "number out of range: 0" ∧
  parseRoleSelection "6" [r1; r2; r3; r4; r5] = Err "number out of range: 6" ∧
  (∀ config log (s : State E) c allRoles selection rest,
     let s1 := final (NewClient (SourceProfile config) s) in
     let listed := ListRoles c (SourcePattern config) s1 in
     value (NewClient (SourceProfile config) s) = Ok c →
     value listed = Ok allRoles → allRoles ≠ [] →
     selection ∈ ["all"; "ALL"; "All"; "aLL"; "alL"; "aLl"; "AlL"; "ALl"] →
     stdin (final listed) = selection +:+ nl +:+ rest →
     value (discoverAndSelectRoles config log s) =
     Return (set_Roles allRoles config, None)) ∧
  (∀ selection allRoles part,
     part ∈ GoStrings.Split selection "," →
     GoStrings.TrimSpace part ≠ "" →
     (GoStrconv.Atoi (GoStrings.TrimSpace part) = None ∨
      ∃ index, GoStrconv.Atoi (GoStrings.TrimSpace part) = Some index ∧
               (index < 1 ∨ Z.of_nat (length allRoles) < index)%Z) →
     ∃ e, parseRoleSelection selection allRoles = Err e) ∧
  (∀ parts allRoles selectedRoles part,
     GoStrings.TrimSpace part = "" →
     parseParts (part :: parts) allRoles selectedRoles =
     parseParts parts allRoles selectedRoles).
Proof.
  split; [reflexivity|]. split; [reflexivity|]. split; [reflexivity|].
  split; [|split].
  - intros config log s c allRoles selection rest s1 listed Hc Hl Hne Hsel Hstdin.
    apply (discoverAndSelectRoles_all config log s c allRoles); try done.
    by apply (selection_all selection rest).
  - intros selection allRoles part Hin Hne Hbad.
    by apply (parseParts_rejects _ _ _ part).
  - intros parts allRoles selectedRoles part Hempty.
    cbn [parseParts]. by rewrite Hempty.
Qed.

(** *** The empty source pattern *)

Lemma filter_all {A} (P : A → Prop) `{∀ x, Decision (P x)} (l : list A) :
  (∀ x, P x) → filter P l = l.
Proof.
  intros HP. induction l as [|x l IH]; [done|].
  rewrite filter_cons_True by done. by rewrite IH.
Qed.

(** With the empty prefix [ListRoles] keeps every role of every page. *)
Lemma listRolesPages_empty_prefix (c : Client) (pages : list (list Role))
    (allRoles : list string) (s : State E) :
  value (listRolesPages c "" (Ok <$> pages) allRoles s) =
  Ok (allRoles ++ (role_RoleName <$> concat pages)).
Proof.
  revert allRoles s. induction pages as [|page pages IH]; intros allRoles s.
  - simpl. by rewrite app_nil_r.
  - cbn [fmap list_fmap listRolesPages]. rewrite value_bind.
    rewrite IH, filter_all by done. cbn [concat]. by rewrite fmap_app, app_assoc.
Qed.

(** The pattern step of the wizard never fails, and an empty answer
  leaves the source pattern empty. *)
Lemma getPatternConfiguration_accepts config log (s : State E) :
  (value (getPatternConfiguration config log s)).2 = None.
Proof.
  unfold getPatternConfiguration. autorewrite with run_eq.
  destruct (String.eqb (SourcePattern config) "");
    autorewrite with run_eq;
    match goal with |- context [String.eqb (DestPattern ?c) ""] =>
      destruct (String.eqb (DestPattern c) "") end;
    by autorewrite with run_eq.
Qed.

Lemma getPatternConfiguration_empty_source config log (s : State E) (rest : string) :
  SourcePattern config = "" → stdin s = nl +:+ rest →
  SourcePattern (value (getPatternConfiguration config log s)).1 = "".
Proof.
  intros Hsrc Hstdin. unfold getPatternConfiguration. autorewrite with run_eq.
  rewrite Hsrc. cbn [String.eqb]. autorewrite with run_eq.
  assert (GoStrings.TrimSpace (value (ReadString_nl s)) = "") as ->.
  { unfold ReadString_nl, value. cbn [fst]. by rewrite Hstdin. }
  match goal with |- context [String.eqb (DestPattern ?c) ""] =>
    destruct (String.eqb (DestPattern c) "") end;
    by autorewrite with run_eq.
Qed.

(** C10. With the empty source pattern, which the wizard accepts (its
  pattern step never fails and only trims the answer), and a non-empty
  destination pattern, [GenerateNewRoleName] and [ReplacePatternInJSON]
  do not return their input: [strings.ReplaceAll] puts the destination
  pattern in front of every character (every UTF-8 sequence, which on
  ASCII text is every byte) and at the end. [ListRoles] with the empty
  prefix returns the roles of all pages the service lists. *)
Theorem empty_source_pattern (text destPattern : string) :
  destPattern ≠ "" →
  GenerateNewRoleName text "" destPattern =
    foldr (λ r acc, destPattern +:+ r +:+ acc) destPattern (GoUtf8.runes text) ∧
  ReplacePatternInJSON text "" destPattern =
    foldr (λ r acc, destPattern +:+ r +:+ acc) destPattern (GoUtf8.runes text) ∧
  GenerateNewRoleName text "" destPattern ≠ text ∧
  ReplacePatternInJSON text "" destPattern ≠ text ∧
  (GoString.all_bytes GoStrings.isASCII text = true →
   GoUtf8.runes text = (λ c, String c "") <$> list_ascii_of_string text) ∧
  (∀ (c : Client) (s : State E) (pages : list (list Role)),
     all_pages (iam_ListRoles (profile c) (ext s)).1 = Ok <$> pages →
     value (ListRoles c "" s) = Ok (role_RoleName <$> concat pages)) ∧
  (∀ config log (s : State E),
     (value (getPatternConfiguration config log s)).2 = None) ∧
  (∀ config log (s : State E) rest,
     SourcePattern config = "" → stdin s = nl +:+ rest →
     SourcePattern (value (getPatternConfiguration config log s)).1 = "").
Proof.
  intros Hne.
  destruct (PatternFacts.GenerateNewRoleName_empty_source text destPattern Hne)
    as [Heq Hneq].
  split; [exact Heq|]. split; [exact Heq|]. split; [exact Hneq|].
  split; [exact Hneq|]. split.
  { intros Hascii. by apply PatternFacts.runes_fuel_ascii. }
  split.
  { intros c s pages Hpages. unfold ListRoles. rewrite value_bind.
    unfold outside at 1 2.
    destruct (iam_ListRoles (profile c) (ext s)) as [listing e] eqn:Hlist.
    cbn [value final fst snd]. simpl in Hpages. rewrite Hpages.
    by rewrite listRolesPages_empty_prefix. }
  split; [apply getPatternConfiguration_accepts|].
  apply getPatternConfiguration_empty_source.
Qed.

End clone.

End CloneFacts.

(** ** The version command *)

Module VersionFacts.
Import CmdVersion.

Lemma setFlag_names (sel : Flag → bool) (f : FlagSet) :
  flag_Name <$> setFlag sel f = flag_Name <$> f.
Proof.
  unfold setFlag. rewrite <- list_fmap_compose. apply list_fmap_ext.
  intros i fl _. simpl. by destruct (sel fl).
Qed.

(** Parsing sets flags, it defines none. *)
Lemma Parse_names (arguments : list string) (f flags : FlagSet) :
  Parse f arguments = Ok flags → flag_Name <$> flags = flag_Name <$> f.
Proof.
  revert f. induction arguments as [|a rest IH]; intros f; cbn [Parse].
  - by intros [= <-].
  - repeat case_match; try done; intros Hp; apply IH in Hp;
      by rewrite ?setFlag_names in Hp.
Qed.

Lemma Lookup_undefined (f : FlagSet) (name : string) :
  name ∉ flag_Name <$> f → Lookup f name = None.
Proof.
  unfold Lookup. induction f as [|fl f IH]; [done|].
  cbn [fmap list_fmap]. rewrite not_elem_of_cons. intros [Hne Hf]. cbn [List.find].
  destruct (String.eqb_spec (flag_Name fl) name) as [Heq|_]; [by subst|]. by apply IH.
Qed.

(** C8. The command defines a flag [explain] with the shorthand [e], and
  its [Run] reads a flag [detailed], which no parse defines: whatever
  the command line is, [Run] prints the one-line version. [--detailed]
  itself is rejected as an unknown flag, and [-e] and [--explain] are
  accepted without any effect. *)
Theorem version_is_never_detailed (b : BuildInfo) (arguments : list string)
    (flags : FlagSet) :
  Parse versionFlags arguments = Ok flags →
  versionCmd_Run b flags = showSimpleVersion b ∧
  version_command b ["--detailed"] = Err "unknown flag: --detailed" ∧
  version_command b ["-e"] = Ok (showSimpleVersion b) ∧
  version_command b ["--explain"] = Ok (showSimpleVersion b).
Proof.
  intros Hparse. split; [|by repeat split].
  unfold versionCmd_Run, GetBool. rewrite Lookup_undefined; [done|].
  rewrite (Parse_names _ _ _ Hparse).
  change (flag_Name <$> versionFlags) with ["verbose"; "dry-run"; "explain"].
  rewrite !elem_of_cons, elem_of_nil. by intros [|[|[|]]].
Qed.

End VersionFacts.

(** ** Renaming *)

Module NamingFacts.
Import GoString GoStrings GoStringFacts Awsclient.

Lemma HasPrefix_Index (s p : string) : HasPrefix s p = true → Index s p = Some 0.
Proof. intros Hp. destruct s; simpl; by rewrite Hp. Qed.

Lemma Count_unfold (s old : string) :
  old ≠ "" →
  Count s old =
  match Index s old with
  | None => 0
  | Some j => S (Count (slice_from s (j + String.length old)) old)
  end.
Proof.
  intros Hne. unfold Count. rewrite (eqb_neq _ _ Hne).
  destruct (Index s old) as [j|] eqn:Hj.
  - pose proof (Index_Some_shorter _ _ _ Hne Hj) as Hlt.
    destruct (String.length s) as [|n] eqn:Hlen; [lia|].
    rewrite countLoop_S, Hj. f_equal. apply countLoop_fuel; (done || lia).
  - destruct (String.length s) as [|n]; [done|]. by rewrite countLoop_S, Hj.
Qed.

Lemma app_inv_length (a b c d : string) :
  a +:+ b = c +:+ d → String.length a = String.length c → a = c ∧ b = d.
Proof.
  revert c. induction a as [|x a IH]; intros [|y c]; simpl; try done.
  intros [= -> Heq] [= Hlen]. destruct (IH _ Heq Hlen) as [-> ->]. done.
Qed.

Lemma app_inv_head (a b d : string) : a +:+ b = a +:+ d → b = d.
Proof. intros Heq. by destruct (app_inv_length _ _ _ _ Heq eq_refl). Qed.

(** Every replaced occurrence changes the length by the difference of
  the lengths of the two patterns. *)
Lemma length_ReplaceAll (n : nat) (old new : string) :
  old ≠ "" →
  ∀ s, String.length s ≤ n →
    String.length (ReplaceAll s old new) + Count s old * String.length old =
    String.length s + Count s old * String.length new.
Proof.
  intros Hne. destruct (decide (old = new)) as [<-|Hon].
  { intros s _. unfold ReplaceAll. by rewrite String.eqb_refl. }
  induction n as [|n IH]; intros s Hlen.
  - apply Nat.le_0_r, length_zero in Hlen as ->.
    rewrite ReplaceAll_unfold, Count_unfold by done.
    destruct old; [done|]. done.
  - rewrite ReplaceAll_unfold, Count_unfold by done.
    destruct (Index s old) as [j|] eqn:Hj; [|lia].
    pose proof (Index_Some_shorter _ _ _ Hne Hj) as Hlt.
    pose proof (Index_Some_length _ _ _ Hj) as Hle.
    specialize (IH (slice_from s (j + String.length old)) ltac:(lia)).
    rewrite !length_app, length_slice_to.
    rewrite length_slice_from in IH. nia.
Qed.

Lemma Contains_Index (s substr : string) :
  Contains s substr = false ↔ Index s substr = None.
Proof. unfold Contains. by destruct (Index s substr). Qed.

Lemma ReplaceAll_changes (s old new : string) (j : nat) :
  old ≠ "" → old ≠ new → Index s old = Some j → ReplaceAll s old new ≠ s.
Proof.
  intros Hne Hon Hj Heq.
  pose proof (length_ReplaceAll (String.length s) old new Hne s (le_n _)) as Hlen.
  rewrite Heq, Count_unfold, Hj in Hlen by done.
  assert (String.length new = String.length old) as Hsame by nia.
  rewrite ReplaceAll_unfold, Hj in Heq by done.
  pose proof (eq_trans Heq (Index_Some _ _ _ Hj)) as Heq'.
  apply app_inv_head in Heq'.
  by destruct (app_inv_length _ _ _ _ Heq' Hsame) as [-> _].
Qed.

(** A name is renamed exactly when the source pattern occurs in it (and
  the two patterns differ); a document likewise. *)
Theorem renamed_iff_pattern_occurs (name src dst : string) :
  src ≠ "" →
  (GenerateNewRoleName name src dst = name ↔ src = dst ∨ Contains name src = false) ∧
  (ReplacePatternInJSON name src dst = name ↔ src = dst ∨ Contains name src = false).
Proof.
  intros Hne. unfold GenerateNewRoleName, ReplacePatternInJSON.
  assert (ReplaceAll name src dst = name ↔ src = dst ∨ Contains name src = false);
    [|done].
  split.
  - intros Heq. destruct (decide (src = dst)) as [|Hon]; [by left|right].
    apply Contains_Index. destruct (Index name src) as [j|] eqn:Hj; [|done].
    by destruct (ReplaceAll_changes name src dst j).
  - intros [<-|Habsent].
    + unfold ReplaceAll. by rewrite String.eqb_refl.
    + by apply ReplaceAll_absent, Contains_Index.
Qed.

(** The length of a new name: every non-overlapping occurrence of the
  source pattern, counted from the left, is exchanged for the destination
  pattern. *)
Theorem length_of_new_name (name src dst : string) :
  src ≠ "" →
  String.length (GenerateNewRoleName name src dst) + Count name src * String.length src =
  String.length name + Count name src * String.length dst.
Proof. intros Hne. by apply (length_ReplaceAll (String.length name)). Qed.

Lemma ReplaceAll_prefix (s old new : string) :
  old ≠ "" → HasPrefix s old = true → HasPrefix (ReplaceAll s old new) new = true.
Proof.
  intros Hne Hp. destruct (decide (old = new)) as [<-|Hon].
  - unfold ReplaceAll. by rewrite String.eqb_refl.
  - rewrite ReplaceAll_unfold, (HasPrefix_Index _ _ Hp), slice_to_0, app_nil_l by done.
    apply HasPrefix_app.
Qed.

End NamingFacts.

(** ** More on the gateway *)

Module GatewayReadFacts.
Import GoString GoStrings GoStringFacts Awsclient GatewayFacts CloneFacts NamingFacts.

Section gateway.
Context {E : Type} `{External E} `{Encoding}.

Lemma outside_run {A} (f : E → A * E) (s : State E) :
  outside f s = ((f (ext s)).1, {| ext := (f (ext s)).2; stdin := stdin s |}, []).
Proof. unfold outside. by destruct (f (ext s)). Qed.

Lemma request_run {A} (p : string) (req : Request) (f : E → A * E)
    (err : A → error) (s : State E) :
  request p req f err s =
  ((f (ext s)).1, {| ext := (f (ext s)).2; stdin := stdin s |},
   [Called (Build_Call p req (err (f (ext s)).1))]).
Proof.
  unfold request, record, emit, mbind, M_bind, mret, M_ret. rewrite outside_run.
  reflexivity.
Qed.

Lemma calls_of_Called {A} (f : A → Call) (l : list A) :
  calls_of ((λ x, Called (f x)) <$> l) = f <$> l.
Proof.
  unfold calls_of. induction l as [|x l IH]; [done|].
  cbn [fmap list_fmap omap list_omap]. by rewrite IH.
Qed.

(** The roles a listing keeps for [prefix]. *)
Lemma listRolesPages_ok (c : Client) (prefix : string) (pages : list (list Role))
    (allRoles : list string) (s : State E) :
  listRolesPages c prefix (Ok <$> pages) allRoles s =
  (Ok (allRoles ++
       filter (λ roleName, String.eqb prefix "" || HasPrefix roleName prefix = true)
              (role_RoleName <$> concat pages)),
   s,
   (λ _, Called (Build_Call (profile c) ReqListRoles None)) <$> pages).
Proof.
  revert allRoles. induction pages as [|page pages IH]; intros allRoles.
  - simpl. by rewrite List.app_nil_r.
  - rewrite fmap_cons. cbn [listRolesPages].
    erewrite run_bind; [|reflexivity]. rewrite IH. autorewrite with run_eq.
    change (concat (page :: pages)) with (page ++ concat pages).
    by rewrite fmap_app, filter_app, (assoc_L (++)).
Qed.

Lemma listRolesPages_fails (c : Client) (prefix : string) (good : list (list Role))
    (e : string) (more : list (result (list Role))) (allRoles : list string)
    (s : State E) :
  listRolesPages c prefix ((Ok <$> good) ++ Err e :: more) allRoles s =
  (Err ("failed to list roles: " +:+ e),
   s,
   ((λ _, Called (Build_Call (profile c) ReqListRoles None)) <$> good) ++
   [Called (Build_Call (profile c) ReqListRoles (Some e))]).
Proof.
  revert allRoles. induction good as [|page good IH]; intros allRoles.
  - reflexivity.
  - rewrite fmap_cons. cbn [listRolesPages app].
    erewrite run_bind; [|reflexivity]. rewrite IH. by autorewrite with run_eq.
Qed.

(** [ListRoles], when the service answers every page: the names that
  start with [prefix] (all names for the empty prefix), in the order of
  the listing, and one request per page. *)
Theorem ListRoles_keeps_the_prefix (c : Client) (prefix : string) (s : State E)
    (pages : list (list Role)) :
  all_pages (iam_ListRoles (profile c) (ext s)).1 = Ok <$> pages →
  value (ListRoles c prefix s) =
    Ok (filter (λ roleName, String.eqb prefix "" || HasPrefix roleName prefix = true)
               (role_RoleName <$> concat pages)) ∧
  calls_of (trace (ListRoles c prefix s)) =
    (λ _, Build_Call (profile c) ReqListRoles None) <$> pages.
Proof.
  intros Hpages. unfold ListRoles.
  rewrite value_bind, trace_bind, outside_run. autorewrite with run_eq.
  rewrite Hpages, listRolesPages_ok. autorewrite with run_eq. split; [done|].
  apply (calls_of_Called (λ _, Build_Call (profile c) ReqListRoles None)).
Qed.

(** [ListRoles], when a page fails: the error of that page, the names of
  the pages before it are dropped, and no page after it is requested. *)
Theorem ListRoles_stops_at_the_failed_page (c : Client) (prefix : string)
    (s : State E) (good : list (list Role)) (e : string)
    (more : list (result (list Role))) :
  all_pages (iam_ListRoles (profile c) (ext s)).1 = (Ok <$> good) ++ Err e :: more →
  value (ListRoles c prefix s) = Err ("failed to list roles: " +:+ e) ∧
  calls_of (trace (ListRoles c prefix s)) =
    ((λ _, Build_Call (profile c) ReqListRoles None) <$> good) ++
    [Build_Call (profile c) ReqListRoles (Some e)].
Proof.
  intros Hpages. unfold ListRoles.
  rewrite value_bind, trace_bind, outside_run. autorewrite with run_eq.
  rewrite Hpages, listRolesPages_fails. autorewrite with run_eq. split; [done|].
  cbn [app]. rewrite calls_of_app. f_equal.
  apply (calls_of_Called (λ _, Build_Call (profile c) ReqListRoles None)).
Qed.

Lemma listRolesPages_prefix (c : Client) (prefix : string) pages allRoles :
  post (listRolesPages c prefix pages allRoles : M E _)
    (λ r _, ∀ roles role,
       r = Ok roles → role ∈ roles →
       role ∈ allRoles ∨ String.eqb prefix "" || HasPrefix role prefix = true).
Proof.
  revert allRoles. induction pages as [|page pages IH]; intros allRoles;
    cbn [listRolesPages].
  - apply post_ret. intros roles role [= <-] Hrole. by left.
  - apply (returns_bind _ _
      (λ r, ∀ roles role, r = Ok roles → role ∈ roles →
            role ∈ allRoles ∨ String.eqb prefix "" || HasPrefix role prefix = true)).
    intros _. destruct page as [roles0|e].
    + eapply post_mono; [apply IH|]. intros r t Hr roles role -> Hrole.
      destruct (Hr _ _ eq_refl Hrole) as [Hin|Hp]; [|by right].
      apply elem_of_app in Hin as [Hin|Hin]; [by left|right].
      by apply list_elem_of_filter in Hin as [Hp _].
    + apply post_ret. by intros roles role [=].
Qed.

(** The roles the wizard discovers with a non-empty source pattern start
  with it, and the names proposed for them start with the destination
  pattern. *)
Theorem discovered_roles_start_with_the_pattern (c : Client) (src dst : string) :
  src ≠ "" →
  post (ListRoles c src : M E _)
    (λ r _, ∀ roles role,
       r = Ok roles → role ∈ roles →
       HasPrefix role src = true ∧
       HasPrefix (GenerateNewRoleName role src dst) dst = true).
Proof.
  intros Hne. unfold ListRoles.
  apply (returns_bind _ _
    (λ r, ∀ roles role, r = Ok roles → role ∈ roles →
          HasPrefix role src = true ∧
          HasPrefix (GenerateNewRoleName role src dst) dst = true)).
  intros listing. eapply post_mono; [apply listRolesPages_prefix|].
  intros r t Hr roles role -> Hrole.
  destruct (Hr _ _ eq_refl Hrole) as [Hin|Hp]; [by apply elem_of_nil in Hin|].
  rewrite (eqb_neq _ _ Hne) in Hp. simpl in Hp.
  split; [done|]. by apply ReplaceAll_prefix.
Qed.

Lemma foldl_insert_tags (tags : list (string * string)) (m : gmap string string) :
  foldl (λ (m : gmap string string) tag, <[tag.1 := tag.2]> m) m tags =
  list_to_map (reverse tags) ∪ m.
Proof.
  revert m. induction tags as [|[k v] tags IH]; intros m.
  - simpl. by rewrite (left_id_L ∅ (∪)).
  - cbn [foldl]. rewrite IH, reverse_cons, list_to_map_app. cbn [list_to_map foldr fst snd].
    rewrite insert_empty, <- (assoc_L (∪)). f_equal.
    by rewrite insert_union_singleton_l.
Qed.

(** The tags of a role as a map: every listed key is there, and where the
  service lists a key more than once the last value stays. *)
Theorem getRoleTags_keeps_the_last_value (c : Client) (roleName : string)
    (s : State E) (before after : list (string * string)) (key val : string) :
  (iam_ListRoleTags (profile c) roleName (ext s)).1 =
    Ok (before ++ (key, val) :: after) →
  key ∉ after.*1 →
  ∃ tags, value (getRoleTags c roleName s) = Ok tags ∧
          tags !! key = Some val ∧
          ∀ k, is_Some (tags !! k) ↔ k ∈ (before ++ (key, val) :: after).*1.
Proof.
  intros Hlist Hlast. unfold getRoleTags.
  rewrite value_bind, request_run. autorewrite with run_eq. rewrite Hlist.
  autorewrite with run_eq. eexists. split; [done|].
  rewrite foldl_insert_tags, (right_id_L ∅ (∪)). split.
  - rewrite reverse_app, reverse_cons, <- (assoc_L (++)), list_to_map_app.
    rewrite lookup_union_r.
    + cbn [app list_to_map foldr fst snd]. by rewrite lookup_insert_eq.
    + apply not_elem_of_list_to_map_1. by rewrite fmap_reverse, elem_of_reverse.
  - intros k. rewrite <- elem_of_dom, dom_list_to_map_L, elem_of_list_to_set.
    by rewrite fmap_reverse, elem_of_reverse.
Qed.

(** A role whose trust policy cannot be processed is not fetched any
  further: [GetRoleInfo] fails after the one GetRole request. *)
Theorem GetRoleInfo_stops_at_a_bad_trust_policy (c : Client) (roleName : string)
    (s : State E) (role : Role) (e : string) :
  (iam_GetRole (profile c) roleName (ext s)).1 = Ok role →
  processPolicyDocument (role_AssumeRolePolicyDocument role) = Err e →
  value (GetRoleInfo c roleName s) = Err ("failed to process trust policy: " +:+ e) ∧
  calls_of (trace (GetRoleInfo c roleName s)) =
    [Build_Call (profile c) (ReqGetRole roleName) None] ∧
  (role_AssumeRolePolicyDocument role = None → e = "policy document is nil").
Proof.
  intros Hrole Hdoc. unfold GetRoleInfo.
  rewrite value_bind, trace_bind, request_run. autorewrite with run_eq.
  rewrite Hrole, Hdoc. autorewrite with run_eq. repeat split.
  intros Hnil. rewrite Hnil in Hdoc. by injection Hdoc as <-.
Qed.

(** [TagRole] sends nothing for an empty map; otherwise it sends one
  request, to the client's profile and for the given role, that carries
  every tag of the map once and nothing else. *)
Theorem TagRole_sends_every_tag_once (c : Client) (roleName : string)
    (tags : gmap string string) :
  post (TagRole c roleName tags : M E _)
    (λ err t,
       match calls_of t with
       | [] => tags = ∅ ∧ err = None
       | [call] =>
         tags ≠ ∅ ∧ call_profile call = profile c ∧
         ∃ iamTags,
           call_request call = ReqTagRole roleName iamTags ∧
           NoDup iamTags.*1 ∧
           ∀ k v, (k, v) ∈ iamTags ↔ tags !! k = Some v
       | _ => False
       end).
Proof.
  eapply post_mono; [apply TagRole_post|].
  intros err t [(-> & -> & ->)|(Hne & iamTags & e & Hperm & -> & ->)]; [done|].
  cbn [calls_of omap list_omap]. split; [done|]. split; [done|].
  exists iamTags. split; [done|]. split.
  - rewrite Hperm. apply NoDup_fst_map_to_list.
  - intros k v. by rewrite Hperm, elem_of_map_to_list.
Qed.

End gateway.

End GatewayReadFacts.

(** ** What a clone sends *)

Module CloneRequestFacts.
Import GoString GoStrings GoStringFacts Awsclient Cmd GatewayFacts CloneFacts
  NamingFacts GatewayReadFacts.

Section clone.
Context {E : Type} `{External E} `{Encoding} `{GoStrings.UnicodeTables}.

Lemma managedPoliciesPages_about (c : Client) (roleName : string) pages policies :
  always (request_of (profile c) (reads_role roleName))
    (managedPoliciesPages c roleName pages policies : M E _).
Proof.
  revert policies. induction pages as [|page pages IH]; intros policies; simpl.
  - apply always_ret.
  - always_auto; done.
Qed.

Lemma inlinePoliciesLoop_about (c : Client) (roleName : string) names policies :
  always (request_of (profile c) (reads_role roleName))
    (inlinePoliciesLoop c roleName names policies : M E _).
Proof.
  revert policies. induction names as [|name names IH]; intros policies; simpl.
  - apply always_ret.
  - apply always_bind; [by apply always_request|].
    intros r. always_auto; done.
Qed.

(** Fetching a role sends only requests that read that role. *)
Lemma GetRoleInfo_about (c : Client) (roleName : string) :
  always (request_of (profile c) (reads_role roleName)) (GetRoleInfo c roleName : M E _).
Proof.
  unfold GetRoleInfo, getManagedPolicies, getInlinePolicies, getRoleTags.
  apply always_bind; [by apply always_request|]. intros r.
  repeat first
    [ apply managedPoliciesPages_about
    | apply inlinePoliciesLoop_about
    | apply always_request; done
    | always_step ].
Qed.

Lemma silent_within_clone sp sr dp dr (ev : Event) :
  silent ev → within_clone sp sr dp dr ev.
Proof. by destruct ev. Qed.

Lemma source_within_clone sp sr dp dr (ev : Event) :
  request_of sp (reads_role sr) ev → within_clone sp sr dp dr ev.
Proof. destruct ev; try done. intros [? ?]. by left. Qed.

Lemma dest_within_clone sp sr dp dr (R : Request → Prop) (ev : Event) :
  (∀ r, R r → request_role r = Some dr) →
  request_of dp R ev → within_clone sp sr dp dr ev.
Proof. intros HR. destruct ev; try done. intros [? ?]. right. split; [done|by apply HR]. Qed.

Lemma always_one_request {A} (m : M E A) (p : string) (req : Request)
    (P : Event → Prop) :
  post m (λ _ t, ∃ e, t = [Called (Build_Call p req e)]) →
  (∀ e, P (Called (Build_Call p req e))) → always P m.
Proof.
  intros Hm HP. eapply post_mono; [exact Hm|].
  intros a t [e ->]. simpl. constructor; [apply HP|constructor].
Qed.

Lemma AttachManagedPolicy_within sp sr (c : Client) dr policyArn :
  always (within_clone sp sr (profile c) dr) (AttachManagedPolicy c dr policyArn : M E _).
Proof.
  eapply always_one_request.
  - eapply post_mono; [apply AttachManagedPolicy_post|]. intros a t (e & -> & _). by eexists.
  - intros e. by right.
Qed.

Lemma CreateInlinePolicy_within sp sr (c : Client) dr policyName policyDocument :
  always (within_clone sp sr (profile c) dr)
    (CreateInlinePolicy c dr policyName policyDocument : M E _).
Proof.
  eapply always_one_request.
  - eapply post_mono; [apply CreateInlinePolicy_post|]. intros a t (e & -> & _). by eexists.
  - intros e. by right.
Qed.

Lemma CreateRole_within sp sr (c : Client) dr trustPolicy description :
  always (within_clone sp sr (profile c) dr)
    (CreateRole c dr trustPolicy description : M E _).
Proof.
  eapply always_one_request.
  - eapply post_mono; [apply CreateRole_post|]. intros a t (e & -> & _). by eexists.
  - intros e. by right.
Qed.

Lemma TagRole_within sp sr (c : Client) dr tags :
  always (within_clone sp sr (profile c) dr) (TagRole c dr tags : M E _).
Proof.
  eapply post_mono; [apply TagRole_post|].
  intros err t [(_ & -> & _)|(_ & iamTags & e & _ & -> & _)]; simpl.
  - constructor.
  - constructor; [by right|constructor].
Qed.

Lemma RoleExists_within sp sr (c : Client) dr :
  always (within_clone sp sr (profile c) dr) (RoleExists c dr : M E _).
Proof.
  unfold RoleExists. apply always_bind; [apply always_request|intros r; apply always_ret].
  intros e. by right.
Qed.

Lemma copyPoliciesAndTags_within sp sr (destClient : Client) destRole roleInfo config log :
  always (within_clone sp sr (profile destClient) destRole)
    (copyPoliciesAndTags destClient destRole roleInfo config log : M E unit).
Proof.
  unfold copyPoliciesAndTags.
  repeat first
    [ apply AttachManagedPolicy_within
    | apply CreateInlinePolicy_within
    | apply TagRole_within
    | always_step
    | progress autounfold with run ].
Qed.

Lemma cloneSingleRole_within (sourceClient : Client) (destClient : option Client)
    (dp sourceRole destRole : string) (config : CloneConfig) (log : Logger.Logger) :
  (∀ d, destClient = Some d → profile d = dp) →
  always (within_clone (profile sourceClient) sourceRole dp destRole)
    (cloneSingleRole sourceClient destClient sourceRole destRole config log : M E _).
Proof.
  intros Hdp. unfold cloneSingleRole.
  apply always_bind; [always_auto|]. intros _.
  apply always_bind.
  { eapply always_mono; [apply GetRoleInfo_about|]. apply source_within_clone. }
  intros [roleInfo|e]; [|apply always_ret].
  apply always_bind; [always_auto|]. intros _.
  destruct (DryRun config).
  { apply always_bind; [|intros _; apply always_ret].
    eapply always_mono; [apply dryRunPreview_silent|]. apply silent_within_clone. }
  destruct destClient as [destClient|]; [|apply always_ret].
  rewrite <- (Hdp _ eq_refl).
  apply always_bind; [apply RoleExists_within|]. intros [|]; [apply always_ret|].
  repeat first
    [ apply CreateRole_within
    | apply copyPoliciesAndTags_within
    | always_step
    | progress autounfold with run ].
Qed.

(** The requests of the clone of one role: the source profile is only
  read, and only about the source role; every other request goes to the
  destination profile and is about the destination role. *)
Theorem cloneSingleRole_touches_one_role (sourceClient destClient : Client)
    (sourceRole destRole : string) (config : CloneConfig) (log : Logger.Logger) :
  always (within_clone (profile sourceClient) sourceRole (profile destClient) destRole)
    (cloneSingleRole sourceClient (Some destClient) sourceRole destRole config log
       : M E _).
Proof. apply cloneSingleRole_within. by intros d [= <-]. Qed.

Lemma silent_within_cloning config (ev : Event) : silent ev → within_cloning config ev.
Proof. by destruct ev. Qed.

Lemma cloneLoop_within (sourceClient : Client) (destClient : option Client)
    (config : CloneConfig) (log : Logger.Logger) i roles successCount :
  profile sourceClient = SourceProfile config →
  (∀ d, destClient = Some d → profile d = DestProfile config) →
  roles ⊆ Roles config →
  always (within_cloning config)
    (cloneLoop sourceClient destClient config log i roles successCount : M E _).
Proof.
  intros Hsp Hdp. revert i successCount.
  induction roles as [|role roles IH]; intros i successCount Hsub; simpl.
  - apply always_ret.
  - assert (role ∈ Roles config) as Hrole by (apply Hsub; left).
    assert (roles ⊆ Roles config) as Hrest by (intros x Hx; apply Hsub; by right).
    apply always_bind; [always_auto|]. intros _.
    apply always_bind.
    { eapply always_mono; [by apply (cloneSingleRole_within _ _ (DestProfile config))|].
      intros [| | | |c]; try done. rewrite Hsp. intros Hc. by exists role. }
    intros [[e|]| |]; always_auto; by apply IH.
Qed.

(** The execution step reads the source profile only, and only the
  selected roles; whatever it sends to the destination profile is about a
  role that one of the selected roles is renamed to. *)
Theorem performCloning_touches_the_selected_roles (config : CloneConfig)
    (log : Logger.Logger) :
  always (within_cloning config) (performCloning config log : M E _).
Proof.
  unfold performCloning.
  apply always_bind; [always_auto|]. intros _.
  apply always_bind; [always_auto|]. intros _.
  eapply post_bind; [apply NewClient_post|].
  intros [sourceClient|e] t1 [Ht1 Hsp];
    (apply always_after;
       [by eapply Forall_impl; [|apply silent_within_cloning]|]);
    [|apply always_ret].
  eapply post_bind.
  { instantiate (1 := λ r t, Forall silent t ∧
                        ∀ d, r = Ok (Some d) → profile d = DestProfile config).
    destruct (DryRun config); cbn [negb].
    - apply post_ret. split; [constructor|]. by intros d [=].
    - eapply post_bind; [apply NewClient_post|].
      intros [d|e] t2 [Ht2 Hdp]; apply post_ret; rewrite List.app_nil_r;
        (split; [done|]); intros d' [=]. subst d'. by apply Hdp. }
  intros [destClient|e] t2 [Ht2 Hdp];
    (apply always_after;
       [by eapply Forall_impl; [|apply silent_within_cloning]|]);
    [|apply always_ret].
  apply always_bind.
  { apply cloneLoop_within; [by apply Hsp| |done].
    intros d ->. by apply Hdp. }
  intros [n| |]; always_auto.
Qed.

(** *** The requests in their order *)

Lemma attached_app (t1 t2 : list Event) : attached (t1 ++ t2) = attached t1 ++ attached t2.
Proof. unfold attached. by rewrite calls_of_app, omap_app. Qed.

Lemma put_app (t1 t2 : list Event) : put (t1 ++ t2) = put t1 ++ put t2.
Proof. unfold put. by rewrite calls_of_app, omap_app. Qed.

Lemma created_app (t1 t2 : list Event) : created (t1 ++ t2) = created t1 ++ created t2.
Proof. unfold created. by rewrite calls_of_app, omap_app. Qed.

Lemma attached_cons (ev : Event) (t : list Event) :
  attached (ev :: t) = attached [ev] ++ attached t.
Proof. apply (attached_app [ev]). Qed.

Lemma put_cons (ev : Event) (t : list Event) : put (ev :: t) = put [ev] ++ put t.
Proof. apply (put_app [ev]). Qed.

Lemma created_cons (ev : Event) (t : list Event) :
  created (ev :: t) = created [ev] ++ created t.
Proof. apply (created_app [ev]). Qed.

Lemma attached_none (t : list Event) : Forall no_attach t → attached t = [].
Proof.
  induction 1 as [|ev t Hev _ IH]; [done|].
  change (ev :: t) with ([ev] ++ t). rewrite attached_app, IH.
  destruct ev as [| | | |c]; try done. simpl in Hev. unfold attached. simpl.
  by destruct (call_request c).
Qed.

Lemma put_none (t : list Event) : Forall no_put t → put t = [].
Proof.
  induction 1 as [|ev t Hev _ IH]; [done|].
  change (ev :: t) with ([ev] ++ t). rewrite put_app, IH.
  destruct ev as [| | | |c]; try done. simpl in Hev. unfold put. simpl.
  by destruct (call_request c).
Qed.

Lemma created_none (t : list Event) : Forall no_create t → created t = [].
Proof.
  induction 1 as [|ev t Hev _ IH]; [done|].
  change (ev :: t) with ([ev] ++ t). rewrite created_app, IH.
  destruct ev as [| | | |c]; try done. simpl in Hev. unfold created. simpl.
  by destruct (call_request c).
Qed.

Lemma harmless_quiet (ev : Event) :
  harmless ev → no_attach ev ∧ no_put ev ∧ no_create ev.
Proof. destruct ev as [| | | |c]; try done. simpl. by destruct (call_request c). Qed.

Lemma silent_quiet (ev : Event) : silent ev → no_attach ev ∧ no_put ev ∧ no_create ev.
Proof. by destruct ev. Qed.

Lemma up_to_creation_quiet (ev : Event) : up_to_creation ev → no_attach ev ∧ no_put ev.
Proof.
  destruct ev as [| | | |c]; try done. simpl. by destruct (call_request c); intros [|].
Qed.

(** A step that contributes nothing to a projection of the trace, in
  front of one that does and behind it. *)
Lemma proj_bind_l {A B C} (π : list Event → list C) (Q : Event → Prop)
    (m : M E A) (f : A → M E B) (R : list C → Prop) :
  (∀ t1 t2, π (t1 ++ t2) = π t1 ++ π t2) → (∀ t, Forall Q t → π t = []) →
  always Q m → (∀ a, post (f a) (λ _ t, R (π t))) →
  post (m ≫= f) (λ _ t, R (π t)).
Proof.
  intros Happ Hnone Hm Hf. eapply post_bind; [exact Hm|].
  intros a t1 Ht1. eapply post_mono; [apply Hf|].
  intros b t2 Ht2. simpl in *. by rewrite Happ, (Hnone _ Ht1).
Qed.

Lemma proj_bind_r {A B C} (π : list Event → list C) (Q : Event → Prop)
    (m : M E A) (f : A → M E B) (R : list C → Prop) :
  (∀ t1 t2, π (t1 ++ t2) = π t1 ++ π t2) → (∀ t, Forall Q t → π t = []) →
  post m (λ _ t, R (π t)) → (∀ a, always Q (f a)) →
  post (m ≫= f) (λ _ t, R (π t)).
Proof.
  intros Happ Hnone Hm Hf. eapply post_bind; [exact Hm|].
  intros a t1 Ht1. eapply post_mono; [apply Hf|].
  intros b t2 Ht2. simpl in *. by rewrite Happ, (Hnone _ Ht2), List.app_nil_r.
Qed.

Lemma proj_forEach {A C} (π : list Event → list C) (xs : list A)
    (body : A → M E unit) (h : A → C) :
  (∀ t1 t2, π (t1 ++ t2) = π t1 ++ π t2) → π [] = [] →
  (∀ x, post (body x) (λ _ t, π t = [h x])) →
  post (forEach xs body) (λ _ t, π t = h <$> xs).
Proof.
  intros Happ Hnil Hbody. induction xs as [|x xs IH]; simpl.
  - by apply post_ret.
  - eapply post_bind; [apply Hbody|]. intros u1 t1 Ht1.
    eapply post_mono; [apply IH|]. intros u2 t2 Ht2. simpl in *.
    by rewrite Happ, Ht1, Ht2.
Qed.

Lemma log_events_quiet l level msg :
  Forall no_attach (log_events l level msg) ∧ Forall no_put (log_events l level msg) ∧
  Forall no_create (log_events l level msg).
Proof.
  unfold log_events. destruct (Logger.logFile l); repeat split; by repeat constructor.
Qed.

Lemma debug_events_quiet l msg :
  let t := if Logger.verbose l then log_events l DEBUG msg else [] in
  Forall no_attach t ∧ Forall no_put t ∧ Forall no_create t.
Proof.
  destruct (Logger.verbose l); [apply log_events_quiet|]. by repeat split.
Qed.

Lemma always_silent_quiet {A} (m : M E A) :
  always silent m → always no_attach m ∧ always no_put m ∧ always no_create m.
Proof.
  intros Hm. repeat split; (eapply always_mono; [exact Hm|]);
    intros ev Hev; by destruct ev.
Qed.

Lemma attach_step (destClient : Client) destRole log policyArn :
  post (err ← AttachManagedPolicy destClient destRole policyArn;
        match err with
        | Some e =>
          Logger.Warning log ("    Failed to attach managed policy " +:+ policyArn +:+
                              ": " +:+ e)
        | None => Logger.Debug log ("    Attached: " +:+ policyArn)
        end : M E unit)
    (λ _ t, attached t = [(destRole, policyArn)] ∧ Forall no_put t ∧ Forall no_create t).
Proof.
  eapply post_bind; [apply AttachManagedPolicy_post|].
  intros err t1 (e & -> & ->). destruct e as [e|]; intros s; simpl.
  - rewrite Warning_run. autorewrite with run_eq.
    destruct (log_events_quiet log WARNING
      ("    Failed to attach managed policy " +:+ policyArn +:+ ": " +:+
       "failed to attach policy " +:+ policyArn +:+ " to role " +:+ destRole +:+
       ": " +:+ e)) as (Ha & Hp & Hc).
    split; [|by split; constructor].
    rewrite attached_cons, (attached_none _ Ha). reflexivity.
  - rewrite Debug_run. autorewrite with run_eq.
    destruct (debug_events_quiet log ("    Attached: " +:+ policyArn)) as (Ha & Hp & Hc).
    split; [|by split; constructor].
    rewrite attached_cons, (attached_none _ Ha). reflexivity.
Qed.

Lemma put_step (destClient : Client) destRole config log policyName policyDocument :
  let newPolicyName :=
    GenerateNewRoleName policyName (SourcePattern config) (DestPattern config) in
  let processedDocument :=
    ReplacePatternInJSON policyDocument (SourcePattern config) (DestPattern config) in
  post ((if Verbose config then
           Logger.Debug log ("    Creating inline policy: " +:+ newPolicyName);;
           Logger.Debug log ("    Policy document preview: " +:+
                             GoFmt.fmt_prec 100 processedDocument +:+ "...")
         else mret tt);;
        err ← CreateInlinePolicy destClient destRole newPolicyName processedDocument;
        match err with
        | Some e =>
          Logger.Warning log ("    Failed to create inline policy " +:+ newPolicyName +:+
                              ": " +:+ e)
        | None => Logger.Debug log ("    Created inline policy: " +:+ newPolicyName)
        end : M E unit)
    (λ _ t, put t = [(destRole, (newPolicyName, processedDocument))] ∧
            Forall no_attach t ∧ Forall no_create t).
Proof.
  intros newPolicyName processedDocument.
  eapply post_bind.
  { instantiate (1 := λ _ t, Forall silent t). apply verbose_debug_silent. always_auto. }
  intros u t0 Ht0.
  assert (Forall no_attach t0 ∧ Forall no_put t0 ∧ Forall no_create t0)
    as (Ha0 & Hp0 & Hc0).
  { repeat split; (eapply Forall_impl; [exact Ht0|]); intros ev Hev; by destruct ev. }
  eapply post_bind; [apply CreateInlinePolicy_post|].
  intros err t1 (e & -> & ->). destruct e as [e|]; intros s; simpl.
  - rewrite Warning_run. autorewrite with run_eq.
    destruct (log_events_quiet log WARNING
      ("    Failed to create inline policy " +:+ newPolicyName +:+ ": " +:+
       "failed to create inline policy " +:+ newPolicyName +:+ " for role " +:+
       destRole +:+ ": " +:+ e)) as (Ha & Hp & Hc).
    split; [|by split; apply Forall_app; (split; [|constructor])].
    rewrite put_app, put_cons, (put_none _ Hp0), (put_none _ Hp). reflexivity.
  - rewrite Debug_run. autorewrite with run_eq.
    destruct (debug_events_quiet log ("    Created inline policy: " +:+ newPolicyName))
      as (Ha & Hp & Hc).
    split; [|by split; apply Forall_app; (split; [|constructor])].
    rewrite put_app, put_cons, (put_none _ Hp0), (put_none _ Hp). reflexivity.
Qed.

Lemma sends_quiet (t : list Event) :
  Forall no_attach t → Forall no_put t → Forall no_create t → sends t [] [].
Proof.
  intros Ha Hp Hc. unfold sends.
  by rewrite (attached_none _ Ha), (put_none _ Hp), (created_none _ Hc).
Qed.

Lemma sends_silent {A} (m : M E A) : always silent m → post m (λ _ t, sends t [] []).
Proof.
  intros Hm. eapply post_mono; [exact Hm|]. intros a t Ht. simpl in Ht.
  apply sends_quiet; (eapply Forall_impl; [exact Ht|]); intros ev Hev; by destruct ev.
Qed.

Lemma sends_bind {A B} (m : M E A) (f : A → M E B) a1 p1 a2 p2 :
  post m (λ _ t, sends t a1 p1) → (∀ x, post (f x) (λ _ t, sends t a2 p2)) →
  post (m ≫= f) (λ _ t, sends t (a1 ++ a2) (p1 ++ p2)).
Proof.
  intros Hm Hf. eapply post_bind; [exact Hm|].
  intros x t1 (Ha1 & Hp1 & Hc1). eapply post_mono; [apply Hf|].
  intros y t2 (Ha2 & Hp2 & Hc2). unfold sends.
  by rewrite attached_app, put_app, created_app, Ha1, Ha2, Hp1, Hp2, Hc1, Hc2.
Qed.

Lemma sends_forEach {A} (xs : list A) (body : A → M E unit) ha hp :
  (∀ x, post (body x) (λ _ t, sends t (ha x) (hp x))) →
  post (forEach xs body) (λ _ t, sends t (xs ≫= ha) (xs ≫= hp)).
Proof.
  intros Hbody. induction xs as [|x xs IH]; simpl.
  - by apply post_ret.
  - by apply sends_bind.
Qed.

Lemma sends_always {A} (m : M E A) :
  always (λ ev, no_attach ev ∧ no_put ev ∧ no_create ev) m →
  post m (λ _ t, sends t [] []).
Proof.
  intros Hm. eapply post_mono; [exact Hm|]. intros a t Ht. simpl in Ht.
  apply sends_quiet; (eapply Forall_impl; [exact Ht|]); by intros ev (? & ? & ?).
Qed.

Lemma bind_singleton {A B} (h : A → B) (xs : list A) : xs ≫= (λ x, [h x]) = h <$> xs.
Proof. induction xs as [|x xs IH]; [done|]. simpl. by f_equal. Qed.

Lemma bind_nil {A B} (xs : list A) : xs ≫= (λ _, @nil B) = [].
Proof. induction xs as [|x xs IH]; [done|]. by simpl. Qed.

(** Steps 3 to 5 attach the managed policies of the source role, as they
  are and in their order, put its inline policies under their new names
  with their documents replaced, each once, and create nothing. *)
Lemma copyPoliciesAndTags_sends (destClient : Client) destRole roleInfo config log :
  post (copyPoliciesAndTags destClient destRole roleInfo config log : M E unit)
    (λ _ t, ∃ entries,
       entries ≡ₚ map_to_list (InlinePolicies roleInfo) ∧
       sends t
         ((λ policyArn, (destRole, policyArn)) <$> ManagedPolicies roleInfo)
         ((λ entry : string * string,
             (destRole,
              (GenerateNewRoleName entry.1 (SourcePattern config) (DestPattern config),
               ReplacePatternInJSON entry.2 (SourcePattern config)
                 (DestPattern config)))) <$> entries)).
Proof.
  unfold copyPoliciesAndTags.
  eapply post_bind; [apply sends_silent; always_auto|]. intros u0 t0 Hs0.
  eapply post_bind.
  { apply (sends_forEach _ _ (λ policyArn, [(destRole, policyArn)]) (λ _, [])).
    intros policyArn. eapply post_mono; [apply attach_step|].
    intros u t (Ha & Hp & Hc). unfold sends.
    by rewrite Ha, (put_none _ Hp), (created_none _ Hc). }
  intros u1 t1 Hs1.
  eapply post_bind; [apply sends_silent; always_auto|]. intros u2 t2 Hs2.
  eapply post_bind; [apply map_range_post|]. intros entries t3 [Hperm ->].
  eapply post_bind.
  { apply (sends_forEach entries _ (λ _, [])
             (λ entry : string * string,
                [(destRole,
                  (GenerateNewRoleName entry.1 (SourcePattern config)
                     (DestPattern config),
                   ReplacePatternInJSON entry.2 (SourcePattern config)
                     (DestPattern config)))])).
    intros [policyName policyDocument]. eapply post_mono; [apply put_step|].
    intros u t (Hp & Ha & Hc). unfold sends.
    by rewrite Hp, (attached_none _ Ha), (created_none _ Hc). }
  intros u4 t4 Hs4.
  eapply post_mono.
  { apply sends_always.
    destruct (0 <? size (Tags roleInfo)); [|apply always_ret].
    repeat first
      [ eapply always_mono;
          [apply TagRole_requests|];
          intros [| | | |call]; try done; simpl; intros [_ Hreq];
          by destruct (call_request call)
      | always_step
      | progress autounfold with run ]. }
  intros u5 t5 (Ha5 & Hp5 & Hc5). exists entries. split; [done|].
  destruct Hs0 as (Ha0 & Hp0 & Hc0), Hs1 as (Ha1 & Hp1 & Hc1), Hs2 as (Ha2 & Hp2 & Hc2),
    Hs4 as (Ha4 & Hp4 & Hc4).
  unfold sends. rewrite !attached_app, !put_app, !created_app.
  rewrite Ha0, Ha1, Ha2, Ha4, Ha5, Hp0, Hp1, Hp2, Hp4, Hp5, Hc0, Hc1, Hc2, Hc4, Hc5.
  rewrite !bind_singleton, !bind_nil. cbn [app attached put created calls_of omap list_omap].
  by rewrite !List.app_nil_r.
Qed.

Lemma harmless_created (t : list Event) : Forall harmless t → created t = [].
Proof.
  intros Ht. apply created_none. eapply Forall_impl; [exact Ht|].
  intros ev Hev. by apply harmless_quiet.
Qed.

(** A clone that is no dry run creates at most one role: the destination
  role, with the trust policy of the source role after the replacement
  and a description that names the source role and the time. *)
Theorem cloneSingleRole_creates_the_renamed_role (sourceClient destClient : Client)
    (sourceRole destRole : string) (config : CloneConfig) (log : Logger.Logger)
    (s : State E) :
  let r := cloneSingleRole sourceClient (Some destClient) sourceRole destRole
             config log s in
  created (trace r) = [] ∨
  ∃ roleInfo now,
    DryRun config = false ∧
    value (GetRoleInfo sourceClient sourceRole s) = Ok roleInfo ∧
    created (trace r) =
      [(destRole,
        ReplacePatternInJSON (TrustPolicy roleInfo) (SourcePattern config)
          (DestPattern config),
        Some ("Cloned from " +:+ sourceRole +:+ " on " +:+ now))].
Proof.
  intros r. destruct (DryRun config) eqn:Hdry.
  { left. apply harmless_created. eapply Forall_impl; [|apply reads_only_harmless].
    by apply (cloneSingleRole_dry sourceClient (Some destClient) sourceRole destRole
                config log Hdry s). }
  unfold r, cloneSingleRole. autorewrite with run_eq.
  assert (Forall harmless (trace (GetRoleInfo sourceClient sourceRole s))) as Hget.
  { eapply Forall_impl; [apply (GetRoleInfo_reads sourceClient sourceRole s)|].
    apply request_of_harmless. }
  set (s1 := final (GetRoleInfo sourceClient sourceRole s)).
  assert (Forall harmless (trace (RoleExists destClient destRole s1))) as Hexi.
  { eapply Forall_impl; [apply (RoleExists_reads destClient destRole s1)|].
    apply request_of_harmless. }
  pose proof (debug_events_harmless log) as Hdebug.
  pose proof (log_events_harmless log) as Hlog.
  destruct (value (GetRoleInfo sourceClient sourceRole s)) as [roleInfo|e] eqn:Hinfo.
  2:{ autorewrite with run_eq. left. apply harmless_created.
      rewrite !Forall_app. by repeat split. }
  autorewrite with run_eq. rewrite Hdry. autorewrite with run_eq.
  destruct (value (RoleExists destClient destRole s1)) eqn:Hexists.
  { autorewrite with run_eq. left. apply harmless_created.
    rewrite !Forall_app. by repeat split. }
  autorewrite with run_eq. rewrite !verbose_debug2_run. autorewrite with run_eq.
  set (s2 := final (RoleExists destClient destRole s1)).
  set (now := outside (time_Now_Format "2006-01-02 15:04:05") s2).
  set (trust := ReplacePatternInJSON (TrustPolicy roleInfo) (SourcePattern config)
                  (DestPattern config)).
  set (description := "Cloned from " +:+ sourceRole +:+ " on " +:+ value now).
  destruct (CreateRole_post destClient destRole trust description (final now))
    as (e & Htrace & Hvalue).
  rewrite Hvalue, Htrace.
  assert (trace now = []) as ->.
  { unfold now, outside. by destruct (time_Now_Format _ _). }
  assert (∀ m1 m2,
    Forall harmless
      (if Verbose config
       then (if Logger.verbose log then log_events log DEBUG m1 else []) ++
            (if Logger.verbose log then log_events log DEBUG m2 else [])
       else [])) as Hverbose.
  { intros m1 m2. destruct (Verbose config); [|constructor].
    apply Forall_app. by split. }
  right. exists roleInfo, (value now). split; [done|]. split; [done|].
  destruct e as [e|]; cbn [fmap option_fmap option_map].
  - autorewrite with run_eq. rewrite verbose_error_run. autorewrite with run_eq.
    rewrite !created_app.
    rewrite !(harmless_created _ (Hdebug _)), (harmless_created _ Hget),
      (harmless_created _ Hexi), (harmless_created _ (Hverbose _ _)).
    rewrite (harmless_created (if Verbose config then _ else _)).
    + reflexivity.
    + destruct (Verbose config); [apply Hlog|constructor].
  - autorewrite with run_eq. rewrite !created_app.
    match goal with
    | |- context [trace (copyPoliciesAndTags _ _ _ _ _ ?s')] =>
      destruct (copyPoliciesAndTags_sends destClient destRole roleInfo config log s')
        as (entries & _ & _ & _ & Hnone)
    end.
    rewrite Hnone.
    rewrite !(harmless_created _ (Hdebug _)), (harmless_created _ Hget),
      (harmless_created _ Hexi), (harmless_created _ (Hverbose _ _)).
    reflexivity.
Qed.

(** The two ways a clone that is no dry run can go: no role is created,
  or the creation succeeds and steps 3 to 5 follow. *)
Lemma cloneSingleRole_ways sourceClient destClient sourceRole destRole config log
    (s : State E) :
  let r := cloneSingleRole sourceClient (Some destClient) sourceRole destRole
             config log s in
  DryRun config = false →
  Forall nothing_created (trace r) ∨
  ∃ roleInfo before s',
    value (GetRoleInfo sourceClient sourceRole s) = Ok roleInfo ∧
    Forall up_to_creation before ∧
    (∃ c, Called c ∈ before ∧ is_CreateRole (call_request c) = true ∧
          call_error c = None) ∧
    trace r =
      before ++ trace (copyPoliciesAndTags destClient destRole roleInfo config log s').
Proof.
  intros r Hdry. unfold r, cloneSingleRole. autorewrite with run_eq.
  assert (Forall harmless (trace (GetRoleInfo sourceClient sourceRole s))) as Hget.
  { eapply Forall_impl; [apply (GetRoleInfo_reads sourceClient sourceRole s)|].
    apply request_of_harmless. }
  set (s1 := final (GetRoleInfo sourceClient sourceRole s)).
  assert (Forall harmless (trace (RoleExists destClient destRole s1))) as Hexi.
  { eapply Forall_impl; [apply (RoleExists_reads destClient destRole s1)|].
    apply request_of_harmless. }
  pose proof (debug_events_harmless log) as Hdebug.
  pose proof (log_events_harmless log) as Hlog.
  destruct (value (GetRoleInfo sourceClient sourceRole s)) as [roleInfo|e] eqn:Hinfo.
  2:{ autorewrite with run_eq. rewrite List.app_nil_r. left.
      eapply Forall_impl; [|apply harmless_nothing_created].
      apply Forall_app. by split. }
  autorewrite with run_eq. rewrite Hdry. autorewrite with run_eq.
  destruct (value (RoleExists destClient destRole s1)) eqn:Hexists.
  { autorewrite with run_eq. rewrite List.app_nil_r. left.
    eapply Forall_impl; [|apply harmless_nothing_created].
    rewrite !Forall_app. by repeat split. }
  autorewrite with run_eq. rewrite !verbose_debug2_run. autorewrite with run_eq.
  set (s2 := final (RoleExists destClient destRole s1)).
  set (now := outside (time_Now_Format "2006-01-02 15:04:05") s2).
  set (trust := ReplacePatternInJSON (TrustPolicy roleInfo) (SourcePattern config)
                  (DestPattern config)).
  set (description := "Cloned from " +:+ sourceRole +:+ " on " +:+ value now).
  destruct (CreateRole_post destClient destRole trust description (final now))
    as (e & Htrace & Hvalue).
  rewrite Hvalue, Htrace.
  assert (trace now = []) as ->.
  { unfold now, outside. by destruct (time_Now_Format _ _). }
  assert (∀ m1 m2,
    Forall harmless
      (if Verbose config
       then (if Logger.verbose log then log_events log DEBUG m1 else []) ++
            (if Logger.verbose log then log_events log DEBUG m2 else [])
       else [])) as Hverbose.
  { intros m1 m2. destruct (Verbose config); [|constructor].
    apply Forall_app. by split. }
  destruct e as [e|]; cbn [fmap option_fmap option_map].
  - autorewrite with run_eq. rewrite verbose_error_run. autorewrite with run_eq.
    left. rewrite !Forall_app. repeat split;
      try (by eapply Forall_impl; [|apply harmless_nothing_created];
              first [ done | destruct (Verbose config);
                             first [ apply Hlog | constructor ] ]).
    constructor; [|constructor]. simpl. right. split; [done|by eexists].
  - autorewrite with run_eq. right.
    eexists roleInfo, _, _. split; [done|]. split; [|split].
    3:{ rewrite List.app_nil_r, !(assoc_L (++)). reflexivity. }
    + rewrite !Forall_app. repeat split;
        try (by eapply Forall_impl; [|apply harmless_up_to_creation];
                first [ done | constructor ]).
      constructor; [|constructor]. simpl. by right.
    + eexists. split; [|split].
      * rewrite !elem_of_app. left. right. apply list_elem_of_here.
      * reflexivity.
      * reflexivity.
Qed.

(** Policies are copied to a role only when the clone has just created
  it: after a successful CreateRole the managed policies of the source
  role are attached as they are and in their order, and its inline
  policies are put under their new names with their documents replaced,
  each once; without one, nothing is attached and nothing is put. *)
Theorem cloneSingleRole_copies_to_a_created_role (sourceClient destClient : Client)
    (sourceRole destRole : string) (config : CloneConfig) (log : Logger.Logger)
    (s : State E) :
  let r := cloneSingleRole sourceClient (Some destClient) sourceRole destRole
             config log s in
  let succeeded :=
    ∃ c, c ∈ calls_of (trace r) ∧ is_CreateRole (call_request c) = true ∧
         call_error c = None in
  DryRun config = false →
  (succeeded →
   ∃ roleInfo entries,
     value (GetRoleInfo sourceClient sourceRole s) = Ok roleInfo ∧
     entries ≡ₚ map_to_list (InlinePolicies roleInfo) ∧
     attached (trace r) =
       (λ policyArn, (destRole, policyArn)) <$> ManagedPolicies roleInfo ∧
     put (trace r) =
       (λ entry : string * string,
          (destRole,
           (GenerateNewRoleName entry.1 (SourcePattern config) (DestPattern config),
            ReplacePatternInJSON entry.2 (SourcePattern config)
              (DestPattern config)))) <$> entries) ∧
  (¬ succeeded → attached (trace r) = [] ∧ put (trace r) = []).
Proof.
  intros r succeeded Hdry.
  assert (∀ t, Forall up_to_creation t → attached t = [] ∧ put t = []) as Hquiet.
  { intros t Ht. split; [apply attached_none|apply put_none];
      (eapply Forall_impl; [exact Ht|]); intros ev Hev; by apply up_to_creation_quiet. }
  destruct (cloneSingleRole_ways sourceClient destClient sourceRole destRole config
              log s Hdry)
    as [Hnone|(roleInfo & before & s' & Hinfo & Hbefore & Hcreated & Htrace)];
    fold r in Hnone || fold r in Htrace.
  - split.
    + intros (c & Hc%elem_of_calls_of & Hcreate & Herr). exfalso.
      rewrite Forall_forall in Hnone. apply Hnone in Hc. simpl in Hc.
      destruct Hc as [Hc|[_ [e He]]].
      * by destruct (call_request c).
      * by rewrite Herr in He.
    + intros _. apply Hquiet. eapply Forall_impl; [exact Hnone|].
      intros [| | | |c]; try done. simpl. intros [?|[? _]]; [by left|by right].
  - split.
    + intros _.
      destruct (copyPoliciesAndTags_sends destClient destRole roleInfo config log s')
        as (entries & Hperm & Ha & Hp & _).
      exists roleInfo, entries. split; [done|]. split; [done|].
      destruct (Hquiet _ Hbefore) as [Ha0 Hp0].
      by rewrite Htrace, attached_app, put_app, Ha0, Hp0, Ha, Hp.
    + intros Hnot. exfalso. apply Hnot.
      destruct Hcreated as (c & Hc & Hcreate & Herr). exists c.
      split; [|done]. apply elem_of_calls_of. rewrite Htrace.
      apply elem_of_app. by left.
Qed.

End clone.

End CloneRequestFacts.

(** ** The wizard *)

Module WizardFacts.
Import GoString GoStrings Awsclient Cmd GatewayFacts CloneFacts.

Section wizard.
Context {E : Type} `{External E} `{Encoding} `{GoStrings.UnicodeTables}.

Lemma silent_benign (ev : Event) : silent ev → ev ≠ LogClose → benign ev.
Proof. by destruct ev. Qed.

Lemma reading_benign (p : string) (ev : Event) :
  request_of p (λ r, mutating r = false) ev → benign ev.
Proof. destruct ev; try done. by intros [_ ?]. Qed.

Lemma request_not_close (p : string) (R : Request → Prop) (ev : Event) :
  request_of p R ev → not_close ev.
Proof. by destruct ev. Qed.

Lemma benign_not_close (ev : Event) : benign ev → not_close ev.
Proof. by intros [_ ?]. Qed.

Lemma benign_harmless (ev : Event) : benign ev → harmless ev.
Proof. by intros [? _]. Qed.

Lemma NewClient_benign (p : string) : always benign (NewClient p : M E _).
Proof. unfold NewClient. always_auto. Qed.

Lemma ValidateCredentials_benign (c : Client) : always benign (ValidateCredentials c : M E _).
Proof. eapply always_mono; [apply ValidateCredentials_reads|]. apply reading_benign. Qed.

Lemma ListRoles_benign (c : Client) (prefix : string) :
  always benign (ListRoles c prefix : M E _).
Proof. eapply always_mono; [apply ListRoles_reads|]. apply reading_benign. Qed.

(** One step of a proof that a step of the wizard is benign. *)
Ltac benign_step :=
  first
    [ apply NewClient_benign
    | apply ValidateCredentials_benign
    | apply ListRoles_benign
    | always_step
    | progress autounfold with run ].

Lemma getAndValidateProfiles_benign config log :
  always benign (getAndValidateProfiles config log : M E _).
Proof. unfold getAndValidateProfiles. repeat benign_step. Qed.

Lemma getPatternConfiguration_benign config log :
  always benign (getPatternConfiguration config log : M E _).
Proof. unfold getPatternConfiguration. repeat benign_step. Qed.

Lemma manualEntryLoop_benign fuel count roles :
  always benign (manualEntryLoop fuel count roles : M E _).
Proof.
  revert roles. induction fuel as [|fuel IH]; intros roles; simpl;
    destruct (count <=? length roles); repeat benign_step; apply IH.
Qed.

Lemma getRolesManually_benign config log :
  always benign (getRolesManually config log : M E _).
Proof.
  unfold getRolesManually.
  repeat first [ apply manualEntryLoop_benign | benign_step ].
Qed.

Lemma discoverAndSelectRoles_benign config log :
  always benign (discoverAndSelectRoles config log : M E _).
Proof.
  unfold discoverAndSelectRoles.
  repeat first [ apply getRolesManually_benign | benign_step ].
Qed.

Lemma showSummaryAndConfirm_benign config log :
  always benign (showSummaryAndConfirm config log : M E _).
Proof. unfold showSummaryAndConfirm. repeat benign_step. Qed.

(** *** The execution step keeps the log file open and does not panic *)

Lemma GetRoleInfo_not_close (c : Client) roleName :
  always not_close (GetRoleInfo c roleName : M E _).
Proof. eapply always_mono; [apply GetRoleInfo_reads|]. apply request_not_close. Qed.

Lemma RoleExists_not_close (c : Client) roleName :
  always not_close (RoleExists c roleName : M E _).
Proof. eapply always_mono; [apply RoleExists_reads|]. apply request_not_close. Qed.

Lemma CreateRole_not_close (c : Client) roleName trustPolicy description :
  always not_close (CreateRole c roleName trustPolicy description : M E _).
Proof. eapply always_mono; [apply CreateRole_requests|]. apply request_not_close. Qed.

Lemma AttachManagedPolicy_not_close (c : Client) roleName policyArn :
  always not_close (AttachManagedPolicy c roleName policyArn : M E _).
Proof.
  eapply always_mono; [apply AttachManagedPolicy_requests|]. apply request_not_close.
Qed.

Lemma CreateInlinePolicy_not_close (c : Client) roleName policyName policyDocument :
  always not_close (CreateInlinePolicy c roleName policyName policyDocument : M E _).
Proof.
  eapply always_mono; [apply CreateInlinePolicy_requests|]. apply request_not_close.
Qed.

Lemma TagRole_not_close (c : Client) roleName tags :
  always not_close (TagRole c roleName tags : M E _).
Proof. eapply always_mono; [apply TagRole_requests|]. apply request_not_close. Qed.

Lemma NewClient_not_close (p : string) : always not_close (NewClient p : M E _).
Proof. unfold NewClient. always_auto. Qed.

Ltac not_close_step :=
  first
    [ apply NewClient_not_close
    | apply GetRoleInfo_not_close
    | apply RoleExists_not_close
    | apply CreateRole_not_close
    | apply AttachManagedPolicy_not_close
    | apply CreateInlinePolicy_not_close
    | apply TagRole_not_close
    | always_step
    | progress autounfold with run ].

Lemma cloneSingleRole_not_close sourceClient destClient sourceRole destRole config log :
  always not_close
    (cloneSingleRole sourceClient destClient sourceRole destRole config log : M E _).
Proof.
  unfold cloneSingleRole, dryRunPreview, copyPoliciesAndTags. repeat not_close_step.
Qed.

Lemma cloneLoop_not_close sourceClient destClient config log i roles successCount :
  always not_close
    (cloneLoop sourceClient destClient config log i roles successCount : M E _).
Proof.
  revert i successCount. induction roles as [|role roles IH]; intros i successCount;
    simpl; repeat first [ apply cloneSingleRole_not_close | apply IH | not_close_step ].
Qed.

Lemma performCloning_not_close config log :
  always not_close (performCloning config log : M E _).
Proof.
  unfold performCloning. repeat first [ apply cloneLoop_not_close | not_close_step ].
Qed.

(** The execution step never dereferences the missing destination client:
  it returns or it fails with an error. *)
Lemma performCloning_returns config log :
  post (performCloning config log : M E _) (λ r _, ∃ e, r = Return e).
Proof.
  unfold performCloning.
  apply returns_bind. intros _. apply returns_bind. intros _.
  apply returns_bind. intros [sourceClient|e]; [|apply post_ret; by eexists].
  destruct (DryRun config) eqn:Hdry; cbn [negb].
  - apply returns_bind. intros [destClient|e]; [|apply post_ret; by eexists].
    eapply post_bind; [apply cloneLoop_returns; by left|].
    intros r t1 [n ->]. apply returns_bind. intros _. apply returns_bind. intros _.
    apply returns_bind. intros _. apply post_ret. by eexists.
  - eapply post_bind.
    { instantiate (1 := λ r _, ∀ d, r = Ok d → is_Some d).
      apply returns_bind. intros [c|e]; apply post_ret; intros d [= <-]. by eexists. }
    intros [destClient|e] t0 Hd; [|apply post_ret; by eexists].
    eapply post_bind; [apply cloneLoop_returns; right; by apply Hd|].
    intros r t1 [n ->]. apply returns_bind. intros _. apply returns_bind. intros _.
    apply returns_bind. intros _. apply post_ret. by eexists.
Qed.

(** *** The steps keep the mode of the run *)

Lemma same_mode_refl config : same_mode config config.
Proof. done. Qed.

Lemma same_mode_trans c1 c2 c3 : same_mode c1 c2 → same_mode c2 c3 → same_mode c1 c3.
Proof. intros (? & ? & ?) (? & ? & ?). repeat split; congruence. Qed.

(** A prompt that sets one field of the configuration. *)
Lemma prompt_mode (config : CloneConfig) (asked : bool) (text : string)
    (set : string → CloneConfig → CloneConfig) :
  (∀ v, same_mode config (set v config)) →
  post ((if asked then
           Print text;;
           answer ← ReadString_nl;
           mret (set (GoStrings.TrimSpace answer) config)
         else mret config) : M E _)
    (λ config' _, same_mode config config').
Proof.
  intros Hset. destruct asked.
  - apply returns_bind. intros _. apply returns_bind. intros answer.
    apply post_ret, Hset.
  - by apply post_ret.
Qed.

Lemma getAndValidateProfiles_mode config log :
  post (getAndValidateProfiles config log : M E _) (λ r _, same_mode config r.1).
Proof.
  unfold getAndValidateProfiles.
  apply returns_bind. intros _. apply returns_bind. intros _.
  eapply post_bind; [by apply (prompt_mode config _ _ set_SourceProfile)|].
  intros config1 t1 Hm1.
  eapply post_bind; [by apply (prompt_mode config1 _ _ set_DestProfile)|].
  intros config2 t2 Hm2.
  pose proof (same_mode_trans _ _ _ Hm1 Hm2) as Hm.
  repeat first
    [ apply post_ret; exact Hm
    | apply returns_bind; intros ?
    | match goal with
      | |- post (match ?x with _ => _ end) _ => destruct x
      end ].
Qed.

Lemma getPatternConfiguration_mode config log :
  post (getPatternConfiguration config log : M E _) (λ r _, same_mode config r.1).
Proof.
  unfold getPatternConfiguration.
  apply returns_bind. intros _. apply returns_bind. intros _.
  eapply post_bind; [by apply (prompt_mode config _ _ set_SourcePattern)|].
  intros config1 t1 Hm1.
  eapply post_bind; [by apply (prompt_mode config1 _ _ set_DestPattern)|].
  intros config2 t2 Hm2.
  pose proof (same_mode_trans _ _ _ Hm1 Hm2) as Hm.
  apply returns_bind. intros _. apply returns_bind. intros _. by apply post_ret.
Qed.

Lemma manualEntryLoop_no_panic fuel count roles :
  post (manualEntryLoop fuel count roles : M E _)
    (λ r _, match r with Panic _ => False | _ => True end).
Proof.
  revert roles. induction fuel as [|fuel IH]; intros roles; simpl;
    destruct (count <=? length roles); try by apply post_ret.
  apply returns_bind. intros _. apply returns_bind. intros role.
  destruct (negb _); apply IH.
Qed.

Lemma getRolesManually_selected config log :
  post (getRolesManually config log : M E _) (λ r _, selected config r).
Proof.
  unfold getRolesManually.
  apply returns_bind. intros _. apply returns_bind. intros _.
  apply returns_bind. intros countStr.
  destruct (GoStrconv.Atoi _) as [count|]; [|by apply post_ret].
  destruct (_ || _); [by apply post_ret|].
  apply returns_bind. intros fuel.
  eapply post_bind; [apply manualEntryLoop_no_panic|].
  intros [roles|msg|] t1 Hr; try done; by apply post_ret.
Qed.

Lemma discoverAndSelectRoles_selected config log :
  post (discoverAndSelectRoles config log : M E _) (λ r _, selected config r).
Proof.
  unfold discoverAndSelectRoles.
  apply returns_bind. intros _. apply returns_bind. intros _.
  apply returns_bind. intros [sourceClient|e]; [|by apply post_ret].
  apply returns_bind. intros _.
  apply returns_bind. intros [allRoles|e]; [|by apply post_ret].
  destruct (length allRoles =? 0).
  - apply returns_bind. intros _. apply getRolesManually_selected.
  - apply returns_bind. intros _. apply returns_bind. intros _.
    apply returns_bind. intros _. apply returns_bind. intros _.
    apply returns_bind. intros selection.
    destruct (String.eqb _ _).
    + apply returns_bind. intros _. by apply post_ret.
    + destruct (parseRoleSelection _ _); [|by apply post_ret].
      apply returns_bind. intros _. by apply post_ret.
Qed.

(** *** The whole wizard *)

Lemma always_with {A B} (m : M E A) (f : A → M E B) (P : Event → Prop)
    (Q1 : A → Prop) :
  always P m → post m (λ a _, Q1 a) → (∀ a, Q1 a → always P (f a)) →
  always P (m ≫= f).
Proof.
  intros Hm HQ Hf. eapply post_bind; [apply (post_and _ _ _ Hm HQ)|].
  intros a t1 [Ht1 Ha]. simpl in Ht1. eapply post_mono; [by apply Hf|].
  intros b t2 Ht2. simpl in *. by apply Forall_app.
Qed.

Lemma New_silent verbose logFileName :
  always silent (Logger.New verbose logFileName : M E _).
Proof. unfold Logger.New. always_auto. Qed.

Lemma always_harmless_of_benign {A} (m : M E A) : always benign m → always harmless m.
Proof. intros Hm. eapply always_mono; [exact Hm|]. apply benign_harmless. Qed.

(** A dry run of the whole wizard, whatever is typed and whatever the
  service answers, sends no request that changes an account. *)
Theorem dry_run_wizard_changes_nothing (config : CloneConfig) :
  DryRun config = true → always harmless (runEnhancedClone config : M E _).
Proof.
  intros Hdry. unfold runEnhancedClone.
  apply always_bind.
  { eapply always_mono; [apply New_silent|]. by intros []. }
  intros [log|e]; [|always_auto].
  apply always_bind; [always_auto|]. intros _.
  apply always_bind; [always_auto|]. intros _.
  apply (always_with _ _ _ (λ r, same_mode config r.1)).
  { apply always_harmless_of_benign, getAndValidateProfiles_benign. }
  { apply getAndValidateProfiles_mode. }
  intros [config1 [e|]] Hm1; [always_auto|]. simpl in Hm1.
  apply (always_with _ _ _ (λ r, same_mode config1 r.1)).
  { apply always_harmless_of_benign, getPatternConfiguration_benign. }
  { apply getPatternConfiguration_mode. }
  intros [config2 [e|]] Hm2; [always_auto|]. simpl in Hm2.
  apply (always_with _ _ _ (selected config2)).
  { apply always_harmless_of_benign, discoverAndSelectRoles_benign. }
  { apply discoverAndSelectRoles_selected. }
  intros [[config3 [e|]]|msg|] Hm3; try done; try (by always_auto).
  simpl in Hm3.
  apply always_bind.
  { apply always_harmless_of_benign, showSummaryAndConfirm_benign. }
  intros [|]; cbn [negb]; [|always_auto].
  apply always_bind.
  { eapply always_mono; [apply performCloning_dry|apply reads_only_harmless].
    destruct Hm1 as [Hd1 _], Hm2 as [Hd2 _], Hm3 as [Hd3 _]. congruence. }
  intros [[e|]|msg|]; always_auto.
Qed.

Lemma wizard_end_after logFile (t1 t2 : list Event) r :
  Forall not_close t1 → wizard_end logFile r t2 → wizard_end logFile r (t1 ++ t2).
Proof.
  intros Ht1. destruct r as [[|code]|msg|]; simpl.
  - intros (before & -> & Hbefore). exists (t1 ++ before).
    split; [by rewrite (assoc_L (++))|by apply Forall_app].
  - intros [-> Ht2]. split; [done|by apply Forall_app].
  - done.
  - intros Ht2. by apply Forall_app.
Qed.

Lemma wizard_end_bind {A} logFile (m : M E A) (f : A → M E (outcome ProcessEnd))
    (Q1 : A → Prop) :
  always not_close m → post m (λ a _, Q1 a) →
  (∀ a, Q1 a → post (f a) (wizard_end logFile)) →
  post (m ≫= f) (wizard_end logFile).
Proof.
  intros Hm HQ Hf. eapply post_bind; [apply (post_and _ _ _ Hm HQ)|].
  intros a t1 [Ht1 Ha]. simpl in Ht1. eapply post_mono; [by apply Hf|].
  intros b t2 Ht2. simpl in *. by apply wizard_end_after.
Qed.

Lemma wizard_end_then {A} logFile (m : M E A) (f : A → M E (outcome ProcessEnd)) :
  always not_close m → (∀ a, post (f a) (wizard_end logFile)) →
  post (m ≫= f) (wizard_end logFile).
Proof.
  intros Hm Hf. apply (wizard_end_bind _ _ _ (λ _, True)); [done| |by intros a _].
  by intros s.
Qed.

Lemma exits logFile (log : Logger.Logger) (msg : string) :
  post (Logger.Error log msg;; mret (Return (Exited 1)) : M E _) (wizard_end logFile).
Proof.
  apply wizard_end_then; [always_auto|]. intros _. apply post_ret. by split.
Qed.

Lemma always_not_close_of_benign {A} (m : M E A) : always benign m → always not_close m.
Proof. intros Hm. eapply always_mono; [exact Hm|]. apply benign_not_close. Qed.

Lemma New_post verbose logFileName :
  post (Logger.New verbose logFileName : M E _)
    (λ r _, ∀ log, r = Ok log → close_events log = closing logFileName).
Proof.
  unfold Logger.New, closing. destruct (String.eqb logFileName "").
  - apply post_ret. by intros log [= <-].
  - apply returns_bind. intros [e|]; apply post_ret; by intros log [= <-].
Qed.

Lemma runEnhancedClone_ends (config : CloneConfig) :
  post (runEnhancedClone config : M E _) (wizard_end (LogFile config)).
Proof.
  unfold runEnhancedClone.
  apply (wizard_end_bind _ _ _
           (λ r, ∀ log, r = Ok log → close_events log = closing (LogFile config))).
  { unfold Logger.New. always_auto. }
  { apply New_post. }
  intros [log|e] Hlog.
  2:{ apply wizard_end_then; [always_auto|]. intros _. apply post_ret. by split. }
  specialize (Hlog _ eq_refl).
  assert (post (Logger.Close log;; mret (Return Returned) : M E _)
            (wizard_end (LogFile config))) as Hclose.
  { intros s. autorewrite with run_eq. rewrite Hlog. simpl. exists [].
    by rewrite List.app_nil_r. }
  apply wizard_end_then; [always_auto|]. intros _.
  apply wizard_end_then; [always_auto|]. intros _.
  apply wizard_end_then.
  { apply always_not_close_of_benign, getAndValidateProfiles_benign. }
  intros [config1 [e|]]; [apply exits|].
  apply wizard_end_then.
  { apply always_not_close_of_benign, getPatternConfiguration_benign. }
  intros [config2 [e|]]; [apply exits|].
  apply (wizard_end_bind _ _ _ (selected config2)).
  { apply always_not_close_of_benign, discoverAndSelectRoles_benign. }
  { apply discoverAndSelectRoles_selected. }
  intros [[config3 [e|]]|msg|] Hm3; try done; [apply exits| |apply post_ret; constructor].
  apply wizard_end_then.
  { apply always_not_close_of_benign, showSummaryAndConfirm_benign. }
  intros [|]; cbn [negb].
  2:{ apply wizard_end_then; [always_auto|]. intros _. apply Hclose. }
  apply (wizard_end_bind _ _ _ (λ r, ∃ e, r = Return e)).
  { apply performCloning_not_close. }
  { apply performCloning_returns. }
  intros r [[e|] ->]; [apply exits|].
  apply wizard_end_then; [always_auto|]. intros _.
  apply wizard_end_then; [always_auto|]. intros _. apply Hclose.
Qed.

(** The ways the wizard ends. It leaves through [os.Exit(1)], then the
  deferred [log.Close] does not run and the log file is never closed; or it
  returns, then the log file is closed as the last thing and not before;
  or it never ends. It does not panic: the destination client that is
  missing in a dry run is never used. The clone command always runs it
  with a log file: the one the flag names or, without the flag, one named
  after the time. *)
Theorem wizard_ends_with_the_log_closed_or_exits (config : CloneConfig) :
  post (runEnhancedClone config : M E _) (wizard_end (LogFile config)) ∧
  ∀ verbose dryRun sourceProfile destProfile sourcePattern destPattern logFile,
    post (cloneCmd_Run verbose dryRun sourceProfile destProfile sourcePattern
            destPattern logFile : M E _)
      (λ r t, ∃ name, closing name = [LogClose] ∧ wizard_end name r t).
Proof.
  split; [apply runEnhancedClone_ends|].
  intros verbose dryRun sourceProfile destProfile sourcePattern destPattern logFile.
  unfold cloneCmd_Run.
  eapply post_bind.
  { instantiate (1 := λ name t, t = [] ∧ closing name = [LogClose]).
    destruct (String.eqb logFile "") eqn:Hname.
    - eapply post_bind; [apply outside_post|]. intros now t ->.
      apply post_ret. by split.
    - apply post_ret. split; [done|]. unfold closing. by rewrite Hname. }
  intros name t1 [-> Hname]. cbn [app].
  eapply post_mono; [apply runEnhancedClone_ends|].
  intros r t Hend. by exists name.
Qed.





(** *** Manual entry *)

Lemma manualEntryLoop_names fuel count roles :
  length roles ≤ count → Forall (λ role, role ≠ "") roles →
  post (manualEntryLoop fuel count roles : M E _)
    (λ r _, ∀ roles', r = Return roles' →
            length roles' = count ∧ Forall (λ role, role ≠ "") roles').
Proof.
  revert roles. induction fuel as [|fuel IH]; intros roles Hlen Hroles; simpl;
    destruct (count <=? length roles) eqn:Hdone.
  - apply post_ret. intros roles' [= <-]. apply Nat.leb_le in Hdone. split; [lia|done].
  - by apply post_ret.
  - apply post_ret. intros roles' [= <-]. apply Nat.leb_le in Hdone. split; [lia|done].
  - apply Nat.leb_gt in Hdone.
    apply returns_bind. intros _. apply returns_bind. intros answer.
    destruct (String.eqb (GoStrings.TrimSpace answer) "") eqn:Hempty; cbn [negb].
    + by apply IH.
    + apply IH.
      * rewrite length_app. simpl. lia.
      * apply Forall_app. split; [done|]. constructor; [|constructor].
        intros Heq. by rewrite Heq in Hempty.
Qed.

Lemma manualEntryLoop_eof fuel count roles (s : State E) :
  stdin s = "" → length roles < count →
  value (manualEntryLoop fuel count roles s) = Diverge.
Proof.
  revert s. induction fuel as [|fuel IH]; intros s Hs Hlen; simpl;
    destruct (count <=? length roles) eqn:Hdone;
    try (apply Nat.leb_le in Hdone; lia); [done|].
  rewrite !value_bind. autorewrite with run_eq.
  assert (value (ReadString_nl s) = "" ∧ stdin (final (ReadString_nl s)) = "")
    as [-> Hs'].
  { unfold ReadString_nl. rewrite Hs. by split. }
  cbn. by apply IH.
Qed.

(** The manual entry of role names. A count that is no number or lies
  outside 1 to 20 is an error and nothing is selected; otherwise, when the
  entry returns, it has selected exactly that many names, none of them
  empty, and has changed nothing else of the configuration. An empty line
  is asked again, so when the input ends before all names are entered the
  entry never returns. *)
Theorem manual_entry_reads_the_announced_names (config : CloneConfig)
    (log : Logger.Logger) :
  post (getRolesManually config log : M E _)
    (λ r _, ∀ config' err, r = Return (config', err) →
       match err with
       | Some e => config' = config
       | None =>
         config' = set_Roles (Roles config') config ∧
         1 ≤ length (Roles config') ≤ 20 ∧
         Forall (λ role, role ≠ "") (Roles config')
       end) ∧
  (∀ (s : State E) countStr,
     GoStrings.TrimSpace (value (ReadString_nl s)) = countStr →
     (GoStrconv.Atoi countStr = None ∨
      ∃ count, GoStrconv.Atoi countStr = Some count ∧ (count < 1 ∨ 20 < count)%Z) →
     value (getRolesManually config log s) =
       Return (config, Some ("invalid role count: " +:+ countStr))) ∧
  (∀ fuel count roles (s : State E),
     stdin s = "" → length roles < count →
     value (manualEntryLoop fuel count roles s) = Diverge).
Proof.
  split; [|split].
  - unfold getRolesManually.
    apply returns_bind. intros _. apply returns_bind. intros _.
    apply returns_bind. intros countStr.
    destruct (GoStrconv.Atoi _) as [count|];
      [|apply post_ret; by intros config' err [= <- <-]].
    destruct (_ || _) eqn:Hrange; [apply post_ret; by intros config' err [= <- <-]|].
    apply orb_false_elim in Hrange as [Hlo%Z.ltb_ge Hhi].
    rewrite Z.gtb_ltb in Hhi. apply Z.ltb_ge in Hhi.
    apply returns_bind. intros fuel.
    eapply post_bind; [by apply manualEntryLoop_names; [simpl; lia|constructor]|].
    intros [roles|msg|] t1 Hroles; apply post_ret; intros config' err [= <- <-].
    destruct (Hroles _ eq_refl) as [Hlen Hne]. simpl. rewrite Hlen.
    split; [done|]. split; [lia|done].
  - intros s countStr Hcount Hbad. unfold getRolesManually.
    rewrite !value_bind. autorewrite with run_eq. rewrite Hcount.
    destruct Hbad as [->|(count & -> & Hrange)]; [done|].
    assert (((count <? 1) || (count >? 20))%Z = true) as ->; [|done].
    apply orb_true_iff. destruct Hrange.
    + left. by apply Z.ltb_lt.
    + right. rewrite Z.gtb_ltb. by apply Z.ltb_lt.
  - apply manualEntryLoop_eof.
Qed.

(** *** The validation of the profiles *)

Lemma calls_of_silent (t : list Event) : Forall silent t → calls_of t = [].
Proof.
  induction 1 as [|ev t Hev _ IH]; [done|]. destruct ev; try done.
Qed.

Lemma calls_quiet_bind {A B} (m : M E A) (f : A → M E B)
    (R : B → list Call → Prop) (l : list Call) :
  always silent m →
  (∀ a, post (f a) (λ r t, R r (l ++ calls_of t))) →
  post (m ≫= f) (λ r t, R r (l ++ calls_of t)).
Proof.
  intros Hm Hf. eapply post_bind; [exact Hm|].
  intros a t1 Ht1. eapply post_mono; [apply Hf|].
  intros b t2 Ht2. simpl in *. by rewrite calls_of_app, (calls_of_silent _ Ht1).
Qed.

Lemma calls_request_bind {A B} (p : string) (req : Request) (g : E → A * E)
    (err : A → error) (f : A → M E B) (R : B → list Call → Prop) (l : list Call) :
  (∀ a, post (f a) (λ r t, R r ((l ++ [Build_Call p req (err a)]) ++ calls_of t))) →
  post (request p req g err ≫= f) (λ r t, R r (l ++ calls_of t)).
Proof.
  intros Hf. eapply post_bind; [apply request_post|].
  intros a t1 ->. eapply post_mono; [apply Hf|].
  intros b t2 Ht2. simpl in *. by rewrite <- (assoc_L (++)) in Ht2.
Qed.

Lemma calls_ret {B} (b : B) (R : B → list Call → Prop) (l : list Call) :
  R b l → post (mret b : M E B) (λ r t, R r (l ++ calls_of t)).
Proof. intros HR. apply post_ret. simpl. by rewrite List.app_nil_r. Qed.

Lemma prompt_silent (config : CloneConfig) (asked : bool) (text : string)
    (set : string → CloneConfig → CloneConfig) :
  always silent ((if asked then
           Print text;;
           answer ← ReadString_nl;
           mret (set (GoStrings.TrimSpace answer) config)
         else mret config) : M E _).
Proof. destruct asked; always_auto. Qed.

(** The validation of the two profiles asks for the caller identity and
  nothing else, the source first; an error of the source ends the step
  before the destination is contacted; and when the step succeeds both
  identities were obtained, for the profiles the configuration names
  afterwards. *)
Theorem profiles_are_validated_by_identity (config : CloneConfig)
    (log : Logger.Logger) :
  post (getAndValidateProfiles config log : M E _)
    (λ r t, validation_calls r.1 r.2 (calls_of t)).
Proof.
  set (R := λ (r : CloneConfig * error) calls, validation_calls r.1 r.2 calls).
  change (post (getAndValidateProfiles config log : M E _)
            (λ r t, R r ([] ++ calls_of t))).
  unfold getAndValidateProfiles.
  apply (calls_quiet_bind _ _ R); [always_auto|]. intros _.
  apply (calls_quiet_bind _ _ R); [always_auto|]. intros _.
  apply (calls_quiet_bind _ _ R); [apply prompt_silent|]. intros config1.
  apply (calls_quiet_bind _ _ R); [apply prompt_silent|]. intros config2.
  apply (calls_quiet_bind _ _ R); [always_auto|]. intros _.
  eapply post_bind; [apply NewClient_post|].
  intros [sourceClient|e] t1 [Ht1 Hsp].
  2:{ apply post_ret. rewrite List.app_nil_r, (calls_of_silent _ Ht1). by left. }
  specialize (Hsp _ eq_refl).
  eapply post_mono.
  2:{ intros r t Hr. rewrite calls_of_app, (calls_of_silent _ Ht1). exact Hr. }
  unfold ValidateCredentials. rewrite Hsp.
  apply (calls_request_bind _ _ _ _ _ R). intros [sourceIdentity|e].
  2:{ apply (calls_ret _ R). right. left. by exists e. }
  apply (calls_quiet_bind _ _ R); [always_auto|]. intros _.
  apply (calls_quiet_bind _ _ R); [always_auto|]. intros _.
  apply (calls_quiet_bind _ _ R); [always_auto|]. intros _.
  eapply post_bind; [apply NewClient_post|].
  intros [destClient|e] t2 [Ht2 Hdp].
  2:{ apply post_ret. rewrite List.app_nil_r, (calls_of_silent _ Ht2).
      right. right. by left. }
  specialize (Hdp _ eq_refl).
  eapply post_mono.
  2:{ intros r t Hr. rewrite calls_of_app, (calls_of_silent _ Ht2). exact Hr. }
  rewrite Hdp.
  apply (calls_request_bind _ _ _ _ _ R). intros [destIdentity|e].
  2:{ apply (calls_ret _ R). do 3 right. left. by exists e. }
  apply (calls_quiet_bind _ _ R); [always_auto|]. intros _.
  apply (calls_quiet_bind _ _ R); [always_auto|]. intros _.
  destruct (String.eqb _ _).
  - apply (calls_quiet_bind _ _ R); [always_auto|]. intros _.
    apply (calls_quiet_bind _ _ R); [always_auto|]. intros _.
    apply (calls_quiet_bind _ _ R); [always_auto|]. intros confirm.
    destruct (negb _); apply (calls_ret _ R); [by do 4 right|done].
  - by apply (calls_ret _ R).
Qed.

End wizard.

End WizardFacts.

(** ** The wizard without input *)

Module EofFacts.
Import GoString GoStrings Awsclient Cmd GatewayFacts CloneFacts WizardFacts.

Section eof.
Context {E : Type} `{External E} `{Encoding} `{GoStrings.UnicodeTables}.

Lemma keeps_ret {A} (a : A) : keeps_eof (mret a : M E A).
Proof. by intros s. Qed.

Lemma keeps_bind {A B} (m : M E A) (f : A → M E B) :
  keeps_eof m → (∀ a, keeps_eof (f a)) → keeps_eof (m ≫= f).
Proof. intros Hm Hf s Hs. rewrite final_bind. by apply Hf, Hm. Qed.

Lemma keeps_emit (ev : Event) : keeps_eof (emit ev : M E unit).
Proof. by intros s. Qed.

Lemma keeps_outside {A} (f : E → A * E) : keeps_eof (outside f).
Proof. intros s Hs. unfold outside. by destruct (f (ext s)). Qed.

Lemma keeps_ReadString_nl : keeps_eof (ReadString_nl : M E string).
Proof. intros s Hs. unfold ReadString_nl. rewrite Hs. reflexivity. Qed.

Lemma keeps_stdin_left : keeps_eof (stdin_left : M E nat).
Proof. by intros s. Qed.

Lemma keeps_forEach {A} (xs : list A) (body : A → M E unit) :
  (∀ x, keeps_eof (body x)) → keeps_eof (forEach xs body).
Proof.
  intros Hbody. induction xs as [|x xs IH]; simpl.
  - apply keeps_ret.
  - apply keeps_bind; [apply Hbody|]. intros _. apply IH.
Qed.

Lemma keeps_forEachIndexed {A} (i0 : nat) (xs : list A) (body : nat → A → M E unit) :
  (∀ i x, keeps_eof (body i x)) → keeps_eof (forEachIndexed i0 xs body).
Proof.
  intros Hbody. revert i0. induction xs as [|x xs IH]; intros i0; simpl.
  - apply keeps_ret.
  - apply keeps_bind; [apply Hbody|]. intros _. apply IH.
Qed.

Ltac keeps_step :=
  match goal with
  | |- keeps_eof (mret _) => apply keeps_ret
  | |- keeps_eof (mbind _ _) => apply keeps_bind; [|intros ?]
  | |- keeps_eof (emit _) => apply keeps_emit
  | |- keeps_eof (outside _) => apply keeps_outside
  | |- keeps_eof ReadString_nl => apply keeps_ReadString_nl
  | |- keeps_eof stdin_left => apply keeps_stdin_left
  | |- keeps_eof (forEach _ _) => apply keeps_forEach; intros ?
  | |- keeps_eof (forEachIndexed _ _ _) => apply keeps_forEachIndexed; intros ? ?
  | |- keeps_eof (match ?x with _ => _ end) => destruct x
  | |- keeps_eof (let (_, _) := ?x in _) => destruct x
  end.

Ltac keeps_auto := repeat (autounfold with run; keeps_step).

Lemma keeps_NewClient (p : string) : keeps_eof (NewClient p : M E _).
Proof. unfold NewClient. keeps_auto. Qed.

Lemma keeps_ValidateCredentials (c : Client) : keeps_eof (ValidateCredentials c : M E _).
Proof. unfold ValidateCredentials. keeps_auto. Qed.

Lemma keeps_listRolesPages (c : Client) prefix pages allRoles :
  keeps_eof (listRolesPages c prefix pages allRoles : M E _).
Proof.
  revert allRoles. induction pages as [|page pages IH]; intros allRoles; simpl.
  - apply keeps_ret.
  - keeps_auto. apply IH.
Qed.

Lemma keeps_ListRoles (c : Client) prefix : keeps_eof (ListRoles c prefix : M E _).
Proof. unfold ListRoles. keeps_auto. apply keeps_listRolesPages. Qed.

Lemma eof_bind {A B} (m : M E A) (f : A → M E B)
    (Q1 : A → list Event → Prop) (Q : B → list Event → Prop) :
  eof_post m Q1 →
  (∀ a t1, Q1 a t1 → eof_post (f a) (λ b t2, Q b (t1 ++ t2))) →
  eof_post (m ≫= f) Q.
Proof.
  intros Hm Hf s Hs. destruct (Hm s Hs) as [HQ1 Hs1].
  rewrite value_bind, trace_bind, final_bind. by apply Hf.
Qed.

Lemma eof_of {A} (m : M E A) (Q : A → list Event → Prop) :
  post m Q → keeps_eof m → eof_post m Q.
Proof. intros Hm Hk s Hs. split; [apply Hm|by apply Hk]. Qed.

Lemma eof_ret {A} (a : A) (Q : A → list Event → Prop) :
  Q a [] → eof_post (mret a : M E A) Q.
Proof. by intros HQ s Hs. Qed.

Lemma eof_mono {A} (m : M E A) (Q Q' : A → list Event → Prop) :
  eof_post m Q → (∀ a t, Q a t → Q' a t) → eof_post m Q'.
Proof. intros Hm HQ s Hs. destruct (Hm s Hs). split; [by apply HQ|done]. Qed.

(** At the end of input a line read is empty. *)
Lemma eof_ReadString_nl :
  eof_post (ReadString_nl : M E string) (λ line t, line = "" ∧ t = []).
Proof. intros s Hs. unfold ReadString_nl. rewrite Hs. by repeat split. Qed.

Lemma keeps_getAndValidateProfiles config log :
  keeps_eof (getAndValidateProfiles config log : M E _).
Proof.
  unfold getAndValidateProfiles.
  repeat first
    [ apply keeps_NewClient | apply keeps_ValidateCredentials
    | keeps_step | progress autounfold with run ].
Qed.

Lemma keeps_getPatternConfiguration config log :
  keeps_eof (getPatternConfiguration config log : M E _).
Proof. unfold getPatternConfiguration. keeps_auto. Qed.

Lemma eof_step {A B} (m : M E A) (f : A → M E B) (P : Event → Prop)
    (Q1 : A → Prop) (Q : B → Prop) :
  eof_post m (λ a t, Forall P t ∧ Q1 a) →
  (∀ a, Q1 a → eof_post (f a) (λ r t, Forall P t ∧ Q r)) →
  eof_post (m ≫= f) (λ r t, Forall P t ∧ Q r).
Proof.
  intros Hm Hf. eapply eof_bind; [exact Hm|].
  intros a t1 [Ht1 Ha]. eapply eof_mono; [by apply Hf|].
  intros b t2 [Ht2 Hb]. split; [by apply Forall_app|done].
Qed.

(** A step that is harmless and leaves the end of input where it is. *)
Lemma eof_harmless {A} (m : M E A) :
  always harmless m → keeps_eof m → eof_post m (λ _ t, Forall harmless t ∧ True).
Proof.
  intros Hm Hk. apply eof_of; [|done]. eapply post_mono; [exact Hm|]. by intros a t Ht.
Qed.

Lemma eof_then {A B} (m : M E A) (f : A → M E B) (Q : B → Prop) :
  always harmless m → keeps_eof m →
  (∀ a, eof_post (f a) (λ r t, Forall harmless t ∧ Q r)) →
  eof_post (m ≫= f) (λ r t, Forall harmless t ∧ Q r).
Proof.
  intros Hm Hk Hf. apply (eof_step _ _ _ (λ _, True)); [by apply eof_harmless|].
  by intros a _.
Qed.

Lemma eof_value {A} (a : A) (Q : A → Prop) :
  Q a → eof_post (mret a : M E A) (λ r t, Forall harmless t ∧ Q r).
Proof. intros HQ. apply eof_ret. by split. Qed.

Lemma eof_read {B} (f : string → M E B) (Q : B → Prop) :
  eof_post (f "") (λ r t, Forall harmless t ∧ Q r) →
  eof_post (ReadString_nl ≫= f) (λ r t, Forall harmless t ∧ Q r).
Proof.
  intros Hf. eapply eof_bind; [apply eof_ReadString_nl|].
  by intros line t1 [-> ->].
Qed.

(** Without input the manual entry fails on the count. *)
Lemma eof_getRolesManually config log :
  eof_post (getRolesManually config log : M E _)
    (λ r t, Forall harmless t ∧ ∃ selection, r = Return selection).
Proof.
  unfold getRolesManually.
  apply eof_then; [always_auto|keeps_auto|]. intros _.
  apply eof_then; [always_auto|keeps_auto|]. intros _.
  apply eof_read. apply eof_value. by eexists.
Qed.

(** Without input the role selection returns: an answer that is empty
  selects nothing. *)
Lemma eof_discoverAndSelectRoles config log :
  eof_post (discoverAndSelectRoles config log : M E _)
    (λ r t, Forall harmless t ∧ ∃ selection, r = Return selection).
Proof.
  unfold discoverAndSelectRoles.
  apply eof_then; [always_auto|keeps_auto|]. intros _.
  apply eof_then; [always_auto|keeps_auto|]. intros _.
  apply eof_then.
  { apply always_harmless_of_benign, NewClient_benign. }
  { apply keeps_NewClient. }
  intros [sourceClient|e]; [|apply eof_value; by eexists].
  apply eof_then; [always_auto|keeps_auto|]. intros _.
  apply eof_then.
  { apply always_harmless_of_benign, ListRoles_benign. }
  { apply keeps_ListRoles. }
  intros [allRoles|e]; [|apply eof_value; by eexists].
  destruct (length allRoles =? 0).
  - apply eof_then; [always_auto|keeps_auto|]. intros _. apply eof_getRolesManually.
  - apply eof_then; [always_auto|keeps_auto|]. intros _.
    apply eof_then; [always_auto|keeps_auto|]. intros _.
    apply eof_then; [always_auto|keeps_auto|]. intros _.
    apply eof_then; [always_auto|keeps_auto|]. intros _.
    apply eof_read. cbn.
    apply eof_then; [always_auto|keeps_auto|]. intros _. apply eof_value. by eexists.
Qed.

(** Without input the confirmation is negative. *)
Lemma eof_showSummaryAndConfirm config log :
  eof_post (showSummaryAndConfirm config log : M E _)
    (λ r t, Forall harmless t ∧ r = false).
Proof.
  unfold showSummaryAndConfirm.
  repeat (apply eof_then; [always_auto|keeps_auto|]; intros _).
  apply eof_read. by apply eof_value.
Qed.

(** A wizard that finds standard input at its end changes nothing: every
  prompt reads an empty answer, the confirmation of step 4 counts as
  refused, and the run ends by returning or through [os.Exit(1)] without
  having sent a request that changes an account. *)
Theorem without_input_nothing_changes (config : CloneConfig) (s : State E) :
  stdin s = "" →
  Forall harmless (trace (runEnhancedClone config s)) ∧
  (value (runEnhancedClone config s) = Return Returned ∨
   value (runEnhancedClone config s) = Return (Exited 1)).
Proof.
  intros Hs.
  cut (eof_post (runEnhancedClone config : M E _)
         (λ r t, Forall harmless t ∧
                 (r = Return Returned ∨ r = Return (Exited 1)))).
  { intros Hpost. apply (Hpost s Hs). }
  clear s Hs.
  assert (∀ log msg,
            eof_post (Logger.Error log msg;; mret (Return (Exited 1)) : M E _)
              (λ r t, Forall harmless t ∧
                      (r = Return Returned ∨ r = Return (Exited 1)))) as Hexit.
  { intros log msg. apply eof_then; [always_auto|keeps_auto|]. intros _.
    apply eof_value. by right. }
  unfold runEnhancedClone.
  apply eof_then.
  { eapply always_mono; [apply New_silent|]. by intros []. }
  { unfold Logger.New. keeps_auto. }
  intros [log|e].
  2:{ apply eof_then; [always_auto|keeps_auto|]. intros _. apply eof_value. by right. }
  apply eof_then; [always_auto|keeps_auto|]. intros _.
  apply eof_then; [always_auto|keeps_auto|]. intros _.
  apply eof_then.
  { apply always_harmless_of_benign, getAndValidateProfiles_benign. }
  { apply keeps_getAndValidateProfiles. }
  intros [config1 [e|]]; [apply Hexit|].
  apply eof_then.
  { apply always_harmless_of_benign, getPatternConfiguration_benign. }
  { apply keeps_getPatternConfiguration. }
  intros [config2 [e|]]; [apply Hexit|].
  apply (eof_step _ _ _ (λ r, ∃ selection, r = Return selection));
    [apply eof_discoverAndSelectRoles|].
  intros r [[config3 [e|]] ->]; [apply Hexit|].
  apply (eof_step _ _ _ (λ r, r = false)); [apply eof_showSummaryAndConfirm|].
  intros r ->. cbn [negb].
  apply eof_then; [always_auto|keeps_auto|]. intros _.
  apply eof_then; [always_auto|keeps_auto|]. intros _.
  apply eof_value. by left.
Qed.

End eof.

End EofFacts.

(** ** The list command *)

Module ListFacts.
Import GoString GoStrings Awsclient Cmd CmdList GatewayFacts CloneFacts.

(** A description shown in the listing is never empty and never longer
  than 83 bytes: a missing description has its stand-in, one of up to 80
  bytes is shown as it is, a longer one is cut to its first 80 bytes
  (wherever that falls in a UTF-8 sequence) with three dots behind. *)
Theorem getDescription_is_short (desc : string) :
  getDescription desc ≠ "" ∧
  String.length (getDescription desc) ≤ 83 ∧
  (desc = "" → getDescription desc = "(No description)") ∧
  (desc ≠ "" → String.length desc ≤ 80 → getDescription desc = desc) ∧
  (80 < String.length desc →
   ∃ rest, desc = slice_to desc 80 +:+ rest ∧
           getDescription desc = slice_to desc 80 +:+ "...").
Proof.
  unfold getDescription.
  destruct (String.eqb_spec desc "") as [->|Hne].
  { split; [done|]. split; [simpl; lia|]. split; [done|]. split; [done|].
    simpl. lia. }
  destruct (80 <? String.length desc) eqn:Hlong.
  - apply Nat.ltb_lt in Hlong.
    assert (String.length (slice_to desc 80 +:+ "...") = 83) as Hlen.
    { rewrite GoStringFacts.length_app, GoStringFacts.length_slice_to.
      change (String.length "...") with 3. lia. }
    split; [|split; [lia|split; [done|split; [lia|]]]].
    + intros Heq. rewrite Heq in Hlen. simpl in Hlen. lia.
    + intros _. exists (slice_from desc 80). split; [|done].
      by rewrite GoStringFacts.slice_to_from.
  - apply Nat.ltb_ge in Hlong.
    split; [done|]. split; [lia|]. split; [done|]. split; [done|lia].
Qed.

Lemma splitLoop_nonempty fuel s sep : splitLoop fuel s sep ≠ [].
Proof. destruct fuel; simpl; [done|]. by destruct (Index s sep). Qed.

Lemma last_cons_nonempty {A} (x : A) (l : list A) : l ≠ [] → last (x :: l) = last l.
Proof. by destruct l. Qed.

Lemma splitLoop_last (c : ascii) (fuel : nat) (s : string) :
  String.length s ≤ fuel →
  ∃ before name,
    last (splitLoop fuel s (String c "")) = Some name ∧
    s = before +:+ name ∧
    occurs c name = false ∧
    (before = "" ∨ ∃ b, before = b +:+ String c "").
Proof.
  revert s. induction fuel as [|fuel IH]; intros s Hlen.
  - apply Nat.le_0_r, GoStringFacts.length_zero in Hlen as ->.
    exists "", "". split; [done|]. split; [done|]. split; [done|by left].
  - simpl. destruct (Index s (String c "")) as [i|] eqn:Hi.
    + pose proof (GoStringFacts.Index_Some _ _ _ Hi) as Hsplit.
      assert (String c "" ≠ "") as Hsep by done.
      pose proof (GoStringFacts.Index_Some_shorter _ _ _ Hsep Hi) as Hshort.
      assert (String.length (slice_from s (i + String.length (String c ""))) ≤ fuel)
        as Hfuel by lia.
      destruct (IH _ Hfuel) as (before & name & Hlast & Hrest & Hname & Hbefore).
      exists (slice_to s i +:+ String c "" +:+ before), name.
      rewrite last_cons_nonempty by apply splitLoop_nonempty.
      split; [done|]. split; [|split; [done|right]].
      * rewrite !GoStringFacts.app_assoc, <- Hrest. exact Hsplit.
      * destruct Hbefore as [->|[b ->]].
        -- exists (slice_to s i). by rewrite GoStringFacts.app_nil_r.
        -- exists (slice_to s i +:+ String c "" +:+ b).
           by rewrite !GoStringFacts.app_assoc.
    + exists "", s. split; [done|]. split; [done|]. split; [|by left].
      clear IH Hlen. induction s as [|d s IHs]; [done|].
      simpl in Hi |- *. destruct (Ascii.eqb c d) eqn:Hcd; [done|]. simpl.
      apply IHs. by destruct (Index s (String c "")).
Qed.

(** The name shown for a managed policy is what follows the last slash
  of its ARN: it holds no slash, the ARN ends with it, and what is cut off
  in front ends with a slash. An ARN without a slash is shown whole. *)
Theorem extractPolicyName_is_the_last_segment (arn : string) :
  ∃ before,
    arn = before +:+ extractPolicyName arn ∧
    occurs "/" (extractPolicyName arn) = false ∧
    (before = "" ∨ ∃ b, before = b +:+ "/") ∧
    (occurs "/" arn = false → before = "").
Proof.
  unfold extractPolicyName, Split. cbn [String.eqb Ascii.eqb Bool.eqb].
  destruct (splitLoop_last "/" (String.length arn) arn (le_n _))
    as (before & name & Hlast & Hsplit & Hname & Hbefore).
  assert ((0 <? length (splitLoop (String.length arn) arn "/")) = true) as ->.
  { apply Nat.ltb_lt. pose proof (splitLoop_nonempty (String.length arn) arn "/").
    destruct (splitLoop _ _ _); [done|simpl; lia]. }
  rewrite Hlast. simpl. exists before. repeat split; try done.
  intros Hnone. destruct Hbefore as [->|[b ->]]; [done|].
  rewrite Hsplit, !GoStringFacts.occurs_app in Hnone. simpl in Hnone.
  by rewrite orb_true_r in Hnone.
Qed.

Section list.
Context {E : Type} `{External E} `{Encoding} `{GoStrings.UnicodeTables}.

Lemma displaySimpleRoles_silent roles pattern log :
  always silent (displaySimpleRoles roles pattern log : M E unit).
Proof. unfold displaySimpleRoles. always_auto. Qed.

Lemma displayManagedPolicies_silent policies :
  always silent (displayManagedPolicies policies : M E unit).
Proof. unfold displayManagedPolicies. always_auto. Qed.

Lemma displayDetailedRoles_reads (client : Client) roles log :
  always (reads_only (profile client)) (displayDetailedRoles client roles log : M E unit).
Proof.
  unfold displayDetailedRoles.
  repeat first
    [ apply GetRoleInfo_reads_only
    | eapply always_mono; [apply displayManagedPolicies_silent|apply silent_reads_only]
    | always_step
    | progress autounfold with run ].
Qed.

(** The list command only reads, and only from the profile it is given:
  it asks for the caller identity, lists the roles and, for the detailed
  listing, fetches them; it sends no request that changes the account. *)
Theorem list_command_only_reads (profile pattern : string)
    (details sortRoles verbose : bool) :
  always (reads_only profile)
    (listCmd_Run profile pattern details sortRoles verbose : M E unit).
Proof.
  unfold listCmd_Run. destruct (String.eqb profile ""); [always_auto|].
  unfold runListCommand.
  apply always_bind; [unfold Logger.New; always_auto|]. intros [log|e]; [|always_auto].
  apply always_bind; [|intros _; always_auto].
  unfold listRoles.
  apply always_bind; [always_auto|]. intros _.
  apply always_bind; [always_auto|]. intros _.
  eapply post_bind; [apply NewClient_post|].
  intros [client|e] t1 [Ht1 Hp];
    (apply always_after; [by eapply Forall_impl; [|apply silent_reads_only]|]);
    [|always_auto].
  rewrite <- (Hp _ eq_refl).
  repeat first
    [ eapply always_mono;
        [apply ValidateCredentials_reads|apply request_of_reads_only]
    | eapply always_mono; [apply ListRoles_reads|apply request_of_reads_only]
    | apply displayDetailedRoles_reads
    | eapply always_mono; [apply displaySimpleRoles_silent|apply silent_reads_only]
    | always_step
    | progress autounfold with run ].
Qed.

Lemma fetched_app (t1 t2 : list Event) : fetched (t1 ++ t2) = fetched t1 ++ fetched t2.
Proof. unfold fetched. by rewrite calls_of_app, omap_app. Qed.

Lemma fetched_none (t : list Event) :
  Forall (λ ev, silent ev ∨ ∃ p, request_of p no_GetRole ev) t → fetched t = [].
Proof.
  induction 1 as [|ev t Hev _ IH]; [done|].
  change (ev :: t) with ([ev] ++ t). rewrite fetched_app, IH.
  destruct ev as [| | | |c]; try done. destruct Hev as [[]|[p [_ Hc]]].
  unfold fetched. simpl. by destruct (call_request c).
Qed.

Lemma fetched_silent {A} (m : M E A) : always silent m → post m (λ _ t, fetched t = []).
Proof.
  intros Hm. eapply post_mono; [exact Hm|]. intros a t Ht. apply fetched_none.
  eapply Forall_impl; [exact Ht|]. by left.
Qed.

Lemma managedPoliciesPages_of (R : Request → Prop) (c : Client) roleName pages policies :
  R (ReqListAttachedRolePolicies roleName) →
  always (request_of (profile c) R) (managedPoliciesPages c roleName pages policies : M E _).
Proof.
  intros HR. revert policies. induction pages as [|page pages IH]; intros policies; simpl.
  - apply always_ret.
  - always_auto; done.
Qed.

Lemma inlinePoliciesLoop_of (R : Request → Prop) (c : Client) roleName names policies :
  (∀ name, R (ReqGetRolePolicy roleName name)) →
  always (request_of (profile c) R) (inlinePoliciesLoop c roleName names policies : M E _).
Proof.
  intros HR. revert policies. induction names as [|name names IH]; intros policies; simpl.
  - apply always_ret.
  - apply always_bind; [apply always_request; intros e; split; [done|apply HR]|].
    intros r. always_auto; done.
Qed.

(** [GetRoleInfo] sends one GetRole request, for the role asked for. *)
Lemma GetRoleInfo_fetches_once (c : Client) roleName :
  post (GetRoleInfo c roleName : M E _) (λ _ t, fetched t = [roleName]).
Proof.
  unfold GetRoleInfo.
  eapply post_bind; [apply request_post|]. intros r t1 ->.
  match goal with
  | |- post ?k _ => assert (always (request_of (profile c) no_GetRole) k) as Hk
  end.
  { unfold getManagedPolicies, getInlinePolicies, getRoleTags.
    repeat first
      [ apply managedPoliciesPages_of; done
      | apply inlinePoliciesLoop_of; done
      | apply always_request; done
      | always_step ]. }
  eapply post_mono; [exact Hk|].
  intros a t2 Ht2. cbv beta. rewrite fetched_app, (fetched_none t2); [done|].
  eapply Forall_impl; [exact Ht2|]. intros ev Hev. right. by exists (profile c).
Qed.

Lemma fetched_forEachIndexed {A} (i0 : nat) (xs : list A) (body : nat → A → M E unit)
    (h : A → string) :
  (∀ i x, post (body i x) (λ _ t, fetched t = [h x])) →
  post (forEachIndexed i0 xs body) (λ _ t, fetched t = h <$> xs).
Proof.
  intros Hbody. revert i0. induction xs as [|x xs IH]; intros i0; simpl.
  - by apply post_ret.
  - eapply post_bind; [apply Hbody|]. intros u1 t1 Ht1.
    eapply post_mono; [apply IH|]. intros u2 t2 Ht2. simpl in *.
    by rewrite fetched_app, Ht1, Ht2.
Qed.

Lemma fetched_bind_l {A B} (m : M E A) (f : A → M E B) (l : list string) :
  always silent m → (∀ a, post (f a) (λ _ t, fetched t = l)) →
  post (m ≫= f) (λ _ t, fetched t = l).
Proof.
  intros Hm Hf. eapply post_bind; [apply fetched_silent, Hm|].
  intros a t1 Ht1. eapply post_mono; [apply Hf|].
  intros b t2 Ht2. simpl in *. by rewrite fetched_app, Ht1, Ht2.
Qed.

Lemma fetched_bind_r {A B} (m : M E A) (f : A → M E B) (l : list string) :
  post m (λ _ t, fetched t = l) → (∀ a, always silent (f a)) →
  post (m ≫= f) (λ _ t, fetched t = l).
Proof.
  intros Hm Hf. eapply post_bind; [exact Hm|].
  intros a t1 Ht1. eapply post_mono; [apply fetched_silent, Hf|].
  intros b t2 Ht2. simpl in *. by rewrite fetched_app, Ht1, Ht2, List.app_nil_r.
Qed.

(** The detailed listing fetches every role of the list once and in the
  order of the list, whether the fetch of an earlier role failed or not. *)
Theorem detailed_listing_fetches_every_role (client : Client) (roles : list string)
    (log : Logger.Logger) :
  post (displayDetailedRoles client roles log : M E unit)
    (λ _ t, fetched t = roles ∧
            Forall (λ c, call_profile c = profile client ∧
                         mutating (call_request c) = false) (calls_of t)).
Proof.
  apply post_and.
  - unfold displayDetailedRoles.
    apply fetched_bind_l; [always_auto|]. intros _.
    apply fetched_bind_l; [always_auto|]. intros _.
    eapply post_mono.
    { apply (fetched_forEachIndexed _ _ _ id). intros i roleName.
      apply fetched_bind_l; [always_auto|]. intros _.
      apply fetched_bind_l; [always_auto|]. intros _.
      apply fetched_bind_l; [always_auto|]. intros _.
      apply fetched_bind_r; [apply GetRoleInfo_fetches_once|].
      intros [roleInfo|e]; [|always_auto].
      repeat first
        [ apply displayManagedPolicies_silent
        | always_step
        | progress autounfold with run ]. }
    intros u t Ht. simpl in Ht. by rewrite Ht, list_fmap_id.
  - eapply post_mono; [apply displayDetailedRoles_reads|].
    intros u t Ht. by apply Forall_reads_only_calls.
Qed.

End list.

End ListFacts.

(** ** The claims on the simulated environment *)

Module Examples.
Import Awsclient Cmd Sim CloneFacts.

(** C1: a destination pattern that ends in two separators keeps one of
  them in the [Environment] value, against the specification's wording,
  and that is what the tag request of a clone carries. *)
Lemma environment_keeps_a_separator :
  envValue "prod__" = "prod_" ∧
  spec_stripTrailingSeparators "prod__" = "prod" ∧
  endsInSeparator (envValue "prod__") = true ∧
  let r := cloneSingleRole dev (Some prod) "dev_app_role" "prod__app_role"
             (config false false "prod__" ["dev_app_role"]) (logger false)
             (state world_fresh "") in
  ∃ e, Build_Call "prod"
         (ReqTagRole "prod__app_role"
            [("Environment", "prod_"); ("Team", "prod__platform")]) e
       ∈ calls_of (trace r).
Proof.
  repeat split; try reflexivity.
  exists None. vm_compute. repeat constructor.
Qed.

Lemma environment_tag_value_witness :
  String.length "prod_" ≤ S (String.length (spec_stripTrailingSeparators "prod_")) ∧
  envValue "prod_" = "prod" ∧ endsInSeparator (envValue "prod_") = false.
Proof.
  split; [vm_compute; lia|].
  apply (environment_tag_value dev (Some prod) "dev_app_role" "prod_app_role"
           (config false false "prod_" ["dev_app_role"]) (logger false)
           (state world_fresh "")).
  vm_compute. lia.
Defined.

Lemma dry_run_sends_no_mutating_request_witness :
  DryRun (config true true "prod_" ["dev_app_role"; "dev_old_role"]) = true ∧
  Forall (λ c, call_profile c = "dev" ∧ mutating (call_request c) = false)
    (calls_of (trace (performCloning
                        (config true true "prod_" ["dev_app_role"; "dev_old_role"])
                        (logger true) (state world_fresh "")))).
Proof.
  split; [reflexivity|].
  apply (dry_run_sends_no_mutating_request
           (config true true "prod_" ["dev_app_role"; "dev_old_role"])
           (logger true) (state world_fresh "")).
  reflexivity.
Defined.

(** C3: the destination role exists and the source role is gone: the
  error of the clone is the one of the fetch, which does not say "already
  exists". And the destination role exists, the source role is fetched and
  the destination profile may not read: [RoleExists] answers [false],
  CreateRole is requested, and the error is the one of the creation. *)
Lemma existing_destination_other_error :
  (let config := config false false "prod_" ["dev_old_role"] in
   let s := state world_cloned "" in
   let r := cloneSingleRole dev (Some prod) "dev_old_role" "prod_old_role"
              config (logger false) s in
   DryRun config = false ∧
   GenerateNewRoleName "dev_old_role" (SourcePattern config) (DestPattern config)
     = "prod_old_role" ∧
   is_Some (sim_accounts world_cloned !! "prod" ≫= (.!! "prod_old_role")) ∧
   value (RoleExists prod "prod_old_role" s) = true ∧
   value r = Return (Some ("failed to get role info: failed to get role dev_old_role: " +:+
                           "NoSuchEntity: dev_old_role")) ∧
   GoStrings.Contains
     ("failed to get role info: failed to get role dev_old_role: " +:+
      "NoSuchEntity: dev_old_role") "already exists" = false) ∧
  (let config := config false false "prod_" ["dev_app_role"] in
   let s := state world_denied "" in
   let r := cloneSingleRole dev (Some prod) "dev_app_role" "prod_app_role"
              config (logger false) s in
   DryRun config = false ∧
   GenerateNewRoleName "dev_app_role" (SourcePattern config) (DestPattern config)
     = "prod_app_role" ∧
   is_Some (sim_accounts world_denied !! "prod" ≫= (.!! "prod_app_role")) ∧
   result_error (value (GetRoleInfo dev "dev_app_role" s)) = None ∧
   value r = Return (Some ("failed to create role: failed to create role " +:+
                           "prod_app_role: AccessDenied")) ∧
   GoStrings.Contains
     ("failed to create role: failed to create role " +:+
      "prod_app_role: AccessDenied") "already exists" = false ∧
   ∃ c, c ∈ calls_of (trace r) ∧ call_profile c = "prod" ∧
        is_CreateRole (call_request c) = true).
Proof.
  split.
  - intros config s r. split; [reflexivity|]. split; [reflexivity|].
    split; [by eexists|]. by vm_compute.
  - intros config s r. split; [reflexivity|]. split; [reflexivity|].
    split; [by eexists|]. split; [reflexivity|]. split; [reflexivity|].
    split; [reflexivity|].
    exists (Build_Call "prod"
              (ReqCreateRole "prod_app_role"
                 ("{" +:+ dq +:+ "Principal" +:+ dq +:+ ":" +:+ dq +:+
                  "arn:aws:iam::111111111111:role/prod_runner" +:+ dq +:+ "}")
                 (Some "Cloned from dev_app_role on 2025-01-01 00:00:00"))
              (Some "AccessDenied")).
    split; [|by split]. vm_compute.
    do 6 apply list_elem_of_further. apply list_elem_of_here.
Qed.

Lemma existing_destination_fails_witness :
  let config := config false false "prod_" ["dev_app_role"] in
  let s := state world_cloned "" in
  DryRun config = false ∧
  value (GetRoleInfo dev "dev_app_role" s) =
    Ok {| RoleName := "dev_app_role"; Description := "application role";
          TrustPolicy := trust_dev;
          ManagedPolicies := sim_managed app_role;
          InlinePolicies := sim_inline app_role;
          Tags := sim_tags app_role |} ∧
  value (RoleExists prod "prod_app_role" (final (GetRoleInfo dev "dev_app_role" s)))
    = true ∧
  value (cloneSingleRole dev (Some prod) "dev_app_role" "prod_app_role" config
           (logger false) s) =
  Return (Some "destination role already exists: prod_app_role") ∧
  value (GetRoleInfo dev "dev_old_role" s) =
    Err "failed to get role dev_old_role: NoSuchEntity: dev_old_role" ∧
  value (cloneSingleRole dev (Some prod) "dev_old_role" "prod_old_role" config
           (logger false) s) =
  Return (Some ("failed to get role info: " +:+
                "failed to get role dev_old_role: NoSuchEntity: dev_old_role")) ∧
  calls_of (trace (cloneSingleRole dev (Some prod) "dev_old_role" "prod_old_role" config
                     (logger false) s)) =
  calls_of (trace (GetRoleInfo dev "dev_old_role" s)).
Proof.
  intros config s.
  assert (DryRun config = false) as Hdry by reflexivity.
  assert (value (GetRoleInfo dev "dev_app_role" s) =
          Ok {| RoleName := "dev_app_role"; Description := "application role";
                TrustPolicy := trust_dev;
                ManagedPolicies := sim_managed app_role;
                InlinePolicies := sim_inline app_role;
                Tags := sim_tags app_role |}) as Hinfo by (vm_compute; reflexivity).
  assert (value (RoleExists prod "prod_app_role"
                   (final (GetRoleInfo dev "dev_app_role" s))) = true) as Hexists
    by (vm_compute; reflexivity).
  assert (value (GetRoleInfo dev "dev_old_role" s) =
          Err "failed to get role dev_old_role: NoSuchEntity: dev_old_role") as Hfail
    by (vm_compute; reflexivity).
  split; [exact Hdry|]. split; [exact Hinfo|]. split; [exact Hexists|].
  split.
  { exact (proj1 (proj1 (existing_destination_fails dev prod "dev_app_role" config
                           (logger false) s Hdry) _ Hinfo Hexists)). }
  split; [exact Hfail|].
  pose proof (proj2 (existing_destination_fails dev prod "dev_old_role" config
                       (logger false) s Hdry) _ Hfail) as (Hvalue & _ & _ & Hcalls & _).
  split; [exact Hvalue | exact Hcalls].
Defined.
(** C4: an empty part is no number, and the selection is accepted all the
  same, the part being skipped. *)
Lemma empty_part_is_skipped :
  "" ∈ GoStrings.Split "1,,3" "," ∧
  GoStrconv.Atoi "" = None ∧
  parseRoleSelection "1,,3" ["a"; "b"; "c"; "d"; "e"] = Ok ["a"; "c"].
Proof.
  split; [|split]; [|reflexivity|reflexivity].
  change (GoStrings.Split "1,,3" ",") with ["1"; ""; "3"].
  apply list_elem_of_further, list_elem_of_here.
Qed.

Lemma role_selection_witness :
  parseRoleSelection "1,3,5" ["a"; "b"; "c"; "d"; "e"] = Ok ["a"; "c"; "e"] ∧
  parseRoleSelection "0" ["a"; "b"; "c"; "d"; "e"] = Err "number out of range: 0" ∧
  parseRoleSelection "6" ["a"; "b"; "c"; "d"; "e"] = Err "number out of range: 6" ∧
  ∃ e, parseRoleSelection "2,x" ["a"; "b"; "c"; "d"; "e"] = Err e.
Proof.
  destruct (role_selection (E := SimWorld) "a" "b" "c" "d" "e")
    as (H135 & H0 & H6 & _ & Hreject & _).
  split; [exact H135|]. split; [exact H0|]. split; [exact H6|].
  apply (Hreject "2,x" ["a"; "b"; "c"; "d"; "e"] "x").
  - change (GoStrings.Split "2,x" ",") with ["2"; "x"].
    apply list_elem_of_further, list_elem_of_here.
  - by vm_compute.
  - left. reflexivity.
Defined.

(** C5: the destination pattern does not contain the source pattern and
  the round trip fails; the destination pattern contains the source
  pattern and the round trip holds. *)
Lemma roundtrip_not_decided_by_containment :
  ("a" ≠ "" ∧ GoStrings.Contains "b" "a" = false ∧
   ReplacePatternInJSON (ReplacePatternInJSON "ab" "a" "b") "b" "a" = "aa" ∧
   GenerateNewRoleName (GenerateNewRoleName "ab" "a" "b") "b" "a" ≠ "ab") ∧
  (GoStrings.Contains "aa" "a" = true ∧
   ReplacePatternInJSON (ReplacePatternInJSON "a" "a" "aa") "aa" "a" = "a" ∧
   GenerateNewRoleName (GenerateNewRoleName "a" "a" "aa") "aa" "a" = "a").
Proof. by vm_compute. Qed.

Lemma roundtrip_fresh_destination_witness :
  "dev_" ≠ "" ∧ GoString.occurs "p" "dev_db_reader" = false ∧
  ReplacePatternInJSON (ReplacePatternInJSON "dev_db_reader" "dev_" "prod_")
    "prod_" "dev_" = "dev_db_reader" ∧
  GenerateNewRoleName (GenerateNewRoleName "dev_db_reader" "dev_" "prod_")
    "prod_" "dev_" = "dev_db_reader".
Proof.
  split; [done|]. split; [reflexivity|].
  apply (PatternFacts.roundtrip_fresh_destination "dev_db_reader" "dev_" "prod_"
           "p" "rod_"); [done|reflexivity|reflexivity].
Defined.

(** C6: the destination profile may not read, the role is there, and
  [RoleExists] answers [false]: the refusal of the service is not handed
  on. *)
Lemma RoleExists_swallows_the_error :
  let r := RoleExists prod "prod_app_role" (state world_denied "") in
  sim_accounts world_denied !! "prod" ≫= (.!! "prod_app_role") = Some app_role ∧
  calls_of (trace r) = [Build_Call "prod" (ReqGetRole "prod_app_role") (Some "AccessDenied")] ∧
  failed_with (trace r) "AccessDenied" ∧
  value r = false.
Proof.
  repeat split; try reflexivity.
  exists (Build_Call "prod" (ReqGetRole "prod_app_role") (Some "AccessDenied")).
  split; [|done]. vm_compute. apply list_elem_of_here.
Qed.

Lemma gateway_errors_surface_witness :
  value (GetRoleInfo prod "prod_app_role" (state world_denied "")) =
    Err "failed to get role prod_app_role: AccessDenied" ∧
  value (CreateRole prod "prod_app_role" trust_dev "copy" (state world_cloned "")) =
    Some "failed to create role prod_app_role: EntityAlreadyExists: prod_app_role" ∧
  Called (Build_Call "dev" (ReqListRoleTags "dev_app_role")
            (Some "Throttling: Rate exceeded")) ∈
    trace (GetRoleInfo (H := sim_throttled) dev "dev_app_role" (state world_fresh "")) ∧
  value (GetRoleInfo (H := sim_throttled) dev "dev_app_role" (state world_fresh "")) =
    Err "failed to get tags: Throttling: Rate exceeded".
Proof.
  destruct (gateway_errors_surface (E := SimWorld) prod "prod_app_role")
    as (_ & Hget & _ & Hcreate & _).
  split; [|split].
  - apply (Hget (state world_denied "") "AccessDenied"). reflexivity.
  - apply (Hcreate trust_dev "copy" (state world_cloned "")).
    exists (Build_Call "prod" (ReqCreateRole "prod_app_role" trust_dev (Some "copy"))
              (Some "EntityAlreadyExists: prod_app_role")).
    split; [|done]. vm_compute. apply list_elem_of_here.
  - assert (Called (Build_Call "dev" (ReqListRoleTags "dev_app_role")
                      (Some "Throttling: Rate exceeded")) ∈
            trace (GetRoleInfo (H := sim_throttled) dev "dev_app_role"
                     (state world_fresh ""))) as Hin.
    { vm_compute. do 4 apply list_elem_of_further. apply list_elem_of_here. }
    split; [exact Hin|].
    exact (proj2 (proj1 (gateway_errors_surface (H := sim_throttled) dev "dev_app_role")
                    (state world_fresh "") _ _ Hin eq_refl)).
Defined.

Lemma substep_failures_not_fatal_witness :
  let config := config false false "prod_" ["dev_app_role"] in
  let s := state world_fresh "" in
  let r := cloneSingleRole dev (Some prod) "dev_app_role" "prod_app_role" config
             (logger false) s in
  DryRun config = false ∧
  Build_Call "prod"
    (ReqCreateRole "prod_app_role"
       ("{" +:+ dq +:+ "Principal" +:+ dq +:+ ":" +:+ dq +:+
        "arn:aws:iam::111111111111:role/prod_runner" +:+ dq +:+ "}")
       (Some "Cloned from dev_app_role on 2025-01-01 00:00:00")) None
    ∈ calls_of (trace r) ∧
  Build_Call "prod"
    (ReqAttachRolePolicy "prod_app_role" "arn:aws:iam::111111111111:policy/dev_custom")
    (Some "NoSuchEntity: arn:aws:iam::111111111111:policy/dev_custom")
    ∈ calls_of (trace r) ∧
  value r = Return None ∧
  warned (trace r).
Proof.
  intros config s r.
  assert (DryRun config = false) as Hdry by reflexivity.
  assert (Build_Call "prod"
            (ReqCreateRole "prod_app_role"
               ("{" +:+ dq +:+ "Principal" +:+ dq +:+ ":" +:+ dq +:+
                "arn:aws:iam::111111111111:role/prod_runner" +:+ dq +:+ "}")
               (Some "Cloned from dev_app_role on 2025-01-01 00:00:00")) None
          ∈ calls_of (trace r)) as Hcreated.
  { vm_compute. do 6 apply list_elem_of_further. apply list_elem_of_here. }
  split; [exact Hdry|]. split; [exact Hcreated|]. split.
  { vm_compute. do 8 apply list_elem_of_further. apply list_elem_of_here. }
  destruct (substep_failures_not_fatal dev prod "dev_app_role" config (logger false) s
              Hdry (ex_intro _ _ (conj Hcreated (conj eq_refl eq_refl))))
    as (Hvalue & Hwarned & _).
  split; [exact Hvalue|exact Hwarned].
Defined.

Lemma version_is_never_detailed_witness :
  CmdVersion.Parse CmdVersion.versionFlags ["-e"] =
    Ok [CmdVersion.Build_Flag "verbose" "v" false;
        CmdVersion.Build_Flag "dry-run" "d" false;
        CmdVersion.Build_Flag "explain" "e" true] ∧
  CmdVersion.versionCmd_Run build
    [CmdVersion.Build_Flag "verbose" "v" false;
     CmdVersion.Build_Flag "dry-run" "d" false;
     CmdVersion.Build_Flag "explain" "e" true] = CmdVersion.showSimpleVersion build.
Proof.
  split; [reflexivity|].
  apply (VersionFacts.version_is_never_detailed build ["-e"]). reflexivity.
Defined.

Lemma performCloning_never_fails_witness :
  let config := config false false "prod_" ["dev_app_role"] in
  let s := state world_cloned "" in
  let t := trace (performCloning config (logger false) s) in
  value (NewClient "dev" s) = Ok dev ∧
  value (NewClient "prod" (final (NewClient "dev" s))) = Ok prod ∧
  value (performCloning config (logger false) s) = Return None ∧
  count_cloned t = 0 ∧
  Console SUCCESS "Cloning completed: 0/1 roles successful" ∈ t ∧
  value (runEnhancedClone (Sim.config false false "prod_" [])
           (state world_cloned answers)) = Return Returned.
Proof.
  intros config s t.
  assert (value (NewClient (SourceProfile config) s) = Ok dev) as Hsrc by reflexivity.
  assert (DryRun config = false →
          ∃ d, value (NewClient (DestProfile config)
                        (final (NewClient (SourceProfile config) s))) = Ok d) as Hdst
    by (intros _; exists prod; reflexivity).
  destruct (performCloning_never_fails config (logger false) s dev Hsrc Hdst)
    as (Hvalue & (_ & Hsummary) & Hwizard).
  split; [exact Hsrc|]. split; [reflexivity|]. split; [exact Hvalue|].
  split; [reflexivity|]. split; [exact Hsummary|].
  apply (Hwizard (Sim.config false false "prod_" []) (state world_cloned answers)).
  exists (Sim.config false false "prod_" []), (Sim.config false false "prod_" []).
  vm_compute. repeat split; reflexivity.
Defined.

Lemma empty_source_pattern_witness :
  "X" ≠ "" ∧
  GenerateNewRoleName "ab" "" "X" = "XaXbX" ∧
  ReplacePatternInJSON "ab" "" "X" = "XaXbX" ∧
  GenerateNewRoleName "ab" "" "X" ≠ "ab".
Proof.
  split; [done|].
  destruct (empty_source_pattern (E := SimWorld) "ab" "X" ltac:(done))
    as (Hname & Hdoc & Hne & _).
  split; [exact Hname|]. split; [exact Hdoc|exact Hne].
Defined.

End Examples.

(** ** The further properties on the simulated environment *)

Module MoreExamples.
Import Awsclient Cmd Sim.

Lemma renamed_iff_pattern_occurs_witness :
  "dev_" ≠ "" ∧
  (GenerateNewRoleName "app_role" "dev_" "prod_" = "app_role" ↔
   "dev_" = "prod_" ∨ GoStrings.Contains "app_role" "dev_" = false).
Proof.
  split; [done|].
  apply (NamingFacts.renamed_iff_pattern_occurs "app_role" "dev_" "prod_"). done.
Defined.

Lemma length_of_new_name_witness :
  "dev_" ≠ "" ∧
  String.length (GenerateNewRoleName "dev_dev_x" "dev_" "prod_") + 2 * 4 = 9 + 2 * 5.
Proof.
  split; [done|].
  apply (NamingFacts.length_of_new_name "dev_dev_x" "dev_" "prod_"). done.
Defined.

Lemma ListRoles_keeps_the_prefix_witness :
  let pages := [[to_Role "prod_old_role" app_role; to_Role "prod_app_role" app_role]] in
  all_pages (iam_ListRoles "prod" world_cloned).1 = Ok <$> pages ∧
  value (ListRoles prod "prod_a" (state world_cloned "")) = Ok ["prod_app_role"].
Proof.
  intros pages.
  assert (all_pages (iam_ListRoles (profile prod) (ext (state world_cloned ""))).1 =
          Ok <$> pages) as Hpages by (vm_compute; reflexivity).
  split; [exact Hpages|].
  exact (proj1 (GatewayReadFacts.ListRoles_keeps_the_prefix prod "prod_a"
                  (state world_cloned "") pages Hpages)).
Defined.

Lemma ListRoles_stops_at_the_failed_page_witness :
  all_pages (iam_ListRoles "prod" world_denied).1 = (Ok <$> []) ++ Err "AccessDenied" :: [] ∧
  value (ListRoles prod "" (state world_denied "")) =
    Err "failed to list roles: AccessDenied".
Proof.
  assert (all_pages (iam_ListRoles (profile prod) (ext (state world_denied ""))).1 =
          (Ok <$> []) ++ Err "AccessDenied" :: []) as Hpages by (vm_compute; reflexivity).
  split; [exact Hpages|].
  exact (proj1 (GatewayReadFacts.ListRoles_stops_at_the_failed_page prod ""
                  (state world_denied "") [] "AccessDenied" [] Hpages)).
Defined.

Lemma discovered_roles_start_with_the_pattern_witness :
  "dev_" ≠ "" ∧
  value (ListRoles dev "dev_" (state world_cloned "")) = Ok ["dev_app_role"] ∧
  GoStrings.HasPrefix "dev_app_role" "dev_" = true ∧
  GoStrings.HasPrefix (GenerateNewRoleName "dev_app_role" "dev_" "prod_") "prod_" = true.
Proof.
  assert ("dev_" ≠ "") as Hne by done.
  assert (value (ListRoles dev "dev_" (state world_cloned "")) = Ok ["dev_app_role"])
    as Hroles by (vm_compute; reflexivity).
  split; [exact Hne|]. split; [exact Hroles|].
  apply (GatewayReadFacts.discovered_roles_start_with_the_pattern dev "dev_" "prod_" Hne
           (state world_cloned "") ["dev_app_role"] "dev_app_role" Hroles).
  apply list_elem_of_here.
Defined.

Lemma getRoleTags_keeps_the_last_value_witness :
  (iam_ListRoleTags "dev" "dev_app_role" world_cloned).1 =
    Ok ([("Environment", "dev")] ++ ("Team", "dev_platform") :: []) ∧
  ("Team" ∉ ([] : list (string * string)).*1) ∧
  ∃ tags, value (getRoleTags dev "dev_app_role" (state world_cloned "")) = Ok tags ∧
          tags !! "Team" = Some "dev_platform".
Proof.
  assert ((iam_ListRoleTags (profile dev) "dev_app_role"
             (ext (state world_cloned ""))).1 =
          Ok ([("Environment", "dev")] ++ ("Team", "dev_platform") :: [])) as Hlist
    by (vm_compute; reflexivity).
  assert ("Team" ∉ ([] : list (string * string)).*1) as Hlast by apply not_elem_of_nil.
  split; [exact Hlist|]. split; [exact Hlast|].
  destruct (GatewayReadFacts.getRoleTags_keeps_the_last_value dev "dev_app_role"
              (state world_cloned "") [("Environment", "dev")] [] "Team" "dev_platform"
              Hlist Hlast) as (tags & Hvalue & Hteam & _).
  exists tags. split; [exact Hvalue|exact Hteam].
Defined.

Lemma GetRoleInfo_stops_at_a_bad_trust_policy_witness :
  let broken :=
    {| sim_trust := ""; sim_description := None; sim_managed := [];
       sim_inline := ∅; sim_tags := ∅ |} in
  let world :=
    {| sim_accounts := {[ "dev" := {[ "dev_broken" := broken ]} ]}; sim_denied := [] |} in
  let e := "invalid JSON after decoding: unexpected end of JSON input (original: )" in
  (iam_GetRole "dev" "dev_broken" world).1 = Ok (to_Role "dev_broken" broken) ∧
  processPolicyDocument (role_AssumeRolePolicyDocument (to_Role "dev_broken" broken)) =
    Err e ∧
  value (GetRoleInfo dev "dev_broken" (state world "")) =
    Err ("failed to process trust policy: " +:+ e) ∧
  calls_of (trace (GetRoleInfo dev "dev_broken" (state world ""))) =
    [Build_Call "dev" (ReqGetRole "dev_broken") None].
Proof.
  intros broken world e.
  assert ((iam_GetRole (profile dev) "dev_broken" (ext (state world ""))).1 =
          Ok (to_Role "dev_broken" broken)) as Hrole by (vm_compute; reflexivity).
  assert (processPolicyDocument
            (role_AssumeRolePolicyDocument (to_Role "dev_broken" broken)) = Err e)
    as Hdoc by (vm_compute; reflexivity).
  split; [exact Hrole|]. split; [exact Hdoc|].
  destruct (GatewayReadFacts.GetRoleInfo_stops_at_a_bad_trust_policy dev "dev_broken"
              (state world "") _ e Hrole Hdoc) as (Hvalue & Hcalls & _).
  split; [exact Hvalue|exact Hcalls].
Defined.

Lemma cloneSingleRole_copies_to_a_created_role_witness :
  let config := config false false "prod_" ["dev_app_role"] in
  let r := cloneSingleRole dev (Some prod) "dev_app_role" "prod_app_role" config
             (logger false) (state world_fresh "") in
  DryRun config = false ∧
  (∃ c, c ∈ calls_of (trace r) ∧ is_CreateRole (call_request c) = true ∧
        call_error c = None) ∧
  ∃ roleInfo entries,
    value (GetRoleInfo dev "dev_app_role" (state world_fresh "")) = Ok roleInfo ∧
    entries ≡ₚ map_to_list (InlinePolicies roleInfo) ∧
    attached (trace r) =
      (λ policyArn, ("prod_app_role", policyArn)) <$> ManagedPolicies roleInfo ∧
    put (trace r) =
      (λ entry : string * string,
         ("prod_app_role",
          (GenerateNewRoleName entry.1 (SourcePattern config) (DestPattern config),
           ReplacePatternInJSON entry.2 (SourcePattern config)
             (DestPattern config)))) <$> entries.
Proof.
  intros config r.
  assert (DryRun config = false) as Hdry by reflexivity.
  assert (∃ c, c ∈ calls_of (trace r) ∧ is_CreateRole (call_request c) = true ∧
               call_error c = None) as Hcreated.
  { exists (Build_Call "prod"
              (ReqCreateRole "prod_app_role"
                 ("{" +:+ dq +:+ "Principal" +:+ dq +:+ ":" +:+ dq +:+
                  "arn:aws:iam::111111111111:role/prod_runner" +:+ dq +:+ "}")
                 (Some "Cloned from dev_app_role on 2025-01-01 00:00:00")) None).
    split; [|by split]. vm_compute.
    do 6 apply list_elem_of_further. apply list_elem_of_here. }
  split; [exact Hdry|]. split; [exact Hcreated|].
  exact (proj1 (CloneRequestFacts.cloneSingleRole_copies_to_a_created_role dev prod
                  "dev_app_role" "prod_app_role" config (logger false)
                  (state world_fresh "") Hdry) Hcreated).
Defined.

Lemma dry_run_wizard_changes_nothing_witness :
  DryRun (config true true "prod_" []) = true ∧
  Forall harmless
    (trace (runEnhancedClone (config true true "prod_" []) (state world_fresh answers))).
Proof.
  split; [reflexivity|].
  apply (WizardFacts.dry_run_wizard_changes_nothing (config true true "prod_" [])).
  reflexivity.
Defined.

Lemma without_input_nothing_changes_witness :
  stdin (state world_fresh "") = "" ∧
  Forall harmless
    (trace (runEnhancedClone (config false false "prod_" []) (state world_fresh ""))) ∧
  (value (runEnhancedClone (config false false "prod_" []) (state world_fresh "")) =
     Return Returned ∨
   value (runEnhancedClone (config false false "prod_" []) (state world_fresh "")) =
     Return (Exited 1)).
Proof.
  split; [reflexivity|].
  apply (EofFacts.without_input_nothing_changes (config false false "prod_" [])
           (state world_fresh "")).
  reflexivity.
Defined.

End MoreExamples.
